(** * AgoraMarketplace: relay connection manager, subscription router,
      outbox engine, tolerant event parser, feed, nsec codec and key storage

    A shallow embedding of
      - [src/utils/nostr.ts]  (singleton WebSocket manager, pool.req / pool.event,
                               publishAgoraEvent),
      - [src/utils/auth.ts]   (bech32 nsec codec, hex, key generation and storage),
      - [src/hooks/useAgoraData.ts] (outbox worker, read cycle, parseAgoraEvent),
    followed by the properties the specification states about them (C1 to
    C10) and by further properties read off the code (X1 to X30).

    Conventions.
      - JS numbers that the program only uses as integers (counters, unix
        seconds, millisecond clocks, 32-bit words) are [Z]; the reconnect
        delay, which multiplies by [Math.random()], is a double: the
        rational [Q] it denotes, every operation rounded as IEEE 754 does.
      - JS strings are [string]: sequences of code units below 256.
      - Module-level mutable variables become fields of an explicit state
        record; functions that mutate them take and return the record.
      - What the environment decides (socket life cycle, clock readings,
        random draws, the outcome of signing and publishing) is an explicit
        argument of the function that observes it. *)

From Stdlib Require Import ZArith QArith Qminmax Qpower Qround Qabs Lia Lqa.
From Stdlib Require Import Bool Btauto Ascii String SpecFloat.
From stdpp Require Import gmap strings list fin_maps.

Local Open Scope Z_scope.

(* ===================================================================== *)
(** ** JavaScript numbers: IEEE 754 binary64                              *)
(* ===================================================================== *)

Module Double.

(** A finite double is the rational it denotes; an operation on doubles
    is the exact operation on rationals followed by [round], the rounding
    to the nearest double with ties to the even significand.  Overflow is
    left out: [round] is meant for results below 2^1024, and the one result
    of the program that can be larger is an argument of [Math.min] under a
    bound of 30000. *)

(** The nearest integer, ties to the even one. *)
Definition rne (x : Q) : Z :=
  let f := Qfloor x in
  match (x - inject_Z f ?= 1 # 2)%Q with
  | Lt => f
  | Gt => f + 1
  | Eq => if Z.even f then f else f + 1
  end.

(** The integer part of the binary logarithm of a positive rational: the
    difference of the logarithms of numerator and denominator, or one
    less. *)
Definition ilog2 (x : Q) : Z :=
  let k := Z.log2 (Qnum x) - Z.log2 (Zpos (Qden x)) in
  if Qle_bool (2 ^ k) x then k else k - 1.

(** The exponent of the unit in the last place at [x]: 52 binary places
    below the leading bit, and never below the subnormal spacing 2^-1074. *)
Definition ulp_exp (x : Q) : Z := Z.max (ilog2 (Qabs x) - 52) (-1074).

(** roundTiesToEven. *)
Definition round (x : Q) : Q :=
  if Qeq_bool x 0 then 0%Q
  else let e := ulp_exp x in (inject_Z (rne (x / 2 ^ e)) * 2 ^ e)%Q.

(** [x + y] and [x * y] on doubles. *)
Definition add (x y : Q) : Q := round (x + y).
Definition mul (x y : Q) : Q := round (x * y).

(** The rationals that are finite doubles. *)
Definition is_double (x : Q) : Prop :=
  ∃ m e : Z, Z.abs m < 2 ^ 53 ∧ (-1074 ≤ e ≤ 971) ∧ (x == inject_Z m * 2 ^ e)%Q.

(** Not negative, and a multiple of a power of two, not below 2^-1074, by
    an integer below 2^53. *)
Definition repr (a : Q) : Prop :=
  ∃ m j : Z, (0 ≤ m < 2 ^ 53) ∧ (-1074 ≤ j) ∧ (a == inject_Z m * 2 ^ j)%Q.

(** *** The reference implementation of the Standard Library

    [SpecFloat] computes binary64 operations on significand and exponent;
    these definitions read its results as rationals, to compare them with
    [round]. *)

Definition of_spec_float (f : spec_float) : Q :=
  match f with
  | S754_finite s m e => ((if s then -1 else 1) * inject_Z (Zpos m) * 2 ^ e)%Q
  | _ => 0%Q
  end.

(** The double [m * 2^e], for [m] below 2^53. *)
Definition binary64 (m e : Z) : spec_float := binary_normalize 53 1024 m e false.

(** The literals 0.4 and 1/3, the largest double below 1, one half,
    subnormal numbers, integers, and negative numbers. *)
Definition reference_samples : list spec_float :=
  [ SFdiv 53 1024 (binary64 4 0) (binary64 10 0);
    SFdiv 53 1024 (binary64 1 0) (binary64 3 0);
    binary64 (2 ^ 53 - 1) (-53);
    binary64 1 (-1);
    binary64 1 (-1074);
    binary64 3 (-1074);
    binary64 (2 ^ 52 + 1) (-1074);
    binary64 800 0; binary64 2000 0; binary64 30000 0;
    binary64 (2 ^ 53 - 1) 0;
    binary64 (-3) (-1);
    binary64 (-(2 ^ 53 - 1)) 5;
    binary64 (-7036874417766399) (-600) ].

(** Product and sum of [x] and [y] are the same in both. *)
Definition agrees (x y : spec_float) : bool :=
  Qeq_bool (of_spec_float (SFmul 53 1024 x y)) (mul (of_spec_float x) (of_spec_float y)) &&
  Qeq_bool (of_spec_float (SFadd 53 1024 x y)) (add (of_spec_float x) (of_spec_float y)).

End Double.

(* ===================================================================== *)
(** ** Connection manager ([src/utils/nostr.ts], WebSocket lifecycle)     *)
(* ===================================================================== *)

Module Conn.

(** [WebSocket.readyState]. *)
Inductive ReadyState := CONNECTING | OPEN | CLOSING | CLOSED.

#[global] Instance ReadyState_eq_dec : EqDecision ReadyState.
Proof. solve_decision. Defined.

(** A socket object on the JS heap.  [sock_gen] is the [myGen] captured by
    the four handlers installed in [connectToWebSocket]; [sock_handlers] is
    false once [closeWebSocket] has nulled them. *)
Record Socket := mkSocket {
  sock_url : string;
  sock_gen : Z;
  sock_state : ReadyState;
  sock_handlers : bool
}.

Definition DEFAULT_RELAYS : list string :=
  [ "wss://relay.nostr.band/"; "wss://relay.nostr.watch/";
    "wss://relay.nostr.pet/"; "wss://relay.nostr.h3z.io/";
    "wss://nostr-pub.wellorder.net/"; "wss://nostr.wine/";
    "wss://nostr.bitcoiner.social/" ]%string.

(** The module-level variables of nostr.ts.  [socks] is the heap of every
    socket ever constructed (a socket is named by its index); [ws] is the
    module variable [ws], a reference into it.  [timers] are the pending
    [setTimeout] callbacks of [handleWebSocketFailure] with the [myGen]
    they captured and their delay in milliseconds; [notified] logs the
    calls of [notifyState]. *)
Record State := mkState {
  socks : list Socket;
  ws : option nat;
  currentRelay : nat;
  retryCount : Z;
  isManuallyClosed : bool;
  generation : Z;
  timers : list (Z * Q);
  notified : list bool
}.

Definition initial : State :=
  {| socks := []; ws := None; currentRelay := 0%nat; retryCount := 0;
     isManuallyClosed := false; generation := 0; timers := []; notified := [] |}.

Definition MAX_BACKOFF : Q := 30000%Q.
Definition BASE_RETRY : Q := 1000%Q.

(** The constant [exp] of [getBackoffDelay]: the delay before jitter.
    [Math.pow(2, attempt)] is the double nearest to the power, which is the
    power itself for the attempts the program passes. *)
Definition backoff_exp (attempt : Z) : Q :=
  Qmin MAX_BACKOFF (Double.mul BASE_RETRY (Double.round (2 ^ attempt))).

(** [getBackoffDelay(attempt)]; [u] is the double [Math.random()] returns,
    and [Double.round (4 # 10)] the double the literal [0.4] denotes. *)
Definition getBackoffDelay (attempt : Z) (u : Q) : Q :=
  let exp := backoff_exp attempt in
  let jitter := Double.mul u (Double.mul exp (Double.round (4 # 10))) in
  Double.add exp jitter.

Definition notifyState (connected : bool) (st : State) : State :=
  {| socks := socks st; ws := ws st; currentRelay := currentRelay st;
     retryCount := retryCount st; isManuallyClosed := isManuallyClosed st;
     generation := generation st; timers := timers st;
     notified := notified st ++ [connected] |}.

(** [ws.readyState] of the socket [ws] refers to, if any. *)
Definition ws_state (st : State) : option ReadyState :=
  i ← ws st; s ← socks st !! i; Some (sock_state s).

Definition is_live (r : ReadyState) : bool :=
  match r with OPEN | CONNECTING => true | _ => false end.

(** [ws && (ws.readyState === OPEN || ws.readyState === CONNECTING)] *)
Definition ws_live (st : State) : bool :=
  match ws_state st with Some r => is_live r | None => false end.

(** [ws && ws.readyState === WebSocket.OPEN] *)
Definition ws_open (st : State) : bool :=
  match ws_state st with Some OPEN => true | _ => false end.

(** [connectToWebSocket()].  When [DEFAULT_RELAYS[currentRelay]] is
    undefined the constructor throws after [++generation]; the exception
    leaves [ws] as it was. *)
Definition connectToWebSocket (st : State) : State :=
  let st1 :=
    if isManuallyClosed st
    then {| socks := socks st; ws := ws st; currentRelay := currentRelay st;
            retryCount := retryCount st; isManuallyClosed := false;
            generation := generation st; timers := timers st;
            notified := notified st |}
    else st in
  if ws_live st1 then st1
  else
    let myGen := generation st1 + 1 in
    match DEFAULT_RELAYS !! currentRelay st1 with
    | Some url =>
        {| socks := socks st1 ++ [mkSocket url myGen CONNECTING true];
           ws := Some (length (socks st1));
           currentRelay := currentRelay st1; retryCount := retryCount st1;
           isManuallyClosed := isManuallyClosed st1; generation := myGen;
           timers := timers st1; notified := notified st1 |}
    | None =>
        {| socks := socks st1; ws := ws st1;
           currentRelay := currentRelay st1; retryCount := retryCount st1;
           isManuallyClosed := isManuallyClosed st1; generation := myGen;
           timers := timers st1; notified := notified st1 |}
    end.

(** [handleWebSocketFailure(myGen)]; [u] is the [Math.random()] draw of
    [getBackoffDelay]. *)
Definition handleWebSocketFailure (myGen : Z) (u : Q) (st : State) : State :=
  if isManuallyClosed st then st
  else if negb (myGen =? generation st) then st
  else
    let relay := ((currentRelay st + 1) mod length DEFAULT_RELAYS)%nat in
    let retry := retryCount st + 1 in
    let delay := getBackoffDelay (Z.min retry 6) u in
    {| socks := socks st; ws := ws st; currentRelay := relay;
       retryCount := retry; isManuallyClosed := isManuallyClosed st;
       generation := generation st;
       timers := timers st ++ [(myGen, delay)]; notified := notified st |}.

(** The callback given to [setTimeout] in [handleWebSocketFailure]. *)
Definition retryTimer (myGen : Z) (st : State) : State :=
  if isManuallyClosed st then st
  else if negb (myGen =? generation st) then st
  else connectToWebSocket st.

(** [ws.onopen] of a socket whose handlers captured [myGen]. *)
Definition onopen (myGen : Z) (st : State) : State :=
  if negb (myGen =? generation st) then st
  else
    notifyState true
      {| socks := socks st; ws := ws st; currentRelay := currentRelay st;
         retryCount := 0; isManuallyClosed := isManuallyClosed st;
         generation := generation st; timers := timers st;
         notified := notified st |}.

(** [ws.onerror] and [ws.onclose] have the same body. *)
Definition onfailure (myGen : Z) (u : Q) (st : State) : State :=
  if negb (myGen =? generation st) then st
  else handleWebSocketFailure myGen u (notifyState false st).

(** [WebSocket.close()] on a heap socket: a socket that is not yet closed
    enters CLOSING. *)
Definition sock_close (s : Socket) : Socket :=
  mkSocket (sock_url s) (sock_gen s)
           (match sock_state s with CLOSED => CLOSED | _ => CLOSING end)
           (sock_handlers s).

Definition sock_drop_handlers (s : Socket) : Socket :=
  mkSocket (sock_url s) (sock_gen s) (sock_state s) false.

(** The connection-manager part of [closeWebSocket()] (the clearing of
    [subHandlers] is in [Router.closeWebSocket]). *)
Definition closeWebSocket (st : State) : State :=
  let heap :=
    match ws st with
    | Some i =>
        match socks st !! i with
        | Some s => <[i := sock_close (sock_drop_handlers s)]> (socks st)
        | None => socks st
        end
    | None => socks st
    end in
  notifyState false
    {| socks := heap; ws := None; currentRelay := 0%nat; retryCount := 0;
       isManuallyClosed := true; generation := generation st;
       timers := timers st; notified := notified st |}.

(** *** The environment

    The browser moves a socket forward through its life cycle and fires the
    handlers that are still installed on it. *)

Definition rank (r : ReadyState) : nat :=
  match r with CONNECTING => 0 | OPEN => 1 | CLOSING => 2 | CLOSED => 3 end.

Definition set_sock_state (i : nat) (r : ReadyState) (st : State) : State :=
  match socks st !! i with
  | Some s =>
      {| socks := <[i := mkSocket (sock_url s) (sock_gen s) r (sock_handlers s)]> (socks st);
         ws := ws st; currentRelay := currentRelay st;
         retryCount := retryCount st; isManuallyClosed := isManuallyClosed st;
         generation := generation st; timers := timers st;
         notified := notified st |}
  | None => st
  end.

Definition drop_timer (k : nat) (st : State) : State :=
  {| socks := socks st; ws := ws st; currentRelay := currentRelay st;
     retryCount := retryCount st; isManuallyClosed := isManuallyClosed st;
     generation := generation st; timers := delete k (timers st);
     notified := notified st |}.

Inductive step : State → State → Prop :=
  | step_connect st :
      step st (connectToWebSocket st)
  | step_close st :
      step st (closeWebSocket st)
  | step_advance st i s r :
      socks st !! i = Some s →
      (rank (sock_state s) < rank r)%nat →
      step st (set_sock_state i r st)
  | step_onopen st i s :
      socks st !! i = Some s → sock_handlers s = true →
      step st (onopen (sock_gen s) st)
  | step_onfailure st i s u :
      socks st !! i = Some s → sock_handlers s = true →
      step st (onfailure (sock_gen s) u st)
  | step_timer st k g d :
      timers st !! k = Some (g, d) →
      step st (retryTimer g (drop_timer k st)).

Inductive reachable : State → Prop :=
  | reachable_initial : reachable initial
  | reachable_step st st' : reachable st → step st st' → reachable st'.

(** Number of sockets on the heap that are CONNECTING or OPEN. *)
Definition live_count (st : State) : nat :=
  length (filter (λ s, is_live (sock_state s) = true) (socks st)).

(** Number of sockets on the heap that are not CLOSED: the connections
    that exist, a socket in CLOSING included. *)
Definition existing_count (st : State) : nat :=
  length (filter (λ s, sock_state s ≠ CLOSED) (socks st)).

(** What every reachable state of the connection manager satisfies. *)
Record Inv (st : State) : Prop := mkInv {
  inv_live_is_ws :
    ∀ i s, socks st !! i = Some s → is_live (sock_state s) = true → ws st = Some i;
  inv_relay : (currentRelay st < length DEFAULT_RELAYS)%nat;
  inv_closed : isManuallyClosed st = true → ws st = None;
  inv_retry : 0 ≤ retryCount st
}.

(** What the generation counter says about the heap: no socket carries a
    generation of the future, and a socket whose handlers are installed
    and that carries the current generation is the one [ws] refers to. *)
Record GenInv (st : State) : Prop := mkGenInv {
  gi_le : ∀ i s, socks st !! i = Some s → sock_gen s ≤ generation st;
  gi_current :
    ∀ i s, socks st !! i = Some s → sock_handlers s = true →
           sock_gen s = generation st → ws st = Some i
}.

(** [n] calls of [handleWebSocketFailure(g)] in a row, the [k]-th with the
    random draw [u k]: a socket whose [onerror] and [onclose] both fire
    makes two of them. *)
Fixpoint failures (n : nat) (g : Z) (u : nat → Q) (st : State) : State :=
  match n with
  | O => st
  | S n' => handleWebSocketFailure g (u n') (failures n' g u st)
  end.

(** *** Sample states *)

(** The first socket has gone to CLOSED. *)
Definition first_failure : State :=
  set_sock_state 0 CLOSED (connectToWebSocket initial).

(** A second socket has replaced it. *)
Definition superseded : State := connectToWebSocket first_failure.

(** [closeWebSocket()] right after the first [connectToWebSocket()]. *)
Definition closed_after_connect : State :=
  closeWebSocket (connectToWebSocket initial).

(** [connectToWebSocket()] again, while the socket that [closeWebSocket()]
    closed is still CLOSING. *)
Definition reconnect_while_closing : State :=
  connectToWebSocket closed_after_connect.

End Conn.

(* ===================================================================== *)
(** ** JavaScript string primitives used by the program                   *)
(* ===================================================================== *)

Module Js.

Local Open Scope string_scope.

Definition code (c : ascii) : nat := nat_of_ascii c.

(** White space and line terminators, as [String.prototype.trim] and the
    regular-expression class [\s] see them, among code units below 256. *)
Definition is_ws (c : ascii) : bool :=
  let n := code c in
  ((9 <=? n)%nat && (n <=? 13)%nat) || (n =? 32)%nat || (n =? 160)%nat.

Fixpoint trimStart (s : string) : string :=
  match s with
  | EmptyString => EmptyString
  | String c s' => if is_ws c then trimStart s' else s
  end.

Fixpoint trimEnd (s : string) : string :=
  match s with
  | EmptyString => EmptyString
  | String c s' =>
      match trimEnd s' with
      | EmptyString => if is_ws c then EmptyString else String c EmptyString
      | t => String c t
      end
  end.

(** [s.trim()] *)
Definition trim (s : string) : string := trimEnd (trimStart s).

Definition lower_char (c : ascii) : ascii :=
  let n := code c in
  if ((65 <=? n)%nat && (n <=? 90)%nat)
     || ((192 <=? n)%nat && (n <=? 222)%nat && negb (n =? 215)%nat)
  then ascii_of_nat (n + 32) else c.

(** [s.toLowerCase()] *)
Fixpoint toLowerCase (s : string) : string :=
  match s with
  | EmptyString => EmptyString
  | String c s' => String (lower_char c) (toLowerCase s')
  end.

(** [hay.startsWith(needle)] *)
Fixpoint startsWith (hay needle : string) : bool :=
  match needle, hay with
  | EmptyString, _ => true
  | String _ _, EmptyString => false
  | String a n', String b h' => if Ascii.eqb a b then startsWith h' n' else false
  end.

(** [hay.includes(needle)] *)
Fixpoint includes (hay needle : string) : bool :=
  startsWith hay needle ||
  match hay with
  | EmptyString => false
  | String _ h' => includes h' needle
  end.

(** [s.slice(0, n)] for [n >= 0] *)
Fixpoint slice0 (n : nat) (s : string) : string :=
  match n, s with
  | O, _ => EmptyString
  | _, EmptyString => EmptyString
  | S n', String c s' => String c (slice0 n' s')
  end.

(** [s.slice(n)] for [n >= 0] *)
Fixpoint sliceFrom (n : nat) (s : string) : string :=
  match n, s with
  | O, _ => s
  | S n', String _ rest => sliceFrom n' rest
  | S _, EmptyString => EmptyString
  end.

(** [parts.join(sep)] *)
Fixpoint join (sep : string) (parts : list string) : string :=
  match parts with
  | [] => EmptyString
  | [x] => x
  | x :: rest => x ++ sep ++ join sep rest
  end.

(** Truthiness of a possibly-undefined string: [undefined] and [""] are falsy. *)
Definition truthy (o : option string) : bool :=
  match o with Some (String _ _) => true | _ => false end.

(** [a || b] on strings *)
Definition or_else (a : option string) (b : string) : string :=
  match a with Some (String c r) => String c r | _ => b end.

(** [Math.floor(ms / 1000)], the body of [nowSec()] given [Date.now()]. *)
Definition nowSec (ms : Z) : Z := ms / 1000.

End Js.

(* ===================================================================== *)
(** ** Outbox engine ([src/hooks/useAgoraData.ts])                        *)
(* ===================================================================== *)

Module Outbox.

Local Open Scope string_scope.
Local Open Scope Z_scope.

Inductive OutboxStatus := queued | publishing | published | failed.

#[global] Instance OutboxStatus_eq_dec : EqDecision OutboxStatus.
Proof. solve_decision. Defined.

Record EventPayload := mkEventPayload {
  name : string;
  startTimestamp : Z;
  location : string;
  description : option string;
  image_url : option string;
  landingPageUrl : option string
}.

Record CommentPayload := mkCommentPayload {
  eventId : string;
  eventPubkey : option string;
  content : string
}.

(** The [type] tag of an item together with the payload it selects. *)
Inductive Payload :=
  | agora_event (p : EventPayload)
  | comment (p : CommentPayload).

Record OutboxItem := mkItem {
  id : string;
  created_at : Z;
  payload : Payload;
  status : OutboxStatus;
  attempts : Z;
  nextAttemptAt : Z;
  lastError : option string;
  publishedEventId : option string
}.

Definition is_agora_event (it : OutboxItem) : bool :=
  match payload it with agora_event _ => true | comment _ => false end.

(** [computeBackoffSeconds(attempts)] *)
Definition computeBackoffSeconds (attempts : Z) : Z :=
  let base := 2 ^ (Z.min 10 (Z.max 0 attempts)) * 2 in
  Z.min (5 * 60) base.

(** *** Optimistic projection *)

Inductive LocalFlags :=
  | flag_queued | flag_publishing | flag_published | flag_error (msg : string).

(** The [flags] constant of [outboxEventToOptimistic]. *)
Definition optimistic_flags (item : OutboxItem) : LocalFlags :=
  match status item with
  | queued => flag_queued
  | publishing => flag_publishing
  | published => flag_published
  | failed => flag_error (Js.or_else (lastError item) "Failed")
  end.

(** *** Enqueue *)

(** The fields [handleCreateEvent] reads from its untyped argument. *)
Record Draft := mkDraft {
  d_name : option string;
  d_title : option string;
  d_location : option string;
  d_startTimestamp : option Z;
  d_start : option Z;
  d_description : option string;
  d_image_url : option string;
  d_imageUrl : option string;
  d_landingPageUrl : option string;
  d_url : option string
}.

(** [String(a ?? b ?? "").trim()] *)
Definition coalesce_trim (a b : option string) : string :=
  Js.trim (match a with Some x => x | None => default "" b end).

Definition nonempty_or (s d : string) : string :=
  match s with EmptyString => d | _ => s end.

(** The outbox as the hook holds it: the React state [outbox] and the
    copy under [localStorage["agora_outbox_v1"]] written by [saveOutbox]. *)
Record Store := mkStore {
  outbox : list OutboxItem;
  stored : list OutboxItem
}.

(** The item built by [handleCreateEvent(data)]; [localId] is the result
    of [makeLocalId("agora")], and [now k] is what [Date.now()] returns to the
    [k]-th call of [nowSec()] the handler makes: one call for a start time
    that is missing or 0, then one for [created_at] and one for
    [nextAttemptAt]. *)
Definition new_event_item (localId : string) (now : nat → Z) (data : Draft) : OutboxItem :=
  let start := match d_startTimestamp data with Some x => x | None => default 0 (d_start data) end in
  let k := if start =? 0 then 1%nat else 0%nat in
  {| id := localId;
     created_at := Js.nowSec (now k);
     payload := agora_event
       {| name := nonempty_or (coalesce_trim (d_name data) (d_title data)) "Untitled Gathering";
          location := nonempty_or (coalesce_trim (d_location data) None) "Somewhere";
          startTimestamp := if start =? 0 then Js.nowSec (now 0%nat) else start;
          description := Some (coalesce_trim (d_description data) None);
          image_url := Some (coalesce_trim (d_image_url data) (d_imageUrl data));
          landingPageUrl := Some (coalesce_trim (d_landingPageUrl data) (d_url data)) |};
     status := queued;
     attempts := 0;
     nextAttemptAt := Js.nowSec (now (S k));
     lastError := None;
     publishedEventId := None |}.

(** The [setOutbox] update of [handleCreateEvent]. *)
Definition handleCreateEvent (localId : string) (now : nat → Z) (data : Draft) (st : Store) : Store :=
  let next := new_event_item localId now data :: outbox st in
  {| outbox := next; stored := next |}.

(** The item built by [handlePostComment(eventId, content)]; [pubkey] is
    the author found for [eventId] in the feed, if any, and [now 0] and
    [now 1] are what [Date.now()] returns to the two calls of [nowSec()]. *)
Definition new_comment_item (localId : string) (now : nat → Z)
    (evId : string) (pubkey : option string) (text : string) : OutboxItem :=
  {| id := localId;
     created_at := Js.nowSec (now 0%nat);
     payload := comment {| eventId := evId; content := text; eventPubkey := pubkey |};
     status := queued;
     attempts := 0;
     nextAttemptAt := Js.nowSec (now 1%nat);
     lastError := None;
     publishedEventId := None |}.

(** The [setOutbox] update of [handlePostComment]; an empty comment
    returns before touching the outbox. *)
Definition handlePostComment (localId : string) (now : nat → Z)
    (evId : string) (pubkey : option string) (content : string) (st : Store) : Store :=
  let text := Js.trim content in
  match text with
  | EmptyString => st
  | _ =>
      let next := new_comment_item localId now evId pubkey text :: outbox st in
      {| outbox := next; stored := next |}
  end.

(** *** One publish attempt *)

(** What signing and publishing did inside the [try] block: they returned
    a signed event whose [id] is [signed_id], or they threw and
    [String(e?.message || e)] is [msg]. *)
Inductive Outcome :=
  | Returned (signed_id : option string)
  | Threw (msg : string).

(** The environment of one call of [attemptPublishOne]: the outcome, the
    [Date.now()] read for the toast throttle, and the [Date.now()] read by
    the [nowSec()] of the returned item. *)
Record AttemptEnv := mkAttemptEnv {
  outcome : Outcome;
  clock_toast : Z;
  clock_ret : Z
}.

(** [lastNoKeyToastAt] and, as a log, the [now] of every call of
    [showToast("Can't post yet. ...")], oldest first. *)
Record Throttle := mkThrottle {
  lastNoKeyToastAt : Z;
  noKeyToasts : list Z
}.

Definition isNoKey (lower : string) : bool :=
  Js.includes lower "no private key" ||
  Js.includes lower "private key not found" ||
  Js.includes lower "nos2x".

Definition isConnection (lower : string) : bool :=
  Js.includes lower "websocket" ||
  Js.includes lower "connect" ||
  Js.includes lower "relay" ||
  Js.includes lower "network" ||
  Js.includes lower "timeout".

Definition with_result (item : OutboxItem) (st : OutboxStatus) (n : Z)
    (err : option string) (pid : option string) (next : Z) : OutboxItem :=
  {| id := id item; created_at := created_at item; payload := payload item;
     status := st; attempts := n; nextAttemptAt := next;
     lastError := err; publishedEventId := pid |}.

(** The [catch] block of [attemptPublishOne]. *)
Definition classify_failure (env : AttemptEnv) (th : Throttle)
    (item : OutboxItem) (n : Z) (msg : string) : OutboxItem * Throttle :=
  let lower := Js.toLowerCase msg in
  let backoff := computeBackoffSeconds n in
  if isNoKey lower then
    let now := clock_toast env in
    let th' :=
      if 10000 <? now - lastNoKeyToastAt th
      then {| lastNoKeyToastAt := now; noKeyToasts := noKeyToasts th ++ [now] |}
      else th in
    (with_result item queued n (Some msg) (publishedEventId item)
                 (Js.nowSec (clock_ret env) + 5 * 60), th')
  else if isConnection lower then
    (with_result item queued n (Some msg) (publishedEventId item)
                 (Js.nowSec (clock_ret env) + backoff), th)
  else
    (with_result item failed n (Some msg) (publishedEventId item)
                 (Js.nowSec (clock_ret env) + backoff), th).

(** [attemptPublishOne(item)] *)
Definition attemptPublishOne (env : AttemptEnv) (th : Throttle)
    (item : OutboxItem) : OutboxItem * Throttle :=
  let n := attempts item + 1 in
  match outcome env with
  | Returned sid =>
      if Js.truthy sid then
        (with_result item published n (lastError item) sid
                     (Js.nowSec (clock_ret env)), th)
      else
        classify_failure env th item n
          (if is_agora_event item
           then "Publish did not return an event id"
           else "Comment publish did not return an id")
  | Threw msg => classify_failure env th item n msg
  end.

(** *** The worker pass *)

(** [[...outbox].sort((a, b) => a.created_at - b.created_at)]: a stable
    sort, oldest first. *)
Fixpoint insert_sorted (x : OutboxItem) (l : list OutboxItem) : list OutboxItem :=
  match l with
  | [] => [x]
  | y :: l' =>
      if created_at x <=? created_at y then x :: y :: l' else y :: insert_sorted x l'
  end.

Definition sort_by_created (l : list OutboxItem) : list OutboxItem :=
  foldr insert_sorted [] l.

(** What one iteration of the [for] loop observes. *)
Record IterEnv := mkIterEnv {
  stop : bool;            (* cancelled || !alive.current *)
  clock_due : Z;          (* Date.now() of the due check *)
  attempt_env : AttemptEnv
}.

(** The loop variables of [run], with [attempted], the items handed to
    [attemptPublishOne], kept as a log. *)
Record Loop := mkLoop {
  updatedById : gmap string OutboxItem;
  anyChange : bool;
  throttle : Throttle;
  attempted : list OutboxItem
}.

Definition changed (it updated : OutboxItem) : bool :=
  negb (bool_decide (status updated = status it)) ||
  negb (attempts updated =? attempts it) ||
  negb (bool_decide (publishedEventId updated = publishedEventId it)) ||
  negb (nextAttemptAt updated =? nextAttemptAt it) ||
  negb (bool_decide (lastError updated = lastError it)).

(** The [for (const it of items)] loop; [envs k] is what the iteration on
    the [k]-th sorted item observes.  The boolean is false when the loop
    was left by the early [return] of a cancelled effect. *)
Fixpoint run_loop (envs : nat → IterEnv) (k : nat) (items : list OutboxItem)
    (acc : Loop) : Loop * bool :=
  match items with
  | [] => (acc, true)
  | it :: rest =>
      let e := envs k in
      if stop e then (acc, false)
      else if negb (bool_decide (status it = queued)) then run_loop envs (S k) rest acc
      else if Js.nowSec (clock_due e) <? nextAttemptAt it then run_loop envs (S k) rest acc
      else
        let r := attemptPublishOne (attempt_env e) (throttle acc) it in
        run_loop envs (S k) rest
          {| updatedById := <[id it := r.1]> (updatedById acc);
             anyChange := anyChange acc || changed it r.1;
             throttle := r.2;
             attempted := attempted acc ++ [it] |}
  end.

(** The functional update given to [setOutbox] at the end of [run]. *)
Definition commit (upd : gmap string OutboxItem) (prev : list OutboxItem) : list OutboxItem :=
  let next := (λ p, default p (upd !! id p)) <$> prev in
  filter (λ x, status x ≠ published) next.

Definition loop_start (th : Throttle) : Loop :=
  {| updatedById := ∅; anyChange := false; throttle := th; attempted := [] |}.

(** What the worker effect leaves behind: the store, the final loop
    variables, and whether the final [setOutbox] update ran. *)
Record Pass := mkPass {
  store_after : Store;
  loop_after : Loop;
  committed : bool
}.

(** The outbox-worker effect.  [running] is [outboxWorkerRunning.current],
    [can] the value of [canAttemptPublish()], [now] the [Date.now()] of the
    due test.  The loop iterates [snapshot], the [outbox] the effect closed
    over; the update is applied to [prev], the store at the time React runs
    it. *)
Definition worker_pass (running can : bool) (now : Z) (envs : nat → IterEnv)
    (th : Throttle) (snapshot : list OutboxItem) (prev : Store) : Pass :=
  let due := existsb (λ it, bool_decide (status it = queued)
                            && (nextAttemptAt it <=? Js.nowSec now)) snapshot in
  if running || bool_decide (snapshot = []) || negb can || negb due
  then {| store_after := prev; loop_after := loop_start th; committed := false |}
  else
    let r := run_loop envs 0 (sort_by_created snapshot) (loop_start th) in
    if r.2 && anyChange r.1 then
      let pruned := commit (updatedById r.1) (outbox prev) in
      {| store_after := {| outbox := pruned; stored := pruned |};
         loop_after := r.1; committed := true |}
    else {| store_after := prev; loop_after := r.1; committed := false |}.

(** *** Read-cycle reconciliation *)

(** The [setOutbox] update at the end of a read cycle; [remoteIds] are the
    ids of the batch the cycle parsed. *)
Definition confirmed_by (remoteIds : gset string) (it : OutboxItem) : bool :=
  Js.truthy (publishedEventId it)
  && bool_decide (default "" (publishedEventId it) ∈ remoteIds).

Definition read_prune (remoteIds : gset string) (st : Store) : Store :=
  let remaining :=
    filter (λ it, (if is_agora_event it then negb (confirmed_by remoteIds it) else true) = true)
           (outbox st) in
  {| outbox := remaining;
     stored := if bool_decide (length remaining = length (outbox st))
               then stored st else remaining |}.

(** *** The life of the outbox *)

(** The throttle states the worker can produce: [lastNoKeyToastAt] starts
    at 0 and only [attemptPublishOne] writes it. *)
Inductive throttle_reachable : Throttle → Prop :=
  | throttle_initial :
      throttle_reachable {| lastNoKeyToastAt := 0; noKeyToasts := [] |}
  | throttle_attempt th env item :
      throttle_reachable th →
      throttle_reachable (attemptPublishOne env th item).2.

(** The stores the hook can hold, starting from an empty outbox.  The
    worker effect iterates the [outbox] of the render that scheduled it
    (the store [st0]) and applies its update to the current store. *)
Inductive reachable : Store → Prop :=
  | reachable_empty :
      reachable {| outbox := []; stored := [] |}
  | reachable_create st localId now data :
      reachable st →
      reachable (handleCreateEvent localId now data st)
  | reachable_comment st localId now evId pk text :
      reachable st →
      reachable (handlePostComment localId now evId pk text st)
  | reachable_worker st0 st running can now envs th :
      reachable st0 → reachable st →
      reachable (store_after (worker_pass running can now envs th (outbox st0) st))
  | reachable_read st remoteIds :
      reachable st →
      reachable (read_prune remoteIds st)
  | reachable_reload st :
      (* a new mount: [useState(() => loadOutbox())] *)
      reachable st →
      reachable {| outbox := stored st; stored := stored st |}.

(** *** Invariants

    Toasts are [spaced] when any two of them are more than 10 s apart. *)

Definition spaced (l : list Z) : Prop :=
  ∀ i j a b, (i < j)%nat → l !! i = Some a → l !! j = Some b → 10000 < b - a.

Record ThrottleInv (th : Throttle) : Prop := mkThrottleInv {
  ti_spaced : spaced (noKeyToasts th);
  ti_last : ∀ i a, noKeyToasts th !! i = Some a → a ≤ lastNoKeyToastAt th;
  ti_nonneg : 0 ≤ lastNoKeyToastAt th
}.

(** What the loop variables of a worker pass over the items [all] satisfy. *)
Record LoopInv (all : list OutboxItem) (l : Loop) : Prop := mkLoopInv {
  li_attempted : ∀ x, x ∈ attempted l → status x = queued ∧ x ∈ all;
  li_updated : ∀ k u, updatedById l !! k = Some u →
    id u = k ∧
    (status u = published ∨ status u = queued ∨ status u = failed) ∧
    (∃ x, x ∈ attempted l ∧ id x = k) ∧
    anyChange l = true
}.

(** An item the worker may still have to deal with. *)
Definition pending (x : OutboxItem) : Prop := status x = queued ∨ status x = failed.

Definition StoreInv (st : Store) : Prop :=
  ∀ x, x ∈ outbox st ∨ x ∈ stored st → pending x.

(** *** Sample data *)

Definition potluck : OutboxItem :=
  {| id := "agora_1"; created_at := 1700000000;
     payload := agora_event
       {| name := "Potluck"; startTimestamp := 1700000000; location := "Park";
          description := Some ""; image_url := Some ""; landingPageUrl := Some "" |};
     status := queued; attempts := 0; nextAttemptAt := 1700000000;
     lastError := None; publishedEventId := None |}.

Definition throttle0 : Throttle := {| lastNoKeyToastAt := 0; noKeyToasts := [] |}.

(** An attempt at 1700000005 s whose signing and publishing do [o]. *)
Definition attempt_at_5 (o : Outcome) : AttemptEnv :=
  {| outcome := o; clock_toast := 1700000005000; clock_ret := 1700000005000 |}.

Definition iter_at_5 (o : Outcome) : IterEnv :=
  {| stop := false; clock_due := 1700000005000; attempt_env := attempt_at_5 o |}.

(** *** Order, durability and the throttled logger *)

(** A list of items in the order the worker wants them: oldest first. *)
Definition oldest_first (l : list OutboxItem) : Prop :=
  ∀ i j a b, (i < j)%nat → l !! i = Some a → l !! j = Some b →
             created_at a ≤ created_at b.

(** No item of the store carries a [publishedEventId]. *)
Definition unpublished (st : Store) : Prop :=
  ∀ x, x ∈ outbox st ∨ x ∈ stored st → publishedEventId x = None.

(** The closure state of [makeThrottledLogger(intervalMs)]: [last], and
    as a log the [now] of every call that reached [console.warn]. *)
Record Logger := mkLogger {
  log_last : Z;
  warned : list Z
}.

Definition logger_new : Logger := {| log_last := 0; warned := [] |}.

(** One call of the function [makeThrottledLogger(intervalMs)] returns;
    [now] is its [Date.now()]. *)
Definition throttled_log (intervalMs now : Z) (lg : Logger) : Logger :=
  if intervalMs <? now - log_last lg
  then {| log_last := now; warned := warned lg ++ [now] |}
  else lg.

(** [warnParse] called at the clock readings [clocks], in that order. *)
Definition warnParse (clocks : list Z) : Logger :=
  foldl (λ lg now, throttled_log 1500 now lg) logger_new clocks.

(** A draft with nothing filled in. *)
Definition empty_draft : Draft :=
  {| d_name := None; d_title := None; d_location := None;
     d_startTimestamp := None; d_start := None; d_description := None;
     d_image_url := None; d_imageUrl := None; d_landingPageUrl := None;
     d_url := None |}.

(** The clock during an enqueue: the readings of [Date.now()] are 600 ms
    apart, so that the second and the third fall in different seconds. *)
Definition enqueue_clock (k : nat) : Z := 1700000000000 + 600 * Z.of_nat k.

(** A pass in which nothing stops the loop and every due check reads the
    clock at 1700000005 s. *)
Definition steady (o : Outcome) (k : nat) : IterEnv := iter_at_5 o.

End Outbox.

(* ===================================================================== *)
(** ** Subscription router ([src/utils/nostr.ts], pool compatibility)     *)
(* ===================================================================== *)

Module Router.

Local Open Scope string_scope.
Local Open Scope Z_scope.
Local Open Scope list_scope.

(** An element of a wire frame: a JSON string, or any other JSON value
    kept as its text. *)
Inductive Elem := Str (s : string) | Raw (json : string).

(** A wire frame, a JSON array: [["EVENT", subId, event]],
    [["EOSE", subId]], [["REQ", subId, ...filters]], [["CLOSE", subId]]. *)
Definition Msg := list Elem.

#[global] Instance Elem_eq_dec : EqDecision Elem.
Proof. solve_decision. Defined.

(** What a call of the iterator's [next()] resolves to. *)
Inductive IterResult := Value (m : Msg) | Done.

(** The closure state of [createAsyncQueue()]: the buffer [q], whether a
    [next()] promise is pending ([resolveNext !== null]), the [done] flag,
    and, as a log, the results the consumer's [next()] calls have resolved
    to, oldest first. *)
Record AQ := mkAQ {
  q : list Msg;
  waiting : bool;
  done : bool;
  results : list IterResult
}.

Definition aq_new : AQ := mkAQ [] false false [].

(** [push(item)] *)
Definition aq_push (item : Msg) (a : AQ) : AQ :=
  if done a then a
  else if waiting a then mkAQ (q a) false (done a) (results a ++ [Value item])
  else mkAQ (q a ++ [item]) (waiting a) (done a) (results a).

(** [end()] *)
Definition aq_end (a : AQ) : AQ :=
  if done a then a
  else if waiting a then mkAQ (q a) false true (results a ++ [Done])
  else mkAQ (q a) (waiting a) true (results a).

(** [iterator.next()] *)
Definition aq_next (a : AQ) : AQ :=
  match q a with
  | v :: rest => mkAQ rest (waiting a) (done a) (results a ++ [Value v])
  | [] =>
      if done a then mkAQ [] (waiting a) (done a) (results a ++ [Done])
      else mkAQ [] true (done a) (results a)
  end.

(** [iterator.return()] *)
Definition aq_return (a : AQ) : AQ :=
  let a' := aq_end a in
  mkAQ (q a') (waiting a') (done a') (results a' ++ [Done]).

(** A job on the microtask queue: the callback queued by a handler on
    EOSE ([await closeSub(subId); end()]), or its continuation after the
    [await] ([end()]). *)
Inductive Task := CloseThenEnd (subId : string) | EndOnly (subId : string).

(** The router's state.  Every handler in [subHandlers] is the closure
    made by one [req] call and is named by that call's subscription id,
    which is also the key of its queue in [queues].  [sent] logs the frames
    given to [ws.send], oldest first. *)
Record State := mkState {
  conn : Conn.State;
  subHandlers : gmap string (list string);
  queues : gmap string AQ;
  sent : list Msg;
  microtasks : list Task
}.

Definition initial : State :=
  {| conn := Conn.initial; subHandlers := ∅; queues := ∅; sent := []; microtasks := [] |}.

Definition on_queue (subId : string) (f : AQ → AQ) (st : State) : State :=
  {| conn := conn st; subHandlers := subHandlers st;
     queues := alter f subId (queues st);
     sent := sent st; microtasks := microtasks st |}.

Definition queue_task (t : Task) (st : State) : State :=
  {| conn := conn st; subHandlers := subHandlers st; queues := queues st;
     sent := sent st; microtasks := microtasks st ++ [t] |}.

Definition with_conn (c : Conn.State) (st : State) : State :=
  {| conn := c; subHandlers := subHandlers st; queues := queues st;
     sent := sent st; microtasks := microtasks st |}.

(** [sendRaw(payload)] *)
Definition sendRaw (payload : Msg) (st : State) : State * bool :=
  if Conn.ws_open (conn st)
  then ({| conn := conn st; subHandlers := subHandlers st; queues := queues st;
           sent := sent st ++ [payload]; microtasks := microtasks st |}, true)
  else (st, false).

(** [closeSub(subId)] *)
Definition closeSub (subId : string) (st : State) : State :=
  let st1 :=
    if Conn.ws_open (conn st) then (sendRaw [Str "CLOSE"; Str subId] st).1 else st in
  {| conn := conn st1; subHandlers := delete subId (subHandlers st1);
     queues := queues st1; sent := sent st1; microtasks := microtasks st1 |}.

(** The [handler] closure of the [req] call whose id is [owner]. *)
Definition handler (owner : string) (msg : Msg) (st : State) : State :=
  let st1 := on_queue owner (aq_push msg) st in
  match msg with
  | Str "EOSE" :: _ => queue_task (CloseThenEnd owner) st1
  | _ => st1
  end.

(** [handleMessage(evt)]; [data] is [safeParse(evt.data)] when that is an
    array, [None] when it is null or not an array. *)
Definition handleMessage (data : option Msg) (st : State) : State :=
  match data with
  | None => st
  | Some msg =>
      match msg !! 1%nat with
      | Some (Str (String c r)) =>
          match subHandlers st !! String c r with
          | Some handlers => foldl (λ acc h, handler h msg acc) st handlers
          | None => st
          end
      | _ => st
      end
  end.

(** [ws.onmessage] of a socket whose handlers captured [myGen]. *)
Definition onmessage (myGen : Z) (data : option Msg) (st : State) : State :=
  if negb (myGen =? Conn.generation (conn st)) then st else handleMessage data st.

(** [waitForOpen(timeoutMs)].  [start] is the first [Date.now()]; [clock k]
    is the [Date.now()] of the [k]-th loop test and [env k] is what the
    browser does to the connection during the [k]-th 150 ms sleep.  The
    loop is unrolled at most [fuel] times. *)
Fixpoint waitForOpen_loop (fuel : nat) (timeoutMs start : Z) (clock : nat → Z)
    (env : nat → Conn.State → Conn.State) (k : nat) (c : Conn.State)
    : option (bool * Conn.State) :=
  match fuel with
  | O => None
  | S fuel' =>
      if clock k - start <? timeoutMs then
        if Conn.ws_open c then Some (true, c)
        else waitForOpen_loop fuel' timeoutMs start clock env (S k)
               (env k (Conn.connectToWebSocket c))
      else Some (Conn.ws_open c, c)
  end.

Definition waitForOpen (clock : nat → Z) (env : nat → Conn.State → Conn.State)
    (c : Conn.State) : option (bool * Conn.State) :=
  waitForOpen_loop 81 12000 (clock 0%nat) clock env 0 c.

(** The synchronous part of [req(filters)]: a queue is made and its
    handler registered under [subId], the result of [makeSubId("req")]. *)
Definition req_start (subId : string) (st : State) : State :=
  {| conn := conn st;
     subHandlers := <[subId := default [] (subHandlers st !! subId) ++ [subId]]> (subHandlers st);
     queues := <[subId := aq_new]> (queues st);
     sent := sent st; microtasks := microtasks st |}.

(** The fire-and-forget async block of [req(filters)]. *)
Definition req_body (clock : nat → Z) (env : nat → Conn.State → Conn.State)
    (subId : string) (filters : list Elem) (st : State) : State :=
  match waitForOpen clock env (conn st) with
  | None => st
  | Some (ok, c) =>
      let st1 := with_conn c st in
      if ok then (sendRaw (Str "REQ" :: Str subId :: filters) st1).1
      else
        let st2 := on_queue subId (aq_push [Str "EOSE"; Str subId]) st1 in
        queue_task (EndOnly subId) (closeSub subId st2)
  end.

(** One job of the microtask queue. *)
Definition tick (st : State) : State :=
  match microtasks st with
  | [] => st
  | CloseThenEnd s :: rest =>
      queue_task (EndOnly s)
        (closeSub s {| conn := conn st; subHandlers := subHandlers st;
                       queues := queues st; sent := sent st; microtasks := rest |})
  | EndOnly s :: rest =>
      on_queue s aq_end
        {| conn := conn st; subHandlers := subHandlers st;
           queues := queues st; sent := sent st; microtasks := rest |}
  end.

Definition finished (a : AQ) : bool :=
  match last (results a) with Some Done => true | _ => false end.

(** One turn of a [for await] consumer on the iterator of [subId]: it
    calls [next()] unless its previous call is still pending or has
    answered [done]. *)
Definition consumer_next (subId : string) (st : State) : State :=
  on_queue subId (λ a, if waiting a || finished a then a else aq_next a) st.

(** [wrapped.return()], what a consumer that leaves its loop early calls. *)
Definition consumer_return (subId : string) (st : State) : State :=
  on_queue subId aq_return (closeSub subId st).

(** [closeWebSocket()] *)
Definition closeWebSocket (st : State) : State :=
  {| conn := Conn.closeWebSocket (conn st); subHandlers := ∅;
     queues := queues st; sent := sent st; microtasks := microtasks st |}.

(** [pool.event(signedEvent)]: the new state and the error thrown, if any. *)
Definition pool_event (clock : nat → Z) (env : nat → Conn.State → Conn.State)
    (signedEvent : Elem) (st : State) : State * option string :=
  match waitForOpen clock env (conn st) with
  | None => (st, None)
  | Some (ok, c) =>
      let st1 := with_conn c st in
      if ok then
        let r := sendRaw [Str "EVENT"; signedEvent] st1 in
        (r.1, if r.2 then None else Some "Failed to send event")
      else (st1, Some "No relay connection available")
  end.

(** Interleavings of the consumer with the microtask queue. *)
Inductive Turn := C | T.

#[global] Instance Turn_eq_dec : EqDecision Turn.
Proof. solve_decision. Defined.

Definition turn (subId : string) (t : Turn) (st : State) : State :=
  match t with C => consumer_next subId st | T => tick st end.

Definition run (subId : string) (sched : list Turn) (st : State) : State :=
  foldl (λ acc t, turn subId t acc) st sched.

Definition count (t : Turn) (sched : list Turn) : nat :=
  length (filter (λ x, x = t) sched).

(** The results the consumer of [subId] has received so far. *)
Definition received (subId : string) (st : State) : list IterResult :=
  match queues st !! subId with Some a => results a | None => [] end.

Definition eose (subId : string) : Msg := [Str "EOSE"; Str subId].

(** *** Sample environment: a clock ticking every 150 ms, and a relay
    that accepts the first socket during the first sleep, or never. *)

Definition clock150 (k : nat) : Z := 150 * Z.of_nat k.

Definition env_accept (k : nat) (c : Conn.State) : Conn.State :=
  Conn.set_sock_state 0 Conn.OPEN c.

Definition env_silent (k : nat) (c : Conn.State) : Conn.State := c.

Definition feed_filters : list Elem := [Raw "{kinds:[31923],limit:200}"].

(** A read on a fresh router: [req], the wait, [mid] turns, then the frame
    [["EOSE", "req_x"]] from the relay, then [post] turns. *)
Definition eose_first (env : nat → Conn.State → Conn.State) (mid post : list Turn) : State :=
  let st2 := req_body clock150 env "req_x" feed_filters (req_start "req_x" initial) in
  run "req_x" post
    (onmessage (Conn.generation (conn st2)) (Some (eose "req_x")) (run "req_x" mid st2)).

(** *** The states one subscription goes through

    [sub_state] is a router state seen from subscription [subId];
    [grid c t] is that state after the end marker [e] has reached the
    handler, the consumer has made [c] turns (capped at 2) and the microtask
    queue [t] (capped at 2). *)

Definition sub_state (subId : string) (c : Conn.State) (H : gmap string (list string))
    (Q0 : gmap string AQ) (a : AQ) (s : list Msg) (m : list Task) : State :=
  {| conn := c; subHandlers := H; queues := <[subId := a]> Q0; sent := s; microtasks := m |}.

Definition pre_aq (n : nat) : AQ :=
  match n with O => aq_new | _ => mkAQ [] true false [] end.

Definition grid_aq (e : Msg) (c t : nat) : AQ :=
  match c, t with
  | 0%nat, (0%nat | 1%nat) => mkAQ [e] false false []
  | 0%nat, _ => mkAQ [e] false true []
  | 1%nat, (0%nat | 1%nat) => mkAQ [] false false [Value e]
  | 1%nat, _ => mkAQ [] false true [Value e]
  | _, (0%nat | 1%nat) => mkAQ [] true false [Value e]
  | _, _ => mkAQ [] false true [Value e; Done]
  end.

Definition grid_tasks (subId : string) (t : nat) : list Task :=
  match t with 0%nat => [CloseThenEnd subId] | 1%nat => [EndOnly subId] | _ => [] end.

Definition grid_sent (subId : string) (c : Conn.State) (s0 : list Msg) (t : nat) : list Msg :=
  match t with
  | 0%nat => s0
  | _ => if Conn.ws_open c then s0 ++ [[Str "CLOSE"; Str subId]] else s0
  end.

Definition grid_handlers (subId : string) (H : gmap string (list string)) (t : nat)
    : gmap string (list string) :=
  match t with 0%nat => H | _ => delete subId H end.

Definition grid (subId : string) (cn : Conn.State) (H : gmap string (list string))
    (Q0 : gmap string AQ) (s0 : list Msg) (e : Msg) (c t : nat) : State :=
  sub_state subId cn (grid_handlers subId H t) Q0 (grid_aq e c t)
            (grid_sent subId cn s0 t) (grid_tasks subId t).

(** *** The queue under any use

    The closure returned by [createAsyncQueue()] is driven by calls of
    [push], [end], [next] and [return] in some order. *)

Inductive AQOp := OpPush (m : Msg) | OpEnd | OpNext | OpReturn.

Definition aq_apply (a : AQ) (o : AQOp) : AQ :=
  match o with
  | OpPush m => aq_push m a
  | OpEnd => aq_end a
  | OpNext => aq_next a
  | OpReturn => aq_return a
  end.

Definition aq_run (ops : list AQOp) (a : AQ) : AQ := foldl aq_apply a ops.

(** The items among the results of [next()], in the order received. *)
Definition values (rs : list IterResult) : list Msg :=
  omap (λ r, match r with Value m => Some m | Done => None end) rs.

(** The items pushed before the queue was ended. *)
Fixpoint accepted (ops : list AQOp) : list Msg :=
  match ops with
  | [] => []
  | OpPush m :: rest => m :: accepted rest
  | OpNext :: rest => accepted rest
  | (OpEnd | OpReturn) :: _ => []
  end.

(** *** The life of the router

    The states the module can be in.  [makeSubId] draws a random suffix
    and a time stamp; the id it returns is taken to be one not in use. *)
Inductive reachable : State → Prop :=
  | reachable_initial :
      reachable initial
  | reachable_req st subId :
      reachable st → subHandlers st !! subId = None →
      reachable (req_start subId st)
  | reachable_req_body st clock env subId filters :
      reachable st → reachable (req_body clock env subId filters st)
  | reachable_message st g data :
      reachable st → reachable (onmessage g data st)
  | reachable_tick st :
      reachable st → reachable (tick st)
  | reachable_next st subId :
      reachable st → reachable (consumer_next subId st)
  | reachable_return st subId :
      reachable st → reachable (consumer_return subId st)
  | reachable_close st :
      reachable st → reachable (closeWebSocket st)
  | reachable_event st clock env ev :
      reachable st → reachable (pool_event clock env ev st).1
  | reachable_conn st c :
      reachable st → reachable (with_conn c st).

(** Every registered handler set holds the one closure made for its id. *)
Definition own_handlers (st : State) : Prop :=
  ∀ k hs, subHandlers st !! k = Some hs → hs = [k].

(** *** Sample states: two subscriptions on a fresh router *)

Definition two_subs : State := req_start "req_b" (req_start "req_a" initial).

Definition event_for (subId : string) : Msg := [Str "EVENT"; Str subId; Raw "{}"].

End Router.

(* ===================================================================== *)
(** ** Tolerant event parsing ([parseAgoraEvent], useAgoraData.ts)        *)
(* ===================================================================== *)

Module Parse.

Local Open Scope string_scope.

Local Unset Elimination Schemes.

(** JSON values as [JSON.parse] returns them.  An object is its list of
    properties, each key once. *)
Inductive Json :=
  | JNull
  | JBool (b : bool)
  | JNum (n : Q)
  | JStr (s : string)
  | JArr (items : list Json)
  | JObj (fields : list (string * Json)).

Local Set Elimination Schemes.

(** [NostrEvent]; [content] is [None] when the field is missing or not a
    string, in which case [ev.content?.trim?.()] is undefined. *)
Record NostrEvent := mkNostrEvent {
  ev_id : string;
  ev_pubkey : string;
  ev_created_at : Z;
  ev_kind : Z;
  ev_content : option string;
  ev_tags : list (list string)
}.

(** [AgoraEvent] without the [local] annotation, which [parseAgoraEvent]
    never sets.  [title] and [description] come from [||] chains over the
    parsed payload and can be any JSON value. *)
Record AgoraEvent := mkAgoraEvent {
  id : string;
  pubkey : string;
  created_at : Z;
  title : Json;
  description : Json;
  start : option Q;
  end_ : option Q;
  location : option string;
  url : option string;
  image_url : option string;
  raw : NostrEvent
}.

(** [parsed.key]; [None] is [undefined]. *)
Fixpoint field (fields : list (string * Json)) (key : string) : option Json :=
  match fields with
  | [] => None
  | (k, v) :: rest => if String.eqb k key then Some v else field rest key
  end.

Definition prop (parsed : Json) (key : string) : option Json :=
  match parsed with JObj fields => field fields key | _ => None end.

(** JavaScript truthiness. *)
Definition truthy (v : option Json) : bool :=
  match v with
  | None | Some JNull => false
  | Some (JBool b) => b
  | Some (JNum n) => negb (Qeq_bool n 0)
  | Some (JStr s) => negb (String.eqb s "")
  | Some (JArr _) | Some (JObj _) => true
  end.

(** [a || b] *)
Definition or_json (a b : option Json) : option Json :=
  if truthy a then a else b.

(** [a || v] with a last operand that is defined *)
Definition or_last (a : option Json) (v : Json) : Json :=
  match a with
  | Some w => if truthy a then w else v
  | None => v
  end.

Definition as_number (v : option Json) : option Q :=
  match v with Some (JNum n) => Some n | _ => None end.

Definition as_string (v : option Json) : option string :=
  match v with Some (JStr s) => Some s | _ => None end.

Definition or_opt {A} (a b : option A) : option A :=
  match a with Some _ => a | None => b end.

Definition LF : ascii := ascii_of_nat 10.
Definition CR : ascii := ascii_of_nat 13.

Definition begins_with_lf (s : string) : bool :=
  match s with String c _ => Ascii.eqb c LF | EmptyString => false end.

(** [s.split(/\r?\n/)] *)
Fixpoint split_lines (s : string) : list string :=
  match s with
  | EmptyString => [EmptyString]
  | String c rest =>
      if Ascii.eqb c LF then EmptyString :: split_lines rest
      else if Ascii.eqb c CR && begins_with_lf rest then split_lines rest
      else match split_lines rest with
           | l :: ls => String c l :: ls
           | [] => [String c EmptyString]
           end
  end.

Definition nonempty (s : string) : bool :=
  match s with EmptyString => false | _ => true end.

(** [raw.split(/\r?\n/).map((l) => l.trim()).filter(Boolean)] *)
Definition fallback_lines (raw : string) : list string :=
  List.filter nonempty (List.map Js.trim (split_lines raw)).

(** The longest prefix without white space: what [\S+] consumes. *)
Fixpoint take_nonws (s : string) : string :=
  match s with
  | EmptyString => EmptyString
  | String c rest => if Js.is_ws c then EmptyString else String c (take_nonws rest)
  end.

(** A match of [/https?:\/\/\S+/i] anchored at the start of [s]. *)
Definition url_here (s : string) : option string :=
  let low := Js.toLowerCase s in
  let scheme :=
    if Js.startsWith low "https://" then Some 8%nat
    else if Js.startsWith low "http://" then Some 7%nat
    else None in
  match scheme with
  | Some n =>
      match take_nonws (Js.sliceFrom n s) with
      | EmptyString => None
      | body => Some (Js.slice0 n s ++ body)
      end
  | None => None
  end.

(** [raw.match(/https?:\/\/\S+/i)?.[0]] *)
Fixpoint first_url (s : string) : option string :=
  match url_here s with
  | Some u => Some u
  | None => match s with
            | EmptyString => None
            | String _ rest => first_url rest
            end
  end.

Section parser.

(** [JSON.parse]; [None] when it throws. *)
Variable json_parse : string → option Json.

Definition is_object (v : option Json) : bool :=
  match v with Some (JObj _) | Some (JArr _) => true | _ => false end.

(** [parseAgoraEvent(ev)]; [None] is [null]. *)
Definition parseAgoraEvent (ev : NostrEvent) : option AgoraEvent :=
  let raw := match ev_content ev with Some c => Js.trim c | None => EmptyString end in
  match raw with
  | EmptyString => None
  | _ =>
      let parsed := json_parse raw in
      match parsed with
      | Some (JObj _ as p) | Some (JArr _ as p) =>
          Some {| id := ev_id ev; pubkey := ev_pubkey ev; created_at := ev_created_at ev;
                  title := or_last (or_json (prop p "title") (prop p "name"))
                                   (JStr "(Untitled event)");
                  description := or_last (or_json (prop p "description") (prop p "summary"))
                                         (JStr "");
                  start := or_opt (as_number (prop p "start"))
                             (or_opt (as_number (prop p "startTimestamp"))
                                     (as_number (prop p "start_at")));
                  end_ := as_number (prop p "end");
                  location := as_string (prop p "location");
                  url := or_opt (as_string (prop p "url"))
                                (as_string (prop p "landingPageUrl"));
                  image_url := or_opt (as_string (prop p "image_url"))
                                      (as_string (prop p "imageUrl"));
                  raw := ev |}
      | _ =>
          match fallback_lines raw with
          | [] => None
          | first :: rest =>
              Some {| id := ev_id ev; pubkey := ev_pubkey ev;
                      created_at := ev_created_at ev;
                      title := JStr (Js.slice0 140 first);
                      description := JStr (Js.slice0 4000 (Js.join (String LF EmptyString) rest));
                      start := None; end_ := None; location := None;
                      url := first_url raw;
                      image_url := None;
                      raw := ev |}
          end
      end
  end.

End parser.

(** *** Sample data *)

Definition note (text : string) : NostrEvent :=
  {| ev_id := "e1"; ev_pubkey := "pk"; ev_created_at := 1700000000; ev_kind := 31923;
     ev_content := Some text; ev_tags := [] |}.

(** A [JSON.parse] that rejects every input. *)
Definition rejecting (text : string) : option Json := None.

Definition two_lines : string :=
  "  Potluck at the park " ++ String LF ("bring a dish https://example.org/p ").

End Parse.

(* ===================================================================== *)
(** ** The feed: read cycle of [useAgoraData]                              *)
(* ===================================================================== *)

Module Feed.
Import Parse.

Local Open Scope string_scope.
Local Open Scope Z_scope.
Local Open Scope list_scope.

(** [map.set(e.id, e)] on a [Map] kept as its values in insertion order: a
    key already present keeps its place and takes the new value. *)
Fixpoint map_set (e : AgoraEvent) (m : list AgoraEvent) : list AgoraEvent :=
  match m with
  | [] => [e]
  | x :: rest => if String.eqb (id x) (id e) then e :: rest else x :: map_set e rest
  end.

(** [new Map(prev.map((e) => [e.id, e]))], then [map.set(e.id, e)] for
    every [e] of the batch, then [Array.from(map.values())].  The [local]
    annotation of an optimistic entry is not read by the merge and is not
    part of [AgoraEvent] here. *)
Definition merge_map (prev batch : list AgoraEvent) : list AgoraEvent :=
  foldl (λ m e, map_set e m) (foldl (λ m e, map_set e m) [] prev) batch.

(** [merged.sort((a, b) => b.created_at - a.created_at)]: a stable sort,
    newest first. *)
Fixpoint insert_newest (x : AgoraEvent) (l : list AgoraEvent) : list AgoraEvent :=
  match l with
  | [] => [x]
  | y :: l' =>
      if created_at y <=? created_at x then x :: y :: l' else y :: insert_newest x l'
  end.

Definition sort_newest (l : list AgoraEvent) : list AgoraEvent :=
  foldr insert_newest [] l.

(** The [setEvents] update at the end of a read cycle. *)
Definition merge_events (prev batch : list AgoraEvent) : list AgoraEvent :=
  sort_newest (merge_map prev batch).

Definition newest_first (l : list AgoraEvent) : Prop :=
  ∀ i j a b, (i < j)%nat → l !! i = Some a → l !! j = Some b →
             created_at b ≤ created_at a.

(** A frame as the read loop looks at it: [["EVENT", subId, ev]] with
    [msg[2]] an event object or missing, [["EOSE", ...]], or anything
    else. *)
Inductive Frame := FEvent (ev : option NostrEvent) | FEose | FOther.

(** The variables of one run of the read loop; [seenIds] is the ref that
    lives as long as the hook. *)
Record Read := mkRead {
  batch : list AgoraEvent;
  pubkeys : gset string;
  seenIds : gset string
}.

Section read.

Variable json_parse : string → option Json.

(** The body of the loop on an EVENT frame. *)
Definition read_event (ev : option NostrEvent) (r : Read) : Read :=
  match ev with
  | None => r
  | Some ev =>
      if negb (nonempty (ev_id ev)) || bool_decide (ev_id ev ∈ seenIds r) then r
      else
        let seen := {[ev_id ev]} ∪ seenIds r in
        match parseAgoraEvent json_parse ev with
        | None => {| batch := batch r; pubkeys := pubkeys r; seenIds := seen |}
        | Some parsed =>
            {| batch := batch r ++ [parsed];
               pubkeys := {[ev_pubkey ev]} ∪ pubkeys r;
               seenIds := seen |}
        end
  end.

(** [for await (const msg of iter)], on the frames the iterator yields,
    for a run that is not cancelled. *)
Fixpoint read_loop (frames : list Frame) (r : Read) : Read :=
  match frames with
  | [] => r
  | FEvent ev :: rest => read_loop rest (read_event ev r)
  | FEose :: _ => r
  | FOther :: rest => read_loop rest r
  end.

(** One read cycle: the batch it collects given the ids seen so far. *)
Definition read_cycle (frames : list Frame) (seen : gset string) : Read :=
  read_loop frames {| batch := []; pubkeys := ∅; seenIds := seen |}.

End read.

(** *** Sample data *)

Definition shown (i : string) (t : Z) : AgoraEvent :=
  {| id := i; pubkey := "pk"; created_at := t; title := JStr "t";
     description := JStr ""; start := None; end_ := None; location := None;
     url := None; image_url := None; raw := note "t" |}.

End Feed.

(* ===================================================================== *)
(** ** nsec codec ([src/utils/auth.ts])                                   *)
(* ===================================================================== *)

Module Bech32.

Local Open Scope string_scope.
Local Open Scope Z_scope.
Local Open Scope list_scope.

(** *** 32-bit integer operators of JavaScript on [Z] *)

(** [ToInt32] and [ToUint32]. *)
Definition int32 (z : Z) : Z := (z + 2 ^ 31) mod 2 ^ 32 - 2 ^ 31.
Definition uint32 (z : Z) : Z := z mod 2 ^ 32.

(** [a << n], [a >> n], [a >>> n], [a & b], [a | b], [a ^ b] *)
Definition shl (a n : Z) : Z := int32 (Z.shiftl a (n mod 32)).
Definition sar (a n : Z) : Z := Z.shiftr (int32 a) (n mod 32).
Definition shr (a n : Z) : Z := Z.shiftr (uint32 a) (n mod 32).
Definition band (a b : Z) : Z := int32 (Z.land a b).
Definition bor (a b : Z) : Z := int32 (Z.lor a b).
Definition bxor (a b : Z) : Z := int32 (Z.lxor a b).

(** Thrown errors. *)
Inductive result (A : Type) := Ok (a : A) | Err (msg : string).
Arguments Ok {A} a.
Arguments Err {A} msg.

Definition bind {A B} (r : result A) (f : A → result B) : result B :=
  match r with Ok a => f a | Err m => Err m end.

(** *** bech32 *)

Definition BECH32_CHARSET : string := "qpzry9x8gf2tvdw0s3jn54khce6mua7l".

(** [BECH32_CHARSET[v]]; the index is in range wherever the codec uses it. *)
Definition charset_at (v : Z) : ascii :=
  match String.get (Z.to_nat v) BECH32_CHARSET with Some c => c | None => "?"%char end.

Fixpoint index_from (c : ascii) (s : string) (i : Z) : option Z :=
  match s with
  | EmptyString => None
  | String d rest => if Ascii.eqb d c then Some i else index_from c rest (i + 1)
  end.

(** [BECH32_CHARSET_REV[c]]; [None] is [undefined]. *)
Definition BECH32_CHARSET_REV (c : ascii) : option Z := index_from c BECH32_CHARSET 0.

Definition GENERATORS : list Z :=
  [0x3b6a57b2; 0x26508e6d; 0x1ea119fa; 0x3d4233dd; 0x2a1462b3].

(** The body of the outer loop of [bech32Polymod]. *)
Definition polymod_step (chk v : Z) : Z :=
  let top := shr chk 25 in
  let chk1 := bxor (shl (band chk 0x1ffffff) 5) v in
  fold_left
    (λ c i, if band (shr top i) 1 =? 0 then c
            else bxor c (nth (Z.to_nat i) GENERATORS 0))
    [0; 1; 2; 3; 4] chk1.

Definition bech32Polymod (values : list Z) : Z := fold_left polymod_step values 1.

Definition charCode (c : ascii) : Z := Z.of_nat (nat_of_ascii c).

Definition bech32HrpExpand (hrp : string) : list Z :=
  let cs := list_ascii_of_string hrp in
  List.map (λ c, shr (charCode c) 5) cs ++ [0] ++ List.map (λ c, band (charCode c) 31) cs.

Definition bech32CreateChecksum (hrp : string) (data : list Z) : list Z :=
  let values := bech32HrpExpand hrp ++ data ++ [0; 0; 0; 0; 0; 0] in
  let mod_ := bxor (bech32Polymod values) 1 in
  List.map (λ p, band (shr mod_ (5 * (5 - p))) 31) [0; 1; 2; 3; 4; 5].

Definition bech32VerifyChecksum (hrp : string) (data : list Z) : bool :=
  bech32Polymod (bech32HrpExpand hrp ++ data) =? 1.

(** The inner [while (bits >= toBits)] loop of [convertBits], unrolled at
    most [fuel] times.  With [toBits >= 1] the loop ends by its own test
    within [bits] rounds, which is the fuel [convert_loop] gives it; with
    [toBits <= 0] the loop of the source does not end, and the definition is
    not meant for such a width (the codec uses 5 and 8). *)
Fixpoint drain (fuel : nat) (acc bits toBits maxv : Z) (ret : list Z) : Z * list Z :=
  match fuel with
  | O => (bits, ret)
  | S fuel' =>
      if toBits <=? bits
      then drain fuel' acc (bits - toBits) toBits maxv
                 (ret ++ [band (sar acc (bits - toBits)) maxv])
      else (bits, ret)
  end.

(** The [for (const value of data)] loop of [convertBits] on the state
    [(acc, bits, ret)]. *)
Fixpoint convert_loop (fromBits toBits maxv : Z) (data : list Z)
    (acc bits : Z) (ret : list Z) : result (Z * Z * list Z) :=
  match data with
  | [] => Ok (acc, bits, ret)
  | value :: rest =>
      if (value <? 0) || negb (sar value fromBits =? 0)
      then Err "convertBits: invalid value"
      else
        let acc' := bor (shl acc fromBits) value in
        let bits' := bits + fromBits in
        let '(bits'', ret') := drain (Z.to_nat bits') acc' bits' toBits maxv ret in
        convert_loop fromBits toBits maxv rest acc' bits'' ret'
  end.

(** [convertBits(data, fromBits, toBits, pad)] *)
Definition convertBits (data : list Z) (fromBits toBits : Z) (pad : bool) : result (list Z) :=
  let maxv := shl 1 toBits - 1 in
  bind (convert_loop fromBits toBits maxv data 0 0 [])
    (λ '(acc, bits, ret),
       if pad then
         Ok (if bits =? 0 then ret else ret ++ [band (shl acc (toBits - bits)) maxv])
       else if fromBits <=? bits then Err "convertBits: excess padding"
       else if negb (band (shl acc (toBits - bits)) maxv =? 0)
            then Err "convertBits: non-zero padding"
       else Ok ret).

Definition chars_of (words : list Z) : string :=
  string_of_list_ascii (List.map charset_at words).

(** [bech32Encode(hrp, payloadBytes)] *)
Definition bech32Encode (hrp : string) (payloadBytes : list Z) : result string :=
  bind (convertBits payloadBytes 8 5 true)
    (λ dataWords,
       let checksum := bech32CreateChecksum hrp dataWords in
       let combined := dataWords ++ checksum in
       Ok (hrp ++ "1" ++ chars_of combined)%string).

Fixpoint lastIndexOf_from (c : ascii) (s : string) (i found : Z) : Z :=
  match s with
  | EmptyString => found
  | String d rest => lastIndexOf_from c rest (i + 1) (if Ascii.eqb d c then i else found)
  end.

(** [s.lastIndexOf(c)] *)
Definition lastIndexOf (c : ascii) (s : string) : Z := lastIndexOf_from c s 0 (-1).

Definition strlen (s : string) : Z := Z.of_nat (String.length s).

(** The [for (const c of dataPart)] loop of [bech32Decode]. *)
Fixpoint words_of (dataPart : string) : result (list Z) :=
  match dataPart with
  | EmptyString => Ok []
  | String c rest =>
      match BECH32_CHARSET_REV c with
      | None => Err "bech32: invalid character"
      | Some v => bind (words_of rest) (λ ws, Ok (v :: ws))
      end
  end.

(** [words.slice(0, -6)] *)
Definition drop_last6 (words : list Z) : list Z :=
  firstn (length words - 6) words.

(** [bech32Decode(bech)]: the prefix and the payload bytes. *)
Definition bech32Decode (bech : string) : result (string * list Z) :=
  let s := Js.toLowerCase (Js.trim bech) in
  let pos := lastIndexOf "1"%char s in
  if (pos <? 1) || (strlen s <? pos + 7) then Err "bech32: invalid separator position"
  else
    let hrp := Js.slice0 (Z.to_nat pos) s in
    let dataPart := Js.sliceFrom (Z.to_nat (pos + 1)) s in
    bind (words_of dataPart)
      (λ dataWords,
         if negb (bech32VerifyChecksum hrp dataWords) then Err "bech32: invalid checksum"
         else
           bind (convertBits (drop_last6 dataWords) 5 8 false)
             (λ bytes, Ok (hrp, List.map (λ b, b mod 256) bytes))).

(** *** Keys *)

Definition hex_digit (c : ascii) : option Z :=
  let n := Z.of_nat (nat_of_ascii c) in
  if (48 <=? n) && (n <=? 57) then Some (n - 48)
  else if (97 <=? n) && (n <=? 102) then Some (n - 87)
  else if (65 <=? n) && (n <=? 70) then Some (n - 55)
  else None.

Fixpoint all_hex (s : string) : bool :=
  match s with
  | EmptyString => true
  | String c rest => match hex_digit c with Some _ => all_hex rest | None => false end
  end.

(** [/^[0-9a-fA-F]{64}$/.test(s)] *)
Definition is_hex64 (s : string) : bool := (String.length s =? 64)%nat && all_hex s.

Fixpoint hex_pairs (s : string) : list Z :=
  match s with
  | String a (String b rest) =>
      match hex_digit a, hex_digit b with
      | Some x, Some y => (16 * x + y) :: hex_pairs rest
      | _, _ => []
      end
  | _ => []
  end.

(** [hexToBytes(hex)] *)
Definition hexToBytes (hex : string) : result (list Z) :=
  let clean := Js.toLowerCase (Js.trim hex) in
  if is_hex64 clean then Ok (hex_pairs clean)
  else Err "hexToBytes: expected 64 hex chars".

(** What [nip19.decode] of nostr-tools returns: a type tag and data. *)
Inductive Nip19Data := DataBytes (b : list Z) | DataText (s : string) | DataOther.

(** The [nip19] export of nostr-tools, when the installed version has it. *)
Record Nip19 := mkNip19 {
  nsecEncode : list Z → string;
  decode : string → result (option (string * Nip19Data))
}.

(** [encodeNsec(sk)] *)
Definition encodeNsec (nip19 : option Nip19) (sk : list Z) : result string :=
  match nip19 with
  | Some lib => Ok (nsecEncode lib sk)
  | None => bech32Encode "nsec" sk
  end.

(** [decodeNsecToBytes(value)] *)
Definition decodeNsecToBytes (nip19 : option Nip19) (value : string) : result (list Z) :=
  let input := Js.trim value in
  if is_hex64 input then hexToBytes input
  else
    match nip19 with
    | Some lib =>
        bind (decode lib input)
          (λ decoded,
             match decoded with
             | Some ("nsec", DataBytes b) => Ok b
             | Some ("nsec", DataText t) =>
                 if is_hex64 t then hexToBytes t else Err "Unexpected nsec decode payload"
             | Some ("nsec", DataOther) => Err "Unexpected nsec decode payload"
             | _ => Err "Not an nsec"
             end)
    | None =>
        bind (bech32Decode input)
          (λ '(hrp, data),
             if negb (String.eqb hrp "nsec") then Err "Not an nsec"
             else if negb (length data =? 32)%nat then Err "Invalid nsec length"
             else Ok data)
    end.

(** *** Reading a digit list as a number

    [val w l] is the number whose base-[2^w] digits, most significant
    first, are [l]. *)
Definition val (w : Z) (l : list Z) : Z := fold_left (λ a d, a * 2 ^ w + d) l 0.

Definition digits_ok (w : Z) (l : list Z) : Prop := Forall (λ d, 0 ≤ d < 2 ^ w) l.

(** Agreement on the low 32 bits. *)
Definition eqm (a b : Z) : Prop := a mod 2 ^ 32 = b mod 2 ^ 32.

(** What the loop of [convertBits] maintains: [A] is the number read so
    far, [acc] agrees with it on 32 bits, [ret] holds all of its bits but
    the last [bits], and [N] bits were consumed. *)
Record CInv (toBits A acc bits : Z) (ret : list Z) (N : Z) : Prop := mkCInv {
  ci_acc : eqm acc A;
  ci_nonneg : 0 ≤ A;
  ci_bits : 0 ≤ bits;
  ci_val : val toBits ret = A / 2 ^ bits;
  ci_digits : digits_ok toBits ret;
  ci_len : Z.of_nat (length ret) * toBits + bits = N
}.

(** *** The checksum polynomial, as a map linear over xor

    [mask_bit top i] is what iteration [i] of the inner loop of
    [bech32Polymod] xors into [chk]; [lin chk] is one round on the value 0. *)

Definition mask_bit (top i : Z) : Z :=
  if Z.testbit top i then nth (Z.to_nat i) GENERATORS 0 else 0.

Definition gen_mask (top : Z) : Z :=
  Z.lxor (Z.lxor (Z.lxor (Z.lxor (mask_bit top 0) (mask_bit top 1)) (mask_bit top 2))
                 (mask_bit top 3)) (mask_bit top 4).

Definition lin (chk : Z) : Z :=
  Z.lxor (Z.shiftl (Z.land chk 0x1ffffff) 5) (gen_mask (Z.shiftr chk 25)).

(** The state of [bech32Polymod] after the expanded prefix and the data
    words, and that state moved by six more rounds. *)
Definition polymod_state (hrp : string) (data : list Z) : Z :=
  bech32Polymod (bech32HrpExpand hrp ++ data).

Definition polymod_core (hrp : string) (data : list Z) : Z :=
  Nat.iter 6 lin (polymod_state hrp data).

(** A 30-bit value: what [chk] always is. *)
Definition in30 (x : Z) : Prop := 0 ≤ x < 2 ^ 30.

(** *** Character classes of the text form *)

Fixpoint all_chars (p : ascii → bool) (s : string) : bool :=
  match s with
  | EmptyString => true
  | String c rest => p c && all_chars p rest
  end.

Definition plain_char (c : ascii) : bool :=
  negb (Js.is_ws c) && Ascii.eqb (Js.lower_char c) c.

Definition not_separator (c : ascii) : bool := negb (Ascii.eqb c "1").

(** The text [hrp + "1" + dataPart]. *)
Definition bech32_text (hrp dataPart : string) : string :=
  (hrp ++ "1" ++ dataPart)%string.

(** The text of an nsec whose data part spells the words [D]. *)
Definition nsec_text (D : list Z) : string := ("nsec" ++ "1" ++ chars_of D)%string.

(** A private key whose bytes are 1, 2, ..., 32. *)
Definition sample_key : list Z := List.map Z.of_nat (seq 1 32).

(** The words [D'] spell the text of [D] with other checksum characters:
    the same number of 5-bit words, the same words before the last six,
    and a difference among the last six. *)
Definition checksum_changed (D D' : list Z) : Prop :=
  digits_ok 5 D' ∧ length D' = length D ∧ drop_last6 D' = drop_last6 D ∧ D' ≠ D.

(** What the program relies on when it hands the key [sk] to the [nip19] of
    nostr-tools, a library outside this repository: NIP-19 makes the nsec
    of a key the bech32 text with prefix nsec, so [nsecEncode] returns
    "nsec1" followed by characters of the bech32 alphabet, the last six a
    checksum; [decode] of that text returns the key tagged nsec, as bytes or
    (older versions) as 64 hex digits; and [decode] throws on the text with
    other checksum characters.  Nothing is asked when the export is
    absent. *)
Definition nip19_contract (nip19 : option Nip19) (sk : list Z) : Prop :=
  match nip19 with
  | None => True
  | Some lib =>
      ∃ D, digits_ok 5 D ∧ (6 ≤ length D)%nat ∧
           nsecEncode lib sk = nsec_text D ∧
           (decode lib (nsec_text D) = Ok (Some ("nsec", DataBytes sk)) ∨
            ∃ t, is_hex64 t = true ∧ hexToBytes t = Ok sk ∧
                 decode lib (nsec_text D) = Ok (Some ("nsec", DataText t))) ∧
           ∀ D', checksum_changed D D' → ∃ msg, decode lib (nsec_text D') = Err msg
  end.

(** A [nip19] whose nsec functions are the bech32 codec of BIP-173, which
    is what NIP-19 prescribes. *)
Definition bech32_nip19 : Nip19 :=
  {| nsecEncode := λ sk, match bech32Encode "nsec" sk with Ok t => t | Err _ => "" end;
     decode := λ text,
       bind (bech32Decode text) (λ '(hrp, data), Ok (Some (hrp, DataBytes data))) |}.

End Bech32.

(* ===================================================================== *)
(** ** Key handling and storage ([src/utils/auth.ts])                     *)
(* ===================================================================== *)

Module Keys.
Import Bech32.

Local Open Scope string_scope.
Local Open Scope Z_scope.
Local Open Scope list_scope.

(** The order of the secp256k1 group. *)
Definition SECP256K1_N : Z :=
  0xFFFFFFFFFFFFFFFFFFFFFFFFFFFFFFFEBAAEDCE6AF48A03BBFD25E8CD0364141.

Definition HEX_DIGITS : string := "0123456789abcdef".

Definition hex_char (d : Z) : ascii :=
  match String.get (Z.to_nat d) HEX_DIGITS with Some c => c | None => "?"%char end.

(** [b.toString(16).padStart(2, "0")] for an element of a [Uint8Array]. *)
Definition byte_hex (b : Z) : string :=
  String (hex_char (b / 16)) (String (hex_char (b mod 16)) EmptyString).

(** [bytesToHex(bytes)] *)
Definition bytesToHex (bytes : list Z) : string :=
  fold_right (λ b s, (byte_hex b ++ s)%string) EmptyString bytes.

(** [bytesToBigIntBE(bytes)], on BigInt. *)
Definition bytesToBigIntBE (bytes : list Z) : Z :=
  fold_left (λ v b, Z.shiftl v 8 + b) bytes 0.

(** The [while (true)] loop of [generateSecp256k1PrivateKey]; [draw k] is
    what the [k]-th call of [crypto.getRandomValues] fills the array with.
    The loop is unrolled at most [fuel] times. *)
Fixpoint generate_loop (fuel : nat) (draw : nat → list Z) (k : nat) : option (list Z) :=
  match fuel with
  | O => None
  | S fuel' =>
      let sk := draw k in
      let d := bytesToBigIntBE sk in
      if d =? 0 then generate_loop fuel' draw (S k)
      else if SECP256K1_N <=? d then generate_loop fuel' draw (S k)
      else Some sk
  end.

(** [generateSecp256k1PrivateKey()]; [getRandomValues] is [None] when
    [globalThis.crypto?.getRandomValues] is missing. *)
Definition generateSecp256k1PrivateKey (getRandomValues : option (nat → list Z))
    (fuel : nat) : result (option (list Z)) :=
  match getRandomValues with
  | None => Err "Secure randomness unavailable (crypto.getRandomValues missing)"
  | Some draw => Ok (generate_loop fuel draw 0)
  end.

(** A candidate the loop accepts. *)
Definition valid_key (sk : list Z) : bool :=
  negb (bytesToBigIntBE sk =? 0) && negb (SECP256K1_N <=? bytesToBigIntBE sk).

(** [localStorage["agora_nsec_v1"]]; [None] when the key is absent. *)
Definition Storage := option string.

(** [savePrivateKeyNsec(nsecOrHex)]: the new storage, or the error thrown
    before anything is written. *)
Definition savePrivateKeyNsec (nip19 : option Nip19) (nsecOrHex : string)
    (ls : Storage) : result Storage :=
  bind (decodeNsecToBytes nip19 nsecOrHex)
    (λ bytes, bind (encodeNsec nip19 bytes) (λ nsec, Ok (Some nsec))).

(** [savePrivateKeyHex(hex)] *)
Definition savePrivateKeyHex (nip19 : option Nip19) (hex : string)
    (ls : Storage) : result Storage :=
  bind (hexToBytes hex)
    (λ bytes, bind (encodeNsec nip19 bytes) (λ nsec, Ok (Some nsec))).

(** [getPrivateKeyNsec()] *)
Definition getPrivateKeyNsec (ls : Storage) : option string :=
  match ls with
  | Some v =>
      if Js.truthy (Some v) && Js.truthy (Some (Js.trim v)) then Some (Js.trim v) else None
  | None => None
  end.

(** [getPrivateKeyBytes()] *)
Definition getPrivateKeyBytes (nip19 : option Nip19) (ls : Storage) : option (list Z) :=
  match getPrivateKeyNsec ls with
  | None => None
  | Some nsec =>
      match decodeNsecToBytes nip19 nsec with Ok b => Some b | Err _ => None end
  end.

(** [getPrivateKeyHex()], which is also [getPrivateKey()] of nostr.ts. *)
Definition getPrivateKeyHex (nip19 : option Nip19) (ls : Storage) : option string :=
  bytesToHex <$> getPrivateKeyBytes nip19 ls.

(** [hasLocalPrivateKey()] *)
Definition hasLocalPrivateKey (ls : Storage) : bool :=
  match getPrivateKeyNsec ls with Some _ => true | None => false end.

(** [clearPrivateKey()] *)
Definition clearPrivateKey (ls : Storage) : Storage := None.

(** *** Sample data *)

Definition sample_hex : string :=
  "0102030405060708090A0B0C0D0E0F101112131415161718191a1b1c1d1e1f20".

(** A random source whose first array is all zero, whose second is all
    255 and whose third is [sample_key]. *)
Definition sample_draw (k : nat) : list Z :=
  match k with
  | O => repeat 0 32
  | S O => repeat 255 32
  | _ => sample_key
  end.

End Keys.

(* ===================================================================== *)
(** ** Publishing an event ([publishAgoraEvent], src/utils/nostr.ts)       *)
(* ===================================================================== *)

Module Publish.

Local Open Scope string_scope.
Local Open Scope Z_scope.
Local Open Scope list_scope.

(** [contentObj] of [publishAgoraEvent]: the object whose JSON text is the
    content of the published event. *)
Definition contentObj (p : Outbox.EventPayload) : Parse.Json :=
  let text (o : option string) := Parse.JStr (Js.or_else o "") in
  Parse.JObj
    [ ("title", Parse.JStr (Outbox.name p));
      ("name", Parse.JStr (Outbox.name p));
      ("location", Parse.JStr (Outbox.location p));
      ("description", text (Outbox.description p));
      ("image_url", text (Outbox.image_url p));
      ("imageUrl", text (Outbox.image_url p));
      ("landingPageUrl", text (Outbox.landingPageUrl p));
      ("url", text (Outbox.landingPageUrl p));
      ("start", Parse.JNum (inject_Z (Outbox.startTimestamp p)));
      ("startTimestamp", Parse.JNum (inject_Z (Outbox.startTimestamp p))) ].

(** A signed event: its wire form and its [id], [None] when the signer's
    result carries none. *)
Record Signed := mkSigned {
  wire : Router.Elem;
  signed_id : option string
}.

(** What can sign: [window.nostr.signEvent] when it is a function, and the
    nostr-tools path of [signEvent] on the key bytes.  Each returns a signed
    event or throws. *)
Record Signers := mkSigners {
  extension : option (Bech32.result Signed);
  local_sign : list Z → Bech32.result Signed
}.

(** [signEvent(privKeyHex, unsignedEvent)] *)
Definition signEvent (s : Signers) (privKeyHex : string) : Bech32.result Signed :=
  Bech32.bind (Bech32.hexToBytes privKeyHex) (local_sign s).

(** [await publishEvent(signed); return signed]: the router state left
    behind and what the caller's [try] block sees. *)
Definition publish_signed (clock : nat → Z) (env : nat → Conn.State → Conn.State)
    (sg : Signed) (st : Router.State) : Router.State * Outbox.Outcome :=
  let r := Router.pool_event clock env (wire sg) st in
  (r.1, match r.2 with
        | Some m => Outbox.Threw m
        | None => Outbox.Returned (signed_id sg)
        end).

(** [publishAgoraEvent(privKeyHex, payload)] *)
Definition publishAgoraEvent (s : Signers) (clock : nat → Z)
    (env : nat → Conn.State → Conn.State) (privKeyHex : string)
    (st : Router.State) : Router.State * Outbox.Outcome :=
  match privKeyHex, extension s with
  | EmptyString, Some (Bech32.Ok sg) => publish_signed clock env sg st
  | EmptyString, Some (Bech32.Err m) => (st, Outbox.Threw m)
  | EmptyString, None =>
      (st, Outbox.Threw "No private key available for local signing")
  | _, _ =>
      match signEvent s privKeyHex with
      | Bech32.Ok sg => publish_signed clock env sg st
      | Bech32.Err m => (st, Outbox.Threw m)
      end
  end.

(** *** Sample data *)

(** A page with no extension and a local signer that returns the id "e1". *)
Definition local_only : Signers :=
  {| extension := None;
     local_sign := λ _, Bech32.Ok {| wire := Router.Raw "{}"; signed_id := Some "e1" |} |}.

Definition potluck_payload : Outbox.EventPayload :=
  {| Outbox.name := "Potluck"; Outbox.startTimestamp := 1700000000;
     Outbox.location := "Park"; Outbox.description := Some "";
     Outbox.image_url := Some ""; Outbox.landingPageUrl := Some "" |}.

(** A [JSON.parse] that returns the content object of [potluck_payload]. *)
Definition parse_potluck (text : string) : option Parse.Json :=
  Some (contentObj potluck_payload).

End Publish.

(* ===================================================================== *)
(** * Properties                                                          *)
(* ===================================================================== *)

Module DoubleFacts.
Import Double.
Local Open Scope Q_scope.

Lemma Qpow2_pos e : 0 < 2 ^ e.
Proof. apply Qpower_0_lt. reflexivity. Qed.

Lemma two_neq_0 : ¬ 2 == 0.
Proof. intros H. unfold Qeq in H. simpl in H. lia. Qed.

Lemma Qpow2_add a b : 2 ^ (a + b) == 2 ^ a * 2 ^ b.
Proof. apply Qpower_plus, two_neq_0. Qed.

Lemma Qpow2_le a b : (a ≤ b)%Z → 2 ^ a <= 2 ^ b.
Proof. intros H. apply Qpower_le_compat_l; [done|]. unfold Qle; simpl; lia. Qed.

Lemma Qpow2_lt a b : (a < b)%Z → 2 ^ a < 2 ^ b.
Proof. intros H. apply Qpower_lt_compat_l; [done|]. reflexivity. Qed.

Lemma Qpow2_lt_inv a b : 2 ^ a < 2 ^ b → (a < b)%Z.
Proof. intros H. apply (Qpower_lt_compat_l_inv 2); [done|]. reflexivity. Qed.

Lemma Qpow2_Z e : (0 ≤ e)%Z → 2 ^ e == inject_Z (2 ^ e).
Proof. intros H. symmetry. apply (Zpower_Qpower 2 e H). Qed.

(** [m * 2^j] counted in units of [2^e], for [e <= j]. *)
Lemma scale_int m j e :
  (e ≤ j)%Z → inject_Z m * 2 ^ j == inject_Z (m * 2 ^ (j - e)) * 2 ^ e.
Proof.
  intros H. replace j with ((j - e) + e)%Z at 1 by lia.
  rewrite Qpow2_add, (Qpow2_Z (j - e)) by lia.
  rewrite inject_Z_mult. ring.
Qed.

Lemma div_pow2_le x y e : x <= y → x / 2 ^ e <= y / 2 ^ e.
Proof.
  intros H. unfold Qdiv. apply Qmult_le_compat_r; [done|].
  apply Qinv_le_0_compat, Qlt_le_weak, Qpow2_pos.
Qed.

Lemma mul_div_pow2 n e : inject_Z n * 2 ^ e / 2 ^ e == inject_Z n.
Proof. field. pose proof (Qpow2_pos e). intros E. rewrite E in H. by apply Qlt_irrefl in H. Qed.

(** *** Rounding to an integer *)

Lemma rne_floor x : (Qfloor x ≤ rne x ≤ Qfloor x + 1)%Z.
Proof.
  unfold rne. cbv zeta. destruct (_ ?= _); [destruct (Z.even _)|..]; lia.
Qed.

Lemma rne_ge_int n x : inject_Z n <= x → (n ≤ rne x)%Z.
Proof.
  intros H. apply Qfloor_resp_le in H. rewrite Qfloor_Z in H.
  pose proof (rne_floor x). lia.
Qed.

Lemma rne_le_int n x : x <= inject_Z n → (rne x ≤ n)%Z.
Proof.
  intros H. pose proof (rne_floor x) as [_ Hr].
  pose proof (Qfloor_resp_le _ _ H) as Hf. rewrite Qfloor_Z in Hf.
  destruct (Z.eq_dec (Qfloor x) n) as [E|E]; [|lia].
  unfold rne. cbv zeta. rewrite E.
  pose proof (Qfloor_le x) as Hx. rewrite E in Hx.
  destruct (Qcompare_spec (x - inject_Z n) (1 # 2)) as [H'|H'|H'];
    [exfalso; lra | lia | exfalso; lra].
Qed.

Lemma rne_mono x y : x <= y → (rne x ≤ rne y)%Z.
Proof.
  intros H. pose proof (Qfloor_resp_le _ _ H) as Hf.
  pose proof (rne_floor x). pose proof (rne_floor y).
  destruct (Z.eq_dec (Qfloor x) (Qfloor y)) as [E|E]; [|lia].
  unfold rne. cbv zeta. rewrite <- E.
  destruct (Qcompare_spec (x - inject_Z (Qfloor x)) (1 # 2)) as [Hx|Hx|Hx];
    destruct (Qcompare_spec (y - inject_Z (Qfloor x)) (1 # 2)) as [Hy|Hy|Hy];
    try (destruct (Z.even _)); try lia; exfalso; lra.
Qed.

Lemma rne_error x : Qabs (inject_Z (rne x) - x) <= 1 # 2.
Proof.
  pose proof (Qfloor_le x) as H1. pose proof (Qlt_floor x) as H2.
  rewrite inject_Z_plus in H2. change (inject_Z 1) with 1 in H2.
  apply Qabs_Qle_condition.
  unfold rne. cbv zeta.
  destruct (Qcompare_spec (x - inject_Z (Qfloor x)) (1 # 2)) as [Hx|Hx|Hx];
    [destruct (Z.even _)|..]; rewrite ?inject_Z_plus;
    change (inject_Z 1) with 1; split; lra.
Qed.

(** *** The binary logarithm *)

Lemma ilog2_spec x : 0 < x → 2 ^ ilog2 x <= x ∧ x < 2 ^ (ilog2 x + 1).
Proof.
  destruct x as [n d]. intros Hx.
  assert (Hn : (0 < n)%Z) by (unfold Qlt in Hx; simpl in Hx; lia).
  unfold ilog2. cbn [Qnum Qden].
  pose proof (Z.log2_spec n Hn) as [Ha1 Ha2].
  pose proof (Z.log2_spec (Zpos d) ltac:(lia)) as [Hb1 Hb2].
  pose proof (Z.log2_nonneg n) as Ha0. pose proof (Z.log2_nonneg (Zpos d)) as Hb0.
  set (a := Z.log2 n) in *. set (b := Z.log2 (Zpos d)) in *.
  assert (HD : 0 < inject_Z (Zpos d)) by (unfold Qlt; simpl; lia).
  assert (Hlo : 2 ^ (a - b - 1) < n # d).
  { rewrite (Qmake_Qdiv n d). apply Qlt_shift_div_l; [done|].
    apply Qlt_le_trans with (2 ^ (a - b - 1) * 2 ^ (b + 1)).
    - apply Qmult_lt_l; [apply Qpow2_pos|].
      rewrite (Qpow2_Z (b + 1)) by lia. rewrite <- Zlt_Qlt.
      replace (Z.succ b) with (b + 1)%Z in Hb2 by lia. done.
    - rewrite <- Qpow2_add. replace (a - b - 1 + (b + 1))%Z with a by lia.
      rewrite (Qpow2_Z a) by lia. by rewrite <- Zle_Qle. }
  assert (Hhi : n # d < 2 ^ (a - b + 1)).
  { rewrite (Qmake_Qdiv n d). apply Qlt_shift_div_r; [done|].
    apply Qlt_le_trans with (2 ^ (a - b + 1) * 2 ^ b).
    - rewrite <- Qpow2_add. replace (a - b + 1 + b)%Z with (a + 1)%Z by lia.
      rewrite (Qpow2_Z (a + 1)) by lia. rewrite <- Zlt_Qlt.
      replace (Z.succ a) with (a + 1)%Z in Ha2 by lia. done.
    - apply Qmult_le_l; [apply Qpow2_pos|].
      rewrite (Qpow2_Z b) by lia. by rewrite <- Zle_Qle. }
  destruct (Qle_bool (2 ^ (a - b)) (n # d)) eqn:E.
  - apply Qle_bool_iff in E. done.
  - split; [by apply Qlt_le_weak|].
    replace (a - b - 1 + 1)%Z with (a - b)%Z by lia.
    apply Qnot_le_lt. intros H. apply Qle_bool_iff in H. congruence.
Qed.

Lemma ilog2_mono x y : 0 < x → x <= y → (ilog2 x ≤ ilog2 y)%Z.
Proof.
  intros Hx Hxy.
  destruct (ilog2_spec x Hx) as [H1 _].
  destruct (ilog2_spec y ltac:(lra)) as [_ H2].
  assert (H : 2 ^ ilog2 x < 2 ^ (ilog2 y + 1)) by lra.
  apply Qpow2_lt_inv in H. lia.
Qed.

Lemma ilog2_lt x k : 0 < x → x < 2 ^ k → (ilog2 x < k)%Z.
Proof.
  intros Hx Hk. destruct (ilog2_spec x Hx) as [H1 _].
  apply Qpow2_lt_inv. lra.
Qed.

(** *** Rounding to binary64 *)

Lemma round_pos x :
  0 < x →
  round x = inject_Z (rne (x / 2 ^ ulp_exp x)) * 2 ^ ulp_exp x ∧
  ulp_exp x = Z.max (ilog2 x - 52) (-1074).
Proof.
  intros Hx. unfold round.
  destruct (Qeq_bool x 0) eqn:E.
  - apply Qeq_bool_iff in E. lra.
  - split; [done|]. unfold ulp_exp.
    destruct x as [n d]. unfold Qabs.
    rewrite Z.abs_eq; [done|]. unfold Qlt in Hx. simpl in Hx. lia.
Qed.

Lemma round_0 x : x == 0 → round x = 0.
Proof. intros H. unfold round. apply Qeq_bool_iff in H. by rewrite H. Qed.

Lemma round_nonneg x : 0 <= x → 0 <= round x.
Proof.
  intros Hx. destruct (Qle_lt_or_eq _ _ Hx) as [Hp|Hz].
  - destruct (round_pos x Hp) as [-> _].
    apply Qmult_le_0_compat; [|apply Qlt_le_weak, Qpow2_pos].
    change 0 with (inject_Z 0). rewrite <- Zle_Qle. apply rne_ge_int.
    change (inject_Z 0) with 0. apply Qle_shift_div_l; [apply Qpow2_pos|]. lra.
  - rewrite round_0 by (by symmetry). lra.
Qed.

Lemma round_ge a x : repr a → 0 < x → a <= x → a <= round x.
Proof.
  intros (m & j & Hm & Hj & Ha) Hx Hax.
  destruct (round_pos x Hx) as [-> He].
  set (e := ulp_exp x) in *.
  pose proof (Qpow2_pos e) as Hpe.
  destruct (ilog2_spec x Hx) as [Hk _]. set (k := ilog2 x) in *.
  destruct (Z_le_gt_dec e j) as [Hej|Hej].
  - (* [a] is a multiple of [2^e] *)
    pose proof (scale_int m j e Hej) as Hs. rewrite <- Ha in Hs.
    set (N := (m * 2 ^ (j - e))%Z) in *.
    assert (HN : inject_Z N <= x / 2 ^ e).
    { rewrite <- (mul_div_pow2 N e), <- Hs. by apply div_pow2_le. }
    apply rne_ge_int in HN. rewrite Hs.
    apply Qmult_le_compat_r; [by rewrite <- Zle_Qle | by apply Qlt_le_weak].
  - (* [a] lies below the binade of [x] *)
    assert (Ek : e = (k - 52)%Z) by lia.
    assert (Ha' : a <= 2 ^ k).
    { rewrite Ha. apply Qle_trans with (inject_Z (2 ^ 53) * 2 ^ j).
      - apply Qmult_le_compat_r; [rewrite <- Zle_Qle; lia|].
        apply Qlt_le_weak, Qpow2_pos.
      - rewrite <- (Qpow2_Z 53) by lia. rewrite <- Qpow2_add. apply Qpow2_le. lia. }
    assert (Hs : 2 ^ k == inject_Z (2 ^ 52) * 2 ^ e).
    { rewrite <- (Qpow2_Z 52) by lia. rewrite <- Qpow2_add. by replace (52 + e)%Z with k by lia. }
    assert (HN : inject_Z (2 ^ 52) <= x / 2 ^ e).
    { rewrite <- (mul_div_pow2 (2 ^ 52) e), <- Hs. by apply div_pow2_le. }
    apply rne_ge_int in HN.
    apply Qle_trans with (2 ^ k); [done|]. rewrite Hs.
    apply Qmult_le_compat_r; [by rewrite <- Zle_Qle | by apply Qlt_le_weak].
Qed.

Lemma round_le b x : repr b → 0 < x → x <= b → round x <= b.
Proof.
  intros (m & j & Hm & Hj & Hb) Hx Hxb.
  destruct (round_pos x Hx) as [-> He].
  set (e := ulp_exp x) in *.
  pose proof (Qpow2_pos e) as Hpe.
  destruct (ilog2_spec x Hx) as [Hk _]. set (k := ilog2 x) in *.
  destruct (Z_le_gt_dec e j) as [Hej|Hej].
  - pose proof (scale_int m j e Hej) as Hs. rewrite <- Hb in Hs.
    set (N := (m * 2 ^ (j - e))%Z) in *.
    assert (HN : x / 2 ^ e <= inject_Z N).
    { rewrite <- (mul_div_pow2 N e), <- Hs. by apply div_pow2_le. }
    apply rne_le_int in HN. rewrite Hs.
    apply Qmult_le_compat_r; [by rewrite <- Zle_Qle | by apply Qlt_le_weak].
  - exfalso.
    assert (Ek : e = (k - 52)%Z) by lia.
    assert (Hb' : b < 2 ^ k).
    { rewrite Hb. apply Qlt_le_trans with (inject_Z (2 ^ 53) * 2 ^ j).
      - apply Qmult_lt_compat_r; [apply Qpow2_pos|]. rewrite <- Zlt_Qlt. lia.
      - rewrite <- (Qpow2_Z 53) by lia. rewrite <- Qpow2_add. apply Qpow2_le. lia. }
    lra.
Qed.

Lemma round_id x : repr x → round x == x.
Proof.
  intros Hr. assert (H0 : 0 <= x).
  { destruct Hr as (m & j & Hm & _ & ->).
    apply Qmult_le_0_compat; [|apply Qlt_le_weak, Qpow2_pos].
    change 0 with (inject_Z 0). rewrite <- Zle_Qle. lia. }
  destruct (Qle_lt_or_eq _ _ H0) as [Hp|Hz].
  - apply Qle_antisym; [apply round_le | apply round_ge]; (done || lra).
  - rewrite round_0 by (by symmetry). done.
Qed.

Lemma repr_pow2 k : (-1074 ≤ k)%Z → repr (2 ^ k).
Proof. intros H. exists 1%Z, k. split; [lia|]. split; [done|]. ring. Qed.

Lemma repr_Z n : (0 ≤ n < 2 ^ 53)%Z → repr (inject_Z n).
Proof. intros H. exists n, 0%Z. split; [done|]. split; [lia|]. simpl. ring. Qed.

Lemma round_mono x y : 0 <= x → x <= y → round x <= round y.
Proof.
  intros H0 Hxy. destruct (Qle_lt_or_eq _ _ H0) as [Hx|Hz].
  - assert (Hy : 0 < y) by lra.
    destruct (round_pos x Hx) as [Ex Hex]. destruct (round_pos y Hy) as [Ey Hey].
    pose proof (ilog2_mono x y Hx Hxy) as Hk.
    destruct (Z.eq_dec (ulp_exp x) (ulp_exp y)) as [E|E].
    + rewrite Ex, Ey, E.
      apply Qmult_le_compat_r; [|apply Qlt_le_weak, Qpow2_pos].
      rewrite <- Zle_Qle. apply rne_mono. by apply div_pow2_le.
    + (* a power of two separates them *)
      destruct (ilog2_spec x Hx) as [_ Hx2]. destruct (ilog2_spec y Hy) as [Hy1 _].
      assert (Hlt : (ilog2 x + 1 ≤ ilog2 y)%Z) by lia.
      assert (Hr : repr (2 ^ ilog2 y)) by (apply repr_pow2; lia).
      pose proof (Qpow2_le _ _ Hlt) as Hp.
      apply Qle_trans with (2 ^ ilog2 y).
      * apply round_le; [done|done|lra].
      * by apply round_ge.
  - rewrite (round_0 x) by (by symmetry). apply round_nonneg. lra.
Qed.

Lemma round_eq x y : 0 <= x → x == y → round x == round y.
Proof.
  intros H0 E. apply Qle_antisym; apply round_mono; lra.
Qed.

(** The distance between a number below [2^k] and its rounding. *)
Lemma round_error x k :
  0 <= x → x < 2 ^ k → (-1021 ≤ k)%Z → Qabs (round x - x) <= 2 ^ (k - 54).
Proof.
  intros H0 Hk Hkmin. destruct (Qle_lt_or_eq _ _ H0) as [Hx|Hz].
  - destruct (round_pos x Hx) as [-> He].
    pose proof (ilog2_lt x k Hx Hk) as Hl.
    set (e := ulp_exp x) in *. pose proof (Qpow2_pos e) as Hpe.
    pose proof (rne_error (x / 2 ^ e)) as Hr.
    assert (E : inject_Z (rne (x / 2 ^ e)) * 2 ^ e - x
                == (inject_Z (rne (x / 2 ^ e)) - x / 2 ^ e) * 2 ^ e).
    { field. intros E. rewrite E in Hpe. by apply Qlt_irrefl in Hpe. }
    rewrite E, Qabs_Qmult, (Qabs_pos (2 ^ e)) by lra.
    apply Qle_trans with ((1 # 2) * 2 ^ e).
    + apply Qmult_le_compat_r; [done|lra].
    + replace (k - 54)%Z with (-1 + (k - 53))%Z by lia.
      rewrite Qpow2_add. change (2 ^ (-1)) with (1 # 2).
      apply Qmult_le_l; [reflexivity|]. apply Qpow2_le. lia.
  - rewrite round_0 by (by symmetry).
    assert (E : 0 - x == 0) by lra. rewrite E. simpl.
    apply Qlt_le_weak, Qpow2_pos.
Qed.

(** A double below 1 is at most [1 - 2^-53]. *)
Lemma double_below_1 u : is_double u → u < 1 → u <= 1 - 2 ^ (-53).
Proof.
  intros (m & e & Hm & He & Hu) H1.
  destruct (Z_le_gt_dec (-53) e) as [Hle|Hgt].
  - (* [u * 2^53] is an integer *)
    pose proof (scale_int m e (-53) Hle) as Hs. rewrite <- Hu in Hs.
    set (N := (m * 2 ^ (e - -53))%Z) in *.
    assert (HN : (N < 2 ^ 53)%Z).
    { rewrite Zlt_Qlt. rewrite <- (Qpow2_Z 53) by lia.
      apply Qmult_lt_r with (2 ^ (-53)); [apply Qpow2_pos|].
      rewrite <- Hs, <- Qpow2_add. simpl. lra. }
    rewrite Hs.
    apply Qle_trans with (inject_Z (2 ^ 53 - 1) * 2 ^ (-53)).
    + apply Qmult_le_compat_r; [rewrite <- Zle_Qle; lia|].
      apply Qlt_le_weak, Qpow2_pos.
    + vm_compute. discriminate.
  - apply Qle_trans with (1 # 2); [|vm_compute; discriminate].
    rewrite Hu. apply Qle_trans with (inject_Z (2 ^ 53) * 2 ^ e).
    + apply Qmult_le_compat_r; [rewrite <- Zle_Qle; lia|].
      apply Qlt_le_weak, Qpow2_pos.
    + rewrite <- (Qpow2_Z 53) by lia. rewrite <- Qpow2_add.
      change (1 # 2) with (2 ^ (-1)). apply Qpow2_le. lia.
Qed.

(** What [round] returns is a multiple of a power of two by an integer of
    at most 53 bits. *)
Lemma round_repr x : 0 <= x → repr (round x).
Proof.
  intros H0. destruct (Qle_lt_or_eq _ _ H0) as [Hx|Hz].
  - destruct (round_pos x Hx) as [-> He].
    set (e := ulp_exp x) in *. pose proof (Qpow2_pos e) as Hpe.
    destruct (ilog2_spec x Hx) as [_ Hk]. set (k := ilog2 x) in *.
    assert (Hlo : (0 ≤ rne (x / 2 ^ e))%Z).
    { apply rne_ge_int. change (inject_Z 0) with 0.
      apply Qle_shift_div_l; [done|]. lra. }
    assert (Hhi : (rne (x / 2 ^ e) ≤ 2 ^ 53)%Z).
    { apply rne_le_int. rewrite <- (Qpow2_Z 53) by lia.
      apply Qle_shift_div_r; [done|]. rewrite <- Qpow2_add.
      apply Qle_trans with (2 ^ (k + 1)); [lra|]. apply Qpow2_le. lia. }
    destruct (Z.eq_dec (rne (x / 2 ^ e)) (2 ^ 53)%Z) as [E|E].
    + exists 1%Z, (53 + e)%Z. split; [lia|]. split; [lia|].
      rewrite E, Qpow2_add, <- (Qpow2_Z 53) by lia. ring.
    + exists (rne (x / 2 ^ e)), e. split; [lia|]. split; [lia|]. reflexivity.
  - rewrite round_0 by (by symmetry). exists 0%Z, 0%Z.
    split; [lia|]. split; [lia|]. reflexivity.
Qed.

(** On the sample doubles, products and sums rounded by [round] are the
    ones the reference implementation computes, and the literal 0.4 is the
    same double. *)
Example round_agrees_with_reference :
  forallb (λ x, forallb (agrees x) reference_samples) reference_samples = true ∧
  of_spec_float (SFdiv 53 1024 (binary64 4 0) (binary64 10 0)) == round (4 # 10).
Proof. split; vm_compute; reflexivity. Qed.

End DoubleFacts.

Module DelayFacts.
Import Double DoubleFacts Conn.
Local Open Scope Q_scope.

(** For an attempt that is not negative the pre-jitter delay is computed
    without rounding. *)
Lemma backoff_exp_exact (a : Z) :
  (0 ≤ a)%Z → backoff_exp a == Qmin 30000 (1000 * 2 ^ a).
Proof.
  intros Ha. unfold backoff_exp, MAX_BACKOFF, BASE_RETRY, mul.
  assert (E1 : round (2 ^ a) == 2 ^ a) by (apply round_id, repr_pow2; lia).
  assert (E2 : round (1000 * round (2 ^ a)) == 1000 * 2 ^ a).
  { rewrite (round_eq (1000 * round (2 ^ a)) (1000 * 2 ^ a)).
    - apply round_id. exists 1000%Z, a. split; [lia|]. split; [lia|]. reflexivity.
    - pose proof (Qpow2_pos a). lra.
    - by rewrite E1. }
  by rewrite E2.
Qed.

(** The bounds of a delay, given the integers [d] and [c] that the
    pre-jitter delay and 40% of it are. *)
Lemma delay_bounds (d c : Z) (E C u : Q) :
  E == inject_Z d → C == inject_Z c → (0 < d)%Z → (0 < c)%Z → (d + c < 2 ^ 16)%Z →
  round ((1 - 2 ^ (-53)) * inject_Z c) < inject_Z c →
  is_double u → 0 <= u → u < 1 →
  let jitter := mul u C in
  jitter == mul u (inject_Z c) ∧
  0 <= jitter ∧ jitter < inject_Z c ∧
  add E jitter == add (inject_Z d) jitter ∧
  Qabs (add E jitter - (inject_Z d + jitter)) <= 2 ^ (-38) ∧
  inject_Z d <= add E jitter ∧ add E jitter <= inject_Z (d + c).
Proof.
  intros HE HC Hd Hc Hdc Hmax Hu Hu0 Hu1 jitter.
  assert (Hd' : 0 < inject_Z d) by (change 0 with (inject_Z 0); rewrite <- Zlt_Qlt; lia).
  assert (Hc' : 0 < inject_Z c) by (change 0 with (inject_Z 0); rewrite <- Zlt_Qlt; lia).
  assert (HuC : 0 <= u * C) by (rewrite HC; apply Qmult_le_0_compat; lra).
  assert (Ej : jitter == mul u (inject_Z c)).
  { apply round_eq; [done|]. by rewrite HC. }
  assert (Hj0 : 0 <= jitter) by (by apply round_nonneg).
  assert (Hj1 : jitter < inject_Z c).
  { rewrite Ej. apply Qle_lt_trans with (round ((1 - 2 ^ (-53)) * inject_Z c)); [|done].
    apply round_mono; [apply Qmult_le_0_compat; lra|].
    apply Qmult_le_compat_r; [|lra]. by apply double_below_1. }
  assert (Es : add E jitter == add (inject_Z d) jitter).
  { apply round_eq; [lra|]. by rewrite HE. }
  split; [done|]. split; [done|]. split; [done|]. split; [done|].
  rewrite Es. unfold add. split; [|split].
  - apply (round_error _ 16); [lra| |lia].
    rewrite (Qpow2_Z 16) by lia.
    apply Qlt_trans with (inject_Z d + inject_Z c); [lra|].
    rewrite <- inject_Z_plus, <- Zlt_Qlt. done.
  - apply round_ge; [|lra|lra]. apply repr_Z. lia.
  - apply round_le; [apply repr_Z; lia|lra|]. rewrite inject_Z_plus. lra.
Qed.

(** One attempt, given the integers that its pre-jitter delay and 40% of
    it are. *)
Lemma delay_case (D c a : Z) (u : Q) :
  backoff_exp a == inject_Z D →
  mul (backoff_exp a) (round (4 # 10)) == inject_Z c →
  Qmin 30000 (1000 * 2 ^ a) == inject_Z D →
  (4 # 10) * inject_Z D == inject_Z c →
  (0 < D)%Z → (0 < c)%Z → (D + c < 2 ^ 16)%Z →
  round ((1 - 2 ^ (-53)) * inject_Z c) < inject_Z c →
  is_double u → 0 <= u → u < 1 →
  let d := Qmin 30000 (1000 * 2 ^ a) in
  let jitter := mul u (mul (backoff_exp a) (round (4 # 10))) in
  let delay := getBackoffDelay a u in
  jitter == mul u ((4 # 10) * d) ∧
  0 <= jitter ∧ jitter < (4 # 10) * d ∧
  delay == add d jitter ∧
  Qabs (delay - (d + jitter)) <= 2 ^ (-38) ∧
  d <= delay ∧ delay <= (14 # 10) * d.
Proof.
  intros HE HC Hd H4 HD Hc Hsum Hmax Hu Hu0 Hu1 d jitter delay.
  destruct (delay_bounds D c (backoff_exp a) (mul (backoff_exp a) (round (4 # 10))) u
              HE HC HD Hc Hsum Hmax Hu Hu0 Hu1)
    as (Ej & Hj0 & Hj1 & Es & Herr & Hlo & Hhi).
  fold jitter in Ej, Hj0, Hj1, Es, Herr, Hlo, Hhi.
  change (add (backoff_exp a) jitter) with delay in Es, Herr, Hlo, Hhi.
  assert (Hc' : 0 < inject_Z c) by (change 0 with (inject_Z 0); rewrite <- Zlt_Qlt; lia).
  assert (HD' : 0 < inject_Z D) by (change 0 with (inject_Z 0); rewrite <- Zlt_Qlt; lia).
  assert (E4 : (4 # 10) * d == inject_Z c) by (unfold d; by rewrite Hd).
  assert (E14 : (14 # 10) * d == inject_Z (D + c)).
  { rewrite inject_Z_plus, <- H4. unfold d. rewrite Hd. ring. }
  split; [|split; [done|split; [by rewrite E4|split; [|split; [|split]]]]].
  - rewrite Ej. apply round_eq; [apply Qmult_le_0_compat; lra|]. by rewrite E4.
  - rewrite Es. apply round_eq; [lra|]. unfold d. by rewrite Hd.
  - unfold d. by rewrite Hd.
  - unfold d. by rewrite Hd.
  - by rewrite E14.
Qed.

Ltac by_computation := vm_compute; first [reflexivity | discriminate | done].

(** The delay of [getBackoffDelay(attempt)] for the attempts the program
    passes, 1 to 6. *)
Lemma delay_of_attempt (a : Z) (u : Q) :
  (1 ≤ a ≤ 6)%Z → is_double u → 0 <= u → u < 1 →
  let d := Qmin 30000 (1000 * 2 ^ a) in
  let jitter := mul u (mul (backoff_exp a) (round (4 # 10))) in
  let delay := getBackoffDelay a u in
  jitter == mul u ((4 # 10) * d) ∧
  0 <= jitter ∧ jitter < (4 # 10) * d ∧
  delay == add d jitter ∧
  Qabs (delay - (d + jitter)) <= 2 ^ (-38) ∧
  d <= delay ∧ delay <= (14 # 10) * d.
Proof.
  intros Ha Hu Hu0 Hu1.
  assert (a = 1 ∨ a = 2 ∨ a = 3 ∨ a = 4 ∨ a = 5 ∨ a = 6)%Z
    as [->|[->|[->|[->|[->| ->]]]]] by lia.
  - apply (delay_case 2000 800); (done || by_computation).
  - apply (delay_case 4000 1600); (done || by_computation).
  - apply (delay_case 8000 3200); (done || by_computation).
  - apply (delay_case 16000 6400); (done || by_computation).
  - apply (delay_case 30000 12000); (done || by_computation).
  - apply (delay_case 30000 12000); (done || by_computation).
Qed.

(** The largest draw, [1 - 2^-53], at the first retry: the product
    [u * 800] rounds to the double below 800, and the sum to 2800, which is
    1.4 times the pre-jitter delay. *)
Example delay_reaches_upper_bound :
  is_double (1 - 2 ^ (-53)) ∧
  mul (1 - 2 ^ (-53)) (mul (backoff_exp 1) (round (4 # 10))) == 800 - 2 ^ (-43) ∧
  getBackoffDelay 1 (1 - 2 ^ (-53)) == 2800 ∧
  ¬ getBackoffDelay 1 (1 - 2 ^ (-53)) < (14 # 10) * backoff_exp 1.
Proof.
  split; [|split; [by_computation|split; [by_computation|]]].
  - exists (2 ^ 53 - 1)%Z, (-53)%Z. split; [by_computation|]. split; [lia|].
    by_computation.
  - intros H. vm_compute in H. discriminate.
Qed.

(** The same delay computed by the reference implementation of the
    Standard Library. *)
Example delay_agrees_with_reference :
  let d := binary64 2000 0 in
  let u := binary64 (2 ^ 53 - 1) (-53) in
  let c04 := SFdiv 53 1024 (binary64 4 0) (binary64 10 0) in
  of_spec_float (SFadd 53 1024 d (SFmul 53 1024 u (SFmul 53 1024 d c04)))
    == getBackoffDelay 1 (of_spec_float u).
Proof. vm_compute. reflexivity. Qed.

End DelayFacts.

Module ConnFacts.
Import Conn.

Lemma ws_live_false_no_live st :
  Inv st → ws_live st = false →
  ∀ i s, socks st !! i = Some s → is_live (sock_state s) = false.
Proof.
  intros HI Hl i s Hs.
  destruct (is_live (sock_state s)) eqn:E; [|done].
  pose proof (inv_live_is_ws _ HI i s Hs E) as Hw.
  unfold ws_live, ws_state in Hl. rewrite Hw in Hl. simpl in Hl.
  rewrite Hs in Hl. simpl in Hl. congruence.
Qed.

Lemma Inv_initial : Inv initial.
Proof.
  split; simpl; try lia; done.
Qed.

Lemma relay_lookup (n : nat) :
  (n < length DEFAULT_RELAYS)%nat → is_Some (DEFAULT_RELAYS !! n).
Proof. apply lookup_lt_is_Some_2. Qed.

Lemma connect_live st :
  ws_live st = true → isManuallyClosed st = false → connectToWebSocket st = st.
Proof.
  intros Hl Hm. unfold connectToWebSocket. rewrite Hm. by rewrite Hl.
Qed.

Lemma Inv_connect st : Inv st → Inv (connectToWebSocket st).
Proof.
  intros HI. unfold connectToWebSocket.
  destruct (isManuallyClosed st) eqn:Hm.
  - (* the flag was set: [ws] is null, a fresh socket is made *)
    pose proof (inv_closed _ HI Hm) as Hw.
    assert (Hnl : ws_live st = false) by (unfold ws_live, ws_state; by rewrite Hw).
    pose proof (ws_live_false_no_live _ HI Hnl) as Hdead.
    unfold ws_live, ws_state; simpl. rewrite Hw; simpl.
    destruct (relay_lookup _ (inv_relay _ HI)) as [url ->].
    split; simpl; [ | apply (inv_relay _ HI) | done | apply (inv_retry _ HI)].
    intros i s Hs Hlive.
    apply lookup_app_Some in Hs as [Hs | [Hge Hs]].
    + rewrite (Hdead i s Hs) in Hlive. done.
    + apply list_lookup_singleton_Some in Hs as [Hi _].
      f_equal. lia.
  - destruct (ws_live st) eqn:Hl; [done|].
    pose proof (ws_live_false_no_live _ HI Hl) as Hdead.
    destruct (relay_lookup _ (inv_relay _ HI)) as [url ->].
    split; simpl; [ | apply (inv_relay _ HI) | congruence | apply (inv_retry _ HI)].
    intros i s Hs Hlive.
    apply lookup_app_Some in Hs as [Hs | [Hge Hs]].
    + rewrite (Hdead i s Hs) in Hlive. done.
    + apply list_lookup_singleton_Some in Hs as [Hi _].
      f_equal. lia.
Qed.

Lemma Inv_notify b st : Inv st → Inv (notifyState b st).
Proof. intros [H1 H2 H3 H4]. by split. Qed.

Lemma Inv_close st : Inv st → Inv (closeWebSocket st).
Proof.
  intros HI. unfold closeWebSocket. apply Inv_notify.
  split; simpl; [ | cbv [DEFAULT_RELAYS]; simpl; lia | done | lia].
  intros i s Hs Hlive. exfalso.
  destruct (ws st) as [j|] eqn:Hw.
  - destruct (socks st !! j) as [sj|] eqn:Hj.
    + destruct (decide (j = i)) as [->|Hne].
      * rewrite list_lookup_insert_eq in Hs by (by eapply lookup_lt_Some).
        inversion Hs; subst s. simpl in Hlive.
        by destruct (sock_state sj).
      * rewrite list_lookup_insert_ne in Hs by done.
        pose proof (inv_live_is_ws _ HI i s Hs Hlive). congruence.
    + pose proof (inv_live_is_ws _ HI i s Hs Hlive) as Hw'.
      rewrite Hw in Hw'. inversion Hw'; subst. congruence.
  - pose proof (inv_live_is_ws _ HI i s Hs Hlive). congruence.
Qed.

Lemma Inv_advance st i s r :
  Inv st → socks st !! i = Some s → (rank (sock_state s) < rank r)%nat →
  Inv (set_sock_state i r st).
Proof.
  intros HI Hs Hr. unfold set_sock_state. rewrite Hs.
  split; simpl; [ | apply (inv_relay _ HI) | apply (inv_closed _ HI) | apply (inv_retry _ HI)].
  intros j sj Hj Hlive.
  destruct (decide (i = j)) as [->|Hne].
  - rewrite list_lookup_insert_eq in Hj by (by eapply lookup_lt_Some).
    inversion Hj; subst sj. simpl in Hlive.
    apply (inv_live_is_ws _ HI j s Hs).
    destruct (sock_state s), r; simpl in *; try done; lia.
  - rewrite list_lookup_insert_ne in Hj by done.
    by apply (inv_live_is_ws _ HI j sj).
Qed.

Lemma Inv_onopen g st : Inv st → Inv (onopen g st).
Proof.
  intros HI. unfold onopen. destruct (negb (g =? generation st)); [done|].
  apply Inv_notify. destruct HI as [H1 H2 H3 H4]. by split.
Qed.

Lemma Inv_failure g u st : Inv st → Inv (handleWebSocketFailure g u st).
Proof.
  intros HI. unfold handleWebSocketFailure.
  destruct (isManuallyClosed st) eqn:Hm; [done|].
  destruct (negb (g =? generation st)); [done|].
  split; cbn [socks ws currentRelay retryCount isManuallyClosed].
  - apply (inv_live_is_ws _ HI).
  - apply Nat.mod_upper_bound. discriminate.
  - congruence.
  - pose proof (inv_retry _ HI). lia.
Qed.

Lemma Inv_onfailure g u st : Inv st → Inv (onfailure g u st).
Proof.
  intros HI. unfold onfailure. destruct (negb (g =? generation st)); [done|].
  by apply Inv_failure, Inv_notify.
Qed.

Lemma Inv_timer g k st : Inv st → Inv (retryTimer g (drop_timer k st)).
Proof.
  intros HI.
  assert (HI' : Inv (drop_timer k st)) by (destruct HI; by split).
  unfold retryTimer.
  destruct (isManuallyClosed (drop_timer k st)); [done|].
  destruct (negb (g =? generation (drop_timer k st))); [done|].
  by apply Inv_connect.
Qed.

Lemma Inv_step st st' : Inv st → step st st' → Inv st'.
Proof.
  intros HI Hstep. destruct Hstep.
  - by apply Inv_connect.
  - by apply Inv_close.
  - by eapply Inv_advance.
  - by apply Inv_onopen.
  - by apply Inv_onfailure.
  - by apply Inv_timer.
Qed.

Lemma Inv_reachable st : reachable st → Inv st.
Proof.
  induction 1 as [|st st' _ IH Hstep]; [apply Inv_initial | by eapply Inv_step].
Qed.

(** A list in which all elements satisfying [P] sit at one index has at
    most one such element. *)
Lemma filter_at_most_one {A} (P : A → Prop) `{!∀ x, Decision (P x)} (l : list A) :
  (∀ i j x y, l !! i = Some x → P x → l !! j = Some y → P y → i = j) →
  (length (filter P l) ≤ 1)%nat.
Proof.
  induction l as [|a l IH]; intros Huniq; [simpl; lia|].
  rewrite filter_cons. destruct (decide (P a)) as [Ha|Ha].
  - assert (Hnil : filter P l = []).
    { destruct (filter P l) as [|y tl] eqn:E; [done|].
      assert (Hy : y ∈ filter P l) by (rewrite E; left).
      apply list_elem_of_filter in Hy as [Py Hy].
      apply list_elem_of_lookup in Hy as [j Hj].
      pose proof (Huniq 0%nat (S j) a y eq_refl Ha Hj Py). lia. }
    simpl. rewrite Hnil. simpl. lia.
  - apply IH. intros i j x y Hi Px Hj Py.
    pose proof (Huniq (S i) (S j) x y Hi Px Hj Py). lia.
Qed.

Lemma Inv_live_count st : Inv st → (live_count st ≤ 1)%nat.
Proof.
  intros HI. unfold live_count. apply filter_at_most_one.
  intros i j x y Hi Px Hj Py.
  pose proof (inv_live_is_ws _ HI i x Hi Px).
  pose proof (inv_live_is_ws _ HI j y Hj Py). congruence.
Qed.

Lemma connect_idle st :
  Inv st → ws_live st = false →
  ∃ url,
    DEFAULT_RELAYS !! currentRelay st = Some url ∧
    socks (connectToWebSocket st)
      = socks st ++ [mkSocket url (generation st + 1) CONNECTING true] ∧
    ws (connectToWebSocket st) = Some (length (socks st)) ∧
    generation (connectToWebSocket st) = generation st + 1 ∧
    isManuallyClosed (connectToWebSocket st) = false.
Proof.
  intros HI Hl.
  destruct (relay_lookup _ (inv_relay _ HI)) as [url Hurl].
  exists url. split; [done|].
  unfold connectToWebSocket.
  destruct (isManuallyClosed st) eqn:Hm.
  - assert (Hl' : ws_live
      {| socks := socks st; ws := ws st; currentRelay := currentRelay st;
         retryCount := retryCount st; isManuallyClosed := false;
         generation := generation st; timers := timers st;
         notified := notified st |} = false) by exact Hl.
    rewrite Hl'. simpl. by rewrite Hurl.
  - rewrite Hl, Hurl. simpl. by rewrite Hm.
Qed.

Lemma ws_live_after_connect st :
  Inv st → ws_live st = false → ws_live (connectToWebSocket st) = true.
Proof.
  intros HI Hl.
  destruct (connect_idle st HI Hl) as (url & _ & Hs & Hw & _ & _).
  unfold ws_live, ws_state. rewrite Hw, Hs. simpl.
  rewrite lookup_app_r by lia. by rewrite Nat.sub_diag.
Qed.

(** C1.  In every reachable state of the connection manager:
    if the singleton socket is OPEN or CONNECTING, [connectToWebSocket()]
    changes nothing (no socket is constructed, [generation] keeps its
    value); otherwise two calls in immediate succession construct exactly
    one socket, advance [generation] by exactly one, and the second call is
    a no-op; and at most one socket on the heap is CONNECTING or OPEN, both
    before and after the call. *)
Theorem connect_dedupe (st : State) :
  reachable st →
  (if ws_live st
   then connectToWebSocket st = st
   else length (socks (connectToWebSocket (connectToWebSocket st)))
          = S (length (socks st))
        ∧ generation (connectToWebSocket (connectToWebSocket st))
          = generation st + 1
        ∧ connectToWebSocket (connectToWebSocket st) = connectToWebSocket st)
  ∧ (live_count st ≤ 1)%nat
  ∧ (live_count (connectToWebSocket st) ≤ 1)%nat.
Proof.
  intros Hr. pose proof (Inv_reachable st Hr) as HI.
  split; [|split].
  - destruct (ws_live st) eqn:Hl.
    + apply connect_live; [done|].
      destruct (isManuallyClosed st) eqn:Hm; [|done].
      pose proof (inv_closed _ HI Hm) as Hw.
      unfold ws_live, ws_state in Hl. rewrite Hw in Hl. done.
    + destruct (connect_idle st HI Hl) as (url & _ & Hs & Hw & Hg & Hm).
      pose proof (ws_live_after_connect st HI Hl) as Hl2.
      rewrite (connect_live _ Hl2 Hm).
      rewrite Hs, Hg, length_app. simpl. split; [lia|done].
  - by apply Inv_live_count.
  - by apply Inv_live_count, Inv_connect.
Qed.

(** C1, witness: the very first [connectToWebSocket()] of the process. *)
Lemma connect_dedupe_witness :
  (if ws_live initial
   then connectToWebSocket initial = initial
   else length (socks (connectToWebSocket (connectToWebSocket initial)))
          = S (length (socks initial))
        ∧ generation (connectToWebSocket (connectToWebSocket initial))
          = generation initial + 1
        ∧ connectToWebSocket (connectToWebSocket initial) = connectToWebSocket initial)
  ∧ (live_count initial ≤ 1)%nat
  ∧ (live_count (connectToWebSocket initial) ≤ 1)%nat.
Proof. apply (connect_dedupe initial). apply reachable_initial. Defined.

(** C1, counterexample.  [connectToWebSocket()], [closeWebSocket()] and
    [connectToWebSocket()] again: the socket that [closeWebSocket()] closed is
    still CLOSING when the guard, which looks for OPEN or CONNECTING only,
    lets its successor be constructed.  Two sockets exist, of which one is
    CONNECTING or OPEN. *)
Lemma closing_socket_and_successor :
  reachable reconnect_while_closing ∧
  sock_state <$> socks reconnect_while_closing = [CLOSING; CONNECTING] ∧
  ws reconnect_while_closing = Some 1%nat ∧
  generation reconnect_while_closing = 2 ∧
  live_count reconnect_while_closing = 1%nat ∧
  existing_count reconnect_while_closing = 2%nat ∧
  ¬ (existing_count reconnect_while_closing ≤ 1)%nat.
Proof.
  split.
  - unfold reconnect_while_closing, closed_after_connect.
    apply (reachable_step (closeWebSocket (connectToWebSocket initial)));
      [|apply step_connect].
    apply (reachable_step (connectToWebSocket initial)); [|apply step_close].
    apply (reachable_step initial); [apply reachable_initial | apply step_connect].
  - repeat split; try (vm_compute; reflexivity).
    vm_compute. lia.
Qed.

(** The first four reconnect delays before jitter, in milliseconds, and
    the plateau. *)
Example backoff_exp_table :
  (backoff_exp 1 == 2000)%Q ∧ (backoff_exp 2 == 4000)%Q ∧
  (backoff_exp 3 == 8000)%Q ∧ (backoff_exp 4 == 16000)%Q ∧
  (backoff_exp 5 == 30000)%Q ∧ (backoff_exp 6 == 30000)%Q.
Proof. vm_compute. done. Qed.

(** The pre-jitter delay as an integer number of milliseconds. *)
Lemma backoff_exp_Z (a : Z) :
  0 ≤ a → (backoff_exp a == inject_Z (Z.min 30000 (1000 * 2 ^ a)))%Q.
Proof.
  intros Ha. rewrite DelayFacts.backoff_exp_exact by done.
  assert (E : (1000 * 2 ^ a == inject_Z (1000 * 2 ^ a))%Q).
  { rewrite inject_Z_mult, Zpower_Qpower by done. reflexivity. }
  rewrite E.
  destruct (Z.min_spec 30000 (1000 * 2 ^ a)) as [[Hlt ->]|[Hle ->]].
  - apply Q.min_l. change 30000%Q with (inject_Z 30000).
    rewrite <- Zle_Qle. lia.
  - apply Q.min_r. change 30000%Q with (inject_Z 30000).
    rewrite <- Zle_Qle. lia.
Qed.

Lemma backoff_exp_mono (a b : Z) :
  0 ≤ a ≤ b → (backoff_exp a <= backoff_exp b)%Q.
Proof.
  intros H. rewrite !backoff_exp_Z by lia. rewrite <- Zle_Qle.
  apply Z.min_le_compat_l, Z.mul_le_mono_nonneg_l; [lia|].
  apply Z.pow_le_mono_r; lia.
Qed.

Lemma backoff_exp_bounds (a : Z) :
  0 ≤ a → (1000 <= backoff_exp a)%Q ∧ (backoff_exp a <= 30000)%Q.
Proof.
  intros H. rewrite backoff_exp_Z by lia.
  change 1000%Q with (inject_Z 1000). change 30000%Q with (inject_Z 30000).
  rewrite <- !Zle_Qle.
  assert (1 ≤ 2 ^ a) by (apply (Z.pow_le_mono_r 2 0 a); lia). lia.
Qed.

Lemma backoff_exp_plateau (a : Z) : 5 ≤ a → (backoff_exp a == 30000)%Q.
Proof.
  intros H. rewrite backoff_exp_Z by lia.
  assert (32 ≤ 2 ^ a) by (apply (Z.pow_le_mono_r 2 5 a); lia).
  rewrite Z.min_l by lia. reflexivity.
Qed.

(** C4.  A failure of the current connection (not manually closed, retry
    counter [retryCount st >= 0], [Math.random()] returning a double [u] in
    [0,1)) schedules exactly one reconnect.  With [r] the incremented retry
    counter and [d = min(30000, 1000 * 2^min(r,6))], which the program
    computes without rounding: the jitter is the product of [u] and
    [0.4 * d] rounded to a double, and lies in [0, 0.4 d); the delay is the
    sum of [d] and the jitter rounded to a double, within 2^-38 ms of the
    sum, and lies in [d, 1.4 d]; [d] does not decrease when the counter
    grows, never exceeds 30000 ms and equals 30000 ms from [r = 5] on. *)
Theorem reconnect_delay (st : State) (u : Q) :
  isManuallyClosed st = false → 0 ≤ retryCount st →
  Double.is_double u → (0 <= u)%Q → (u < 1)%Q →
  let st' := handleWebSocketFailure (generation st) u st in
  let r := retryCount st' in
  let d := Qmin 30000 (1000 * 2 ^ Z.min r 6)%Q in
  r = retryCount st + 1 ∧
  ∃ jitter delay : Q,
    timers st' = timers st ++ [(generation st, delay)] ∧
    (jitter == Double.mul u ((4 # 10) * d))%Q ∧
    (0 <= jitter)%Q ∧ (jitter < (4 # 10) * d)%Q ∧
    (delay == Double.add d jitter)%Q ∧
    (Qabs (delay - (d + jitter)) <= 2 ^ (-38))%Q ∧
    (d <= delay)%Q ∧ (delay <= (14 # 10) * d)%Q ∧
    (∀ r', r ≤ r' → (d <= Qmin 30000 (1000 * 2 ^ Z.min r' 6))%Q) ∧
    (d <= 30000)%Q ∧
    (5 ≤ r → (d == 30000)%Q).
Proof.
  intros Hm Hr Hu Hu0 Hu1. unfold handleWebSocketFailure.
  rewrite Hm, Z.eqb_refl. cbn [negb retryCount timers].
  split; [done|].
  set (a := Z.min (retryCount st + 1) 6).
  destruct (DelayFacts.delay_of_attempt a u ltac:(lia) Hu Hu0 Hu1)
    as (Ej & Hj0 & Hj1 & Ed & Herr & Hlo & Hhi).
  exists (Double.mul u (Double.mul (backoff_exp a) (Double.round (4 # 10)))),
         (getBackoffDelay a u).
  split; [done|]. do 7 (split; [done|]).
  split; [|split].
  - intros r' Hr'. rewrite <- !DelayFacts.backoff_exp_exact by lia.
    apply backoff_exp_mono. lia.
  - rewrite <- DelayFacts.backoff_exp_exact by lia. apply backoff_exp_bounds. lia.
  - intros H5. rewrite <- DelayFacts.backoff_exp_exact by lia.
    apply backoff_exp_plateau. lia.
Qed.

(** C4, witness: the first failure after start-up, jitter draw 1/2. *)
Lemma reconnect_delay_witness :
  let st' := handleWebSocketFailure (generation initial) (1 # 2) initial in
  let r := retryCount st' in
  let d := Qmin 30000 (1000 * 2 ^ Z.min r 6)%Q in
  r = retryCount initial + 1 ∧
  ∃ jitter delay : Q,
    timers st' = timers initial ++ [(generation initial, delay)] ∧
    (jitter == Double.mul (1 # 2) ((4 # 10) * d))%Q ∧
    (0 <= jitter)%Q ∧ (jitter < (4 # 10) * d)%Q ∧
    (delay == Double.add d jitter)%Q ∧
    (Qabs (delay - (d + jitter)) <= 2 ^ (-38))%Q ∧
    (d <= delay)%Q ∧ (delay <= (14 # 10) * d)%Q ∧
    (∀ r', r ≤ r' → (d <= Qmin 30000 (1000 * 2 ^ Z.min r' 6))%Q) ∧
    (d <= 30000)%Q ∧
    (5 ≤ r → (d == 30000)%Q).
Proof.
  apply (reconnect_delay initial (1 # 2)).
  - reflexivity.
  - simpl. lia.
  - exists 1, (-1). split; [reflexivity|]. split; [lia|]. reflexivity.
  - unfold Qle. simpl. lia.
  - unfold Qlt. simpl. lia.
Defined.

(** *** Generations *)

Lemma GenInv_initial : GenInv initial.
Proof. split; intros i s Hs; simpl in Hs; done. Qed.

Lemma GenInv_connect st : GenInv st → GenInv (connectToWebSocket st).
Proof.
  intros [Hle Hcur]. unfold connectToWebSocket.
  set (st1 := if isManuallyClosed st then _ else st).
  assert (E : socks st1 = socks st ∧ ws st1 = ws st ∧ generation st1 = generation st)
    by (unfold st1; by destruct (isManuallyClosed st)).
  destruct E as (Es & Ew & Eg).
  destruct (ws_live st1); [split; rewrite ?Es, ?Ew, ?Eg; done|].
  destruct (DEFAULT_RELAYS !! currentRelay st1) as [url|].
  - split; cbn [socks ws generation]; rewrite ?Es, ?Eg; intros i s Hs.
    + apply lookup_app_Some in Hs as [Hs | [_ Hs]].
      * pose proof (Hle i s Hs). lia.
      * apply list_lookup_singleton_Some in Hs as [_ <-]. simpl. lia.
    + intros _ Hg. apply lookup_app_Some in Hs as [Hs | [Hge Hs]].
      * pose proof (Hle i s Hs). lia.
      * apply list_lookup_singleton_Some in Hs as [Hi _]. f_equal. lia.
  - split; cbn [socks ws generation]; rewrite ?Es, ?Eg, ?Ew; intros i s Hs.
    + pose proof (Hle i s Hs). lia.
    + intros _ Hg. pose proof (Hle i s Hs). lia.
Qed.

Lemma GenInv_notify b st : GenInv st → GenInv (notifyState b st).
Proof. intros [H1 H2]. by split. Qed.

Lemma GenInv_close st : GenInv st → GenInv (closeWebSocket st).
Proof.
  intros [Hle Hcur]. unfold closeWebSocket. apply GenInv_notify.
  split; cbn [socks ws generation]; intros i s Hs.
  - destruct (ws st) as [j|]; [|by eapply Hle].
    destruct (socks st !! j) as [sj|] eqn:Hj; [|by eapply Hle].
    destruct (decide (j = i)) as [->|Hne].
    + rewrite list_lookup_insert_eq in Hs by (by eapply lookup_lt_Some).
      inversion Hs; subst s. simpl. by eapply Hle.
    + rewrite list_lookup_insert_ne in Hs by done. by eapply Hle.
  - intros Hh Hg. exfalso.
    destruct (ws st) as [j|] eqn:Hw.
    + destruct (socks st !! j) as [sj|] eqn:Hj.
      * destruct (decide (j = i)) as [->|Hne].
        -- rewrite list_lookup_insert_eq in Hs by (by eapply lookup_lt_Some).
           inversion Hs; subst s. done.
        -- rewrite list_lookup_insert_ne in Hs by done.
           pose proof (Hcur i s Hs Hh Hg). congruence.
      * pose proof (Hcur i s Hs Hh Hg) as E.
        inversion E; subst. congruence.
    + pose proof (Hcur i s Hs Hh Hg). congruence.
Qed.

Lemma GenInv_advance st i r : GenInv st → GenInv (set_sock_state i r st).
Proof.
  intros [Hle Hcur]. unfold set_sock_state.
  destruct (socks st !! i) as [s|] eqn:Hs; [|by split].
  split; cbn [socks ws generation]; intros j sj Hj.
  - destruct (decide (i = j)) as [->|Hne].
    + rewrite list_lookup_insert_eq in Hj by (by eapply lookup_lt_Some).
      inversion Hj; subst sj. simpl. by eapply Hle.
    + rewrite list_lookup_insert_ne in Hj by done. by eapply Hle.
  - destruct (decide (i = j)) as [->|Hne].
    + rewrite list_lookup_insert_eq in Hj by (by eapply lookup_lt_Some).
      inversion Hj; subst sj. simpl. by apply Hcur.
    + rewrite list_lookup_insert_ne in Hj by done. by apply Hcur.
Qed.

Lemma GenInv_onopen g st : GenInv st → GenInv (onopen g st).
Proof.
  intros HI. unfold onopen. destruct (negb (g =? generation st)); [done|].
  apply GenInv_notify. destruct HI as [H1 H2]. by split.
Qed.

Lemma GenInv_failure g u st : GenInv st → GenInv (handleWebSocketFailure g u st).
Proof.
  intros HI. unfold handleWebSocketFailure.
  destruct (isManuallyClosed st); [done|].
  destruct (negb (g =? generation st)); [done|].
  destruct HI as [H1 H2]. by split.
Qed.

Lemma GenInv_onfailure g u st : GenInv st → GenInv (onfailure g u st).
Proof.
  intros HI. unfold onfailure. destruct (negb (g =? generation st)); [done|].
  by apply GenInv_failure, GenInv_notify.
Qed.

Lemma GenInv_timer g k st : GenInv st → GenInv (retryTimer g (drop_timer k st)).
Proof.
  intros HI.
  assert (HI' : GenInv (drop_timer k st)) by (destruct HI; by split).
  unfold retryTimer.
  destruct (isManuallyClosed (drop_timer k st)); [done|].
  destruct (negb (g =? generation (drop_timer k st))); [done|].
  by apply GenInv_connect.
Qed.

Lemma GenInv_reachable st : reachable st → GenInv st.
Proof.
  induction 1 as [|st st' _ IH Hstep]; [apply GenInv_initial|].
  destruct Hstep.
  - by apply GenInv_connect.
  - by apply GenInv_close.
  - by apply GenInv_advance.
  - by apply GenInv_onopen.
  - by apply GenInv_onfailure.
  - by apply GenInv_timer.
Qed.

Lemma stale_generation st i s :
  reachable st → socks st !! i = Some s → sock_handlers s = true → ws st ≠ Some i →
  sock_gen s < generation st.
Proof.
  intros Hr Hs Hh Hw. destruct (GenInv_reachable st Hr) as [Hle Hcur].
  assert (Hne : sock_gen s ≠ generation st) by (intros E; apply Hw; by apply (Hcur i s)).
  pose proof (Hle i s Hs). lia.
Qed.

Lemma stale_callbacks g st :
  g < generation st → onopen g st = st ∧ ∀ u, onfailure g u st = st.
Proof.
  intros Hg.
  assert (Hb : negb (g =? generation st) = true)
    by (apply negb_true_iff, Z.eqb_neq; lia).
  unfold onopen, onfailure. by rewrite Hb.
Qed.

(** X1.  In every reachable state, a socket that still has its handlers
    but is not the one [ws] refers to carries a generation older than the
    current one, so its [onopen], [onerror] and [onclose] change nothing:
    no retry is scheduled, the retry counter is not reset and no state
    notification is made on behalf of a superseded socket. *)
Theorem stale_socket_ignored (st : State) (i : nat) (s : Socket) :
  reachable st → socks st !! i = Some s → sock_handlers s = true → ws st ≠ Some i →
  onopen (sock_gen s) st = st ∧
  (∀ u, onfailure (sock_gen s) u st = st) ∧
  sock_gen s < generation st.
Proof.
  intros Hr Hs Hh Hw. pose proof (stale_generation st i s Hr Hs Hh Hw) as Hg.
  destruct (stale_callbacks _ st Hg) as [H1 H2]. done.
Qed.

Lemma superseded_reachable : reachable superseded.
Proof.
  unfold superseded, first_failure.
  apply (reachable_step (set_sock_state 0 CLOSED (connectToWebSocket initial)));
    [|apply step_connect].
  apply (reachable_step (connectToWebSocket initial)).
  - apply (reachable_step initial); [apply reachable_initial|apply step_connect].
  - eapply step_advance; [reflexivity|simpl; lia].
Qed.

(** X1, witness: the first socket after a second one has replaced it. *)
Lemma stale_socket_ignored_witness :
  ∃ s, socks superseded !! 0%nat = Some s ∧
  onopen (sock_gen s) superseded = superseded ∧
  (∀ u, onfailure (sock_gen s) u superseded = superseded) ∧
  sock_gen s < generation superseded.
Proof.
  eexists. split; [reflexivity|].
  apply (stale_socket_ignored superseded 0%nat);
    [apply superseded_reachable | reflexivity | reflexivity | vm_compute; congruence].
Defined.

(** X2.  In every reachable state in which [isManuallyClosed] is set
    ([closeWebSocket()] was the last of connect and close): [ws] is null,
    no socket on the heap is CONNECTING or OPEN, the events of every socket
    that still has handlers are ignored, a failure report schedules nothing
    and a retry timer that fires does not reconnect. *)
Theorem closed_stays_closed (st : State) :
  reachable st → isManuallyClosed st = true →
  ws st = None ∧ live_count st = 0%nat ∧
  (∀ i s, socks st !! i = Some s → sock_handlers s = true →
          onopen (sock_gen s) st = st ∧ ∀ u, onfailure (sock_gen s) u st = st) ∧
  (∀ g u, handleWebSocketFailure g u st = st) ∧
  (∀ g k, retryTimer g (drop_timer k st) = drop_timer k st).
Proof.
  intros Hr Hm. pose proof (Inv_reachable st Hr) as HI.
  pose proof (inv_closed _ HI Hm) as Hw.
  split; [done|]. split; [|split; [|split]].
  - unfold live_count.
    destruct (filter _ (socks st)) as [|y tl] eqn:E; [done|].
    assert (Hy : y ∈ filter (λ s, is_live (sock_state s) = true) (socks st))
      by (rewrite E; left).
    apply list_elem_of_filter in Hy as [Py Hy].
    apply list_elem_of_lookup in Hy as [j Hj].
    pose proof (inv_live_is_ws _ HI j y Hj Py). congruence.
  - intros i s Hs Hh.
    apply stale_callbacks, (stale_generation st i s); [done|done|done|congruence].
  - intros g u. unfold handleWebSocketFailure. by rewrite Hm.
  - intros g k. unfold retryTimer. cbn [drop_timer isManuallyClosed]. by rewrite Hm.
Qed.

Lemma closed_after_connect_reachable : reachable closed_after_connect.
Proof.
  apply (reachable_step (connectToWebSocket initial)); [|apply step_close].
  apply (reachable_step initial); [apply reachable_initial|apply step_connect].
Qed.

(** X2, witness: a close right after the first connect. *)
Lemma closed_stays_closed_witness :
  ws closed_after_connect = None ∧ live_count closed_after_connect = 0%nat ∧
  (∀ i s, socks closed_after_connect !! i = Some s → sock_handlers s = true →
          onopen (sock_gen s) closed_after_connect = closed_after_connect ∧
          ∀ u, onfailure (sock_gen s) u closed_after_connect = closed_after_connect) ∧
  (∀ g u, handleWebSocketFailure g u closed_after_connect = closed_after_connect) ∧
  (∀ g k, retryTimer g (drop_timer k closed_after_connect)
          = drop_timer k closed_after_connect).
Proof.
  apply (closed_stays_closed closed_after_connect);
    [apply closed_after_connect_reachable|reflexivity].
Defined.

(** *** Failures and timers *)

Lemma failures_spec n g u st :
  isManuallyClosed st = false → g = generation st →
  (currentRelay st < length DEFAULT_RELAYS)%nat →
  let st' := failures n g u st in
  currentRelay st' = ((currentRelay st + n) mod length DEFAULT_RELAYS)%nat ∧
  retryCount st' = retryCount st + Z.of_nat n ∧
  length (timers st') = (length (timers st) + n)%nat ∧
  socks st' = socks st ∧ ws st' = ws st ∧ generation st' = generation st ∧
  isManuallyClosed st' = false.
Proof.
  intros Hm -> Hc. induction n as [|n IH]; cbn zeta in *.
  - cbn [failures]. rewrite Nat.add_0_r, Nat.mod_small by done.
    repeat split; try done; lia.
  - destruct IH as (H1 & H2 & H3 & H4 & H5 & H6 & H7).
    cbn [failures]. unfold handleWebSocketFailure.
    rewrite H7, H6, Z.eqb_refl. cbn [negb].
    cbn [currentRelay retryCount timers socks ws generation isManuallyClosed].
    rewrite H1, H2, length_app, H3. cbn [length].
    split; [|repeat split; try done; lia].
    rewrite Nat.Div0.add_mod_idemp_l. f_equal. lia.
Qed.

(** X3.  While the manager is not manually closed, [n] failure reports of
    the current generation in a row move [currentRelay] forward by [n]
    places around the relay list, add [n] to [retryCount], schedule [n]
    timers and construct no socket; after as many reports as there are
    relays, [currentRelay] is back where it started. *)
Theorem relay_rotation (n : nat) (u : nat → Q) (st : State) :
  isManuallyClosed st = false → (currentRelay st < length DEFAULT_RELAYS)%nat →
  let st' := failures n (generation st) u st in
  currentRelay st' = ((currentRelay st + n) mod length DEFAULT_RELAYS)%nat ∧
  retryCount st' = retryCount st + Z.of_nat n ∧
  length (timers st') = (length (timers st) + n)%nat ∧
  socks st' = socks st ∧
  currentRelay (failures (length DEFAULT_RELAYS) (generation st) u st) = currentRelay st.
Proof.
  intros Hm Hc.
  destruct (failures_spec n (generation st) u st Hm eq_refl Hc) as (H1 & H2 & H3 & H4 & _).
  destruct (failures_spec (length DEFAULT_RELAYS) (generation st) u st Hm eq_refl Hc)
    as (H1' & _).
  cbn zeta. repeat split; try done.
  rewrite H1'.
  rewrite <- Nat.Div0.add_mod_idemp_r, Nat.Div0.mod_same, Nat.add_0_r.
  by apply Nat.mod_small.
Qed.

(** X3, witness: [onerror] then [onclose] of the first socket. *)
Lemma relay_rotation_witness :
  let st' := failures 2 (generation first_failure) (λ _, 1 # 2)%Q first_failure in
  currentRelay st' = ((currentRelay first_failure + 2) mod length DEFAULT_RELAYS)%nat ∧
  retryCount st' = retryCount first_failure + Z.of_nat 2 ∧
  length (timers st') = (length (timers first_failure) + 2)%nat ∧
  socks st' = socks first_failure ∧
  currentRelay (failures (length DEFAULT_RELAYS) (generation first_failure)
                  (λ _, 1 # 2)%Q first_failure) = currentRelay first_failure.
Proof.
  apply (relay_rotation 2 (λ _, 1 # 2)%Q first_failure); [reflexivity|].
  vm_compute. lia.
Defined.

Lemma connect_drop_timer k st :
  connectToWebSocket (drop_timer k st) = drop_timer k (connectToWebSocket st).
Proof.
  destruct st as [sk w cr rc mc gn tm nt].
  unfold connectToWebSocket, drop_timer, ws_live, ws_state.
  destruct mc; destruct w as [i|]; simpl;
    try (destruct (sk !! i) as [s|]; simpl; [destruct (is_live (sock_state s)); [done|]|]);
    by destruct (DEFAULT_RELAYS !! cr).
Qed.

Lemma retryTimer_drop_timer g k st :
  retryTimer g (drop_timer k st) = drop_timer k (retryTimer g st).
Proof.
  unfold retryTimer. cbn [drop_timer isManuallyClosed generation].
  destruct (isManuallyClosed st); [done|].
  destruct (negb (g =? generation st)); [done|]. apply connect_drop_timer.
Qed.

Lemma connect_bumps st :
  isManuallyClosed st = false → ws_live st = false →
  generation (connectToWebSocket st) = generation st + 1 ∧
  isManuallyClosed (connectToWebSocket st) = false.
Proof.
  intros Hm Hl. unfold connectToWebSocket. rewrite Hm, Hl.
  by destruct (DEFAULT_RELAYS !! currentRelay st).
Qed.

Lemma retryTimer_idem g st : retryTimer g (retryTimer g st) = retryTimer g st.
Proof.
  unfold retryTimer at 2 3.
  destruct (isManuallyClosed st) eqn:Hm; [unfold retryTimer; by rewrite Hm|].
  destruct (g =? generation st) eqn:Hg; cbn [negb];
    [|unfold retryTimer; by rewrite Hm, Hg].
  apply Z.eqb_eq in Hg. subst g.
  destruct (ws_live st) eqn:Hl.
  - rewrite (connect_live st Hl Hm).
    unfold retryTimer. rewrite Hm, Z.eqb_refl. cbn [negb].
    by rewrite ?(connect_live st Hl Hm).
  - destruct (connect_bumps st Hm Hl) as [Hg Hf].
    unfold retryTimer. rewrite Hf, Hg.
    replace (generation st =? generation st + 1) with false
      by (symmetry; apply Z.eqb_neq; lia).
    done.
Qed.

(** X4.  Once a retry timer of generation [g] has run, any other retry
    timer of the same generation changes nothing: the first one either
    did nothing itself (manual close, stale generation, or a socket
    already CONNECTING or OPEN) or advanced [generation] past [g].  One
    timer constructs at most one socket. *)
Theorem duplicate_timer_ignored (g : Z) (k : nat) (st : State) :
  let st1 := retryTimer g st in
  retryTimer g (drop_timer k st1) = drop_timer k st1 ∧
  (length (socks st1) ≤ S (length (socks st)))%nat.
Proof.
  cbn zeta. split.
  - by rewrite retryTimer_drop_timer, retryTimer_idem.
  - unfold retryTimer.
    destruct (isManuallyClosed st) eqn:Hm; [lia|].
    destruct (negb (g =? generation st)); [lia|].
    unfold connectToWebSocket. rewrite Hm.
    destruct (ws_live st); [lia|].
    destruct (DEFAULT_RELAYS !! currentRelay st); cbn [socks]; [|lia].
    rewrite length_app. simpl. lia.
Qed.

End ConnFacts.

Module OutboxFacts.
Import Outbox.

Local Open Scope string_scope.
Local Open Scope Z_scope.

(** *** The backoff table *)

Lemma computeBackoffSeconds_spec (n : Z) :
  0 ≤ n → computeBackoffSeconds n = Z.min 300 (2 * 2 ^ n).
Proof.
  intros Hn. unfold computeBackoffSeconds.
  rewrite Z.max_r by lia.
  destruct (Z_le_gt_dec n 10) as [Hle|Hgt].
  - rewrite (Z.min_r 10 n) by lia. f_equal; lia.
  - rewrite (Z.min_l 10 n) by lia.
    assert (2 ^ 11 ≤ 2 ^ n) by (apply Z.pow_le_mono_r; lia).
    change (2 ^ 11) with 2048 in *. change (2 ^ 10) with 1024.
    rewrite !Z.min_l by lia. reflexivity.
Qed.

Example computeBackoffSeconds_table :
  computeBackoffSeconds <$> [0; 1; 2; 3; 4; 5; 6; 7; 8; 9; 50]
  = [2; 4; 8; 16; 32; 64; 128; 256; 300; 300; 300].
Proof. reflexivity. Qed.

(** *** Error classification *)

(** How the messages thrown by the program itself are classified:
    [publishAgoraEvent] and [signEventBestEffort] without a key, [pool.event]
    after a wait that timed out, [pool.event] when [sendRaw] returns false. *)
Example classification_of_own_errors :
  isNoKey (Js.toLowerCase "No private key available for local signing") = true ∧
  (isNoKey (Js.toLowerCase "No relay connection available") = false ∧
   isConnection (Js.toLowerCase "No relay connection available") = true) ∧
  (isNoKey (Js.toLowerCase "Failed to send event") = false ∧
   isConnection (Js.toLowerCase "Failed to send event") = false).
Proof. vm_compute. done. Qed.

(** *** One attempt *)

Lemma classify_status env th item n msg :
  let r := (classify_failure env th item n msg).1 in
  id r = id item ∧ attempts r = n ∧ lastError r = Some msg ∧
  (status r = queued ∨ status r = failed).
Proof.
  unfold classify_failure.
  destruct (isNoKey _); [simpl; auto|].
  destruct (isConnection _); simpl; auto.
Qed.

Lemma attempt_shape env th item :
  let r := (attemptPublishOne env th item).1 in
  id r = id item ∧ attempts r = attempts item + 1 ∧
  (status r = published ∨ status r = queued ∨ status r = failed).
Proof.
  unfold attemptPublishOne.
  destruct (outcome env) as [sid|msg].
  - destruct (Js.truthy sid); [simpl; auto|].
    pose proof (classify_status env th item (attempts item + 1)
      (if is_agora_event item then "Publish did not return an event id"
       else "Comment publish did not return an id")) as H.
    simpl in H. intuition.
  - pose proof (classify_status env th item (attempts item + 1) msg) as H.
    simpl in H. intuition.
Qed.

Lemma attempt_changes env th item : changed item (attemptPublishOne env th item).1 = true.
Proof.
  pose proof (attempt_shape env th item) as (_ & Ha & _). simpl in Ha.
  unfold changed. rewrite Ha.
  replace (attempts item + 1 =? attempts item) with false by (symmetry; lia).
  simpl. by rewrite orb_true_r.
Qed.

(** *** The toast throttle *)

Lemma ThrottleInv_classify env th item n msg :
  ThrottleInv th → ThrottleInv (classify_failure env th item n msg).2.
Proof.
  intros [Hs Hl Hn]. unfold classify_failure.
  destruct (isNoKey _); [|by destruct (isConnection _)].
  simpl. destruct (10000 <? clock_toast env - lastNoKeyToastAt th) eqn:E; [|done].
  apply Z.ltb_lt in E.
  split; simpl.
  - intros i j a b Hij Hi Hj.
    apply lookup_app_Some in Hj as [Hj | [Hge Hj]].
    + apply lookup_app_Some in Hi as [Hi | [Hge' _]].
      * by eapply Hs.
      * apply lookup_lt_Some in Hj. lia.
    + apply list_lookup_singleton_Some in Hj as [Hj0 <-].
      apply lookup_app_Some in Hi as [Hi | [Hge' Hi]].
      * pose proof (Hl _ _ Hi). lia.
      * apply list_lookup_singleton_Some in Hi as [Hi' _]. lia.
  - intros i a Hi.
    apply lookup_app_Some in Hi as [Hi | [_ Hi]].
    + pose proof (Hl _ _ Hi). lia.
    + apply list_lookup_singleton_Some in Hi as [_ <-]. lia.
  - lia.
Qed.

Lemma ThrottleInv_attempt env th item :
  ThrottleInv th → ThrottleInv (attemptPublishOne env th item).2.
Proof.
  intros HI. unfold attemptPublishOne.
  destruct (outcome env) as [sid|msg]; [destruct (Js.truthy sid); [done|]|];
    by apply ThrottleInv_classify.
Qed.

Lemma ThrottleInv_reachable th : throttle_reachable th → ThrottleInv th.
Proof.
  induction 1; [|by apply ThrottleInv_attempt].
  split; simpl; [|intros i a Hi; by rewrite lookup_nil in Hi|lia].
  intros i j a b _ Hi. by rewrite lookup_nil in Hi.
Qed.

(** C5.  When the attempt throws an error whose lower-cased message is
    classified no-signer, the returned item is 'queued' with [attempts]
    incremented, [lastError] the message and [nextAttemptAt] 300 seconds
    after the [nowSec()] reading; the notification is shown by this call
    exactly when more than 10000 ms passed since the last one shown, and any
    two notifications ever shown are more than 10000 ms apart. *)
Theorem no_signer_pause (env : AttemptEnv) (th : Throttle) (item : OutboxItem) (msg : string) :
  throttle_reachable th →
  outcome env = Threw msg →
  isNoKey (Js.toLowerCase msg) = true →
  let r := attemptPublishOne env th item in
  status r.1 = queued ∧
  nextAttemptAt r.1 = Js.nowSec (clock_ret env) + 300 ∧
  attempts r.1 = attempts item + 1 ∧
  lastError r.1 = Some msg ∧
  noKeyToasts r.2 =
    (if 10000 <? clock_toast env - lastNoKeyToastAt th
     then (noKeyToasts th ++ [clock_toast env])%list else noKeyToasts th) ∧
  (∀ i j a b, (i < j)%nat →
     noKeyToasts r.2 !! i = Some a → noKeyToasts r.2 !! j = Some b →
     10000 < b - a).
Proof.
  intros Hth Hout Hkey r.
  pose proof (ThrottleInv_reachable _ (throttle_attempt th env item Hth)) as [Hs _ _].
  fold r in Hs.
  subst r. unfold attemptPublishOne in *. rewrite Hout in *.
  unfold classify_failure in *. rewrite Hkey in *. simpl in *.
  repeat split; try done.
  by destruct (10000 <? clock_toast env - lastNoKeyToastAt th).
Qed.

(** C7.  When the attempt throws an error classified connectivity/timeout
    (and not no-signer, which is tested first), the returned item is
    'queued' and [nextAttemptAt] is the [nowSec()] reading plus
    [computeBackoffSeconds] of the incremented attempt count; and for every
    count [n >= 0] that backoff is [min(300, 2 * 2^n)] seconds. *)
Theorem connection_failure_backoff (env : AttemptEnv) (th : Throttle)
    (item : OutboxItem) (msg : string) :
  outcome env = Threw msg →
  isNoKey (Js.toLowerCase msg) = false →
  isConnection (Js.toLowerCase msg) = true →
  let r := (attemptPublishOne env th item).1 in
  status r = queued ∧
  attempts r = attempts item + 1 ∧
  lastError r = Some msg ∧
  nextAttemptAt r = Js.nowSec (clock_ret env) + computeBackoffSeconds (attempts r) ∧
  (∀ n, 0 ≤ n → computeBackoffSeconds n = Z.min 300 (2 * 2 ^ n)).
Proof.
  intros Hout Hkey Hconn. unfold attemptPublishOne. rewrite Hout.
  unfold classify_failure. rewrite Hkey, Hconn. simpl.
  repeat split; try done. apply computeBackoffSeconds_spec.
Qed.

(** *** The worker loop *)

Lemma elem_of_insert_sorted x y l : y ∈ insert_sorted x l ↔ y = x ∨ y ∈ l.
Proof.
  induction l as [|z l IH]; simpl.
  - rewrite list_elem_of_singleton, elem_of_nil. tauto.
  - destruct (created_at x <=? created_at z).
    + rewrite !elem_of_cons. tauto.
    + rewrite !elem_of_cons, IH. tauto.
Qed.

Lemma elem_of_sort_by_created y l : y ∈ sort_by_created l ↔ y ∈ l.
Proof.
  induction l as [|x l IH]; simpl; [done|].
  rewrite elem_of_insert_sorted, elem_of_cons, IH. tauto.
Qed.

Lemma LoopInv_start all th : LoopInv all (loop_start th).
Proof.
  split; simpl.
  - intros x Hx. by apply elem_of_nil in Hx.
  - intros k u Hk. by rewrite lookup_empty in Hk.
Qed.

Lemma run_loop_inv all envs items :
  ∀ k acc, (∀ x, x ∈ items → x ∈ all) → LoopInv all acc →
           LoopInv all (run_loop envs k items acc).1.
Proof.
  induction items as [|it rest IH]; intros k acc Hsub HI; simpl; [done|].
  assert (Hrest : ∀ x, x ∈ rest → x ∈ all) by (intros x Hx; apply Hsub; by right).
  destruct (stop (envs k)); [done|].
  destruct (bool_decide (status it = queued)) eqn:Hq; simpl; [|by apply IH].
  apply bool_decide_eq_true in Hq.
  destruct (Js.nowSec (clock_due (envs k)) <? nextAttemptAt it); [by apply IH|].
  apply IH; [done|].
  pose proof (attempt_shape (attempt_env (envs k)) (throttle acc) it) as (Hid & _ & Hst).
  pose proof (attempt_changes (attempt_env (envs k)) (throttle acc) it) as Hch.
  simpl in Hid, Hst.
  destruct HI as [Hatt Hupd]. split; simpl.
  - intros x Hx. apply elem_of_app in Hx as [Hx|Hx]; [by apply Hatt|].
    apply list_elem_of_singleton in Hx as ->. split; [done|]. apply Hsub. by left.
  - intros j u Hj. rewrite lookup_insert in Hj.
    destruct (decide (id it = j)) as [<-|Hne].
    + inversion Hj; subst u. split; [done|]. split; [done|].
      split; [|by rewrite Hch, orb_true_r].
      exists it. split; [|done]. apply elem_of_app. right. by left.
    + destruct (Hupd j u Hj) as (H1 & H2 & (x & Hx & Hxid) & H4).
      split; [done|]. split; [done|]. split; [|by rewrite H4].
      exists x. split; [|done]. apply elem_of_app. by left.
Qed.

Lemma worker_pass_inv running can now envs th snapshot prev :
  LoopInv snapshot (loop_after (worker_pass running can now envs th snapshot prev)).
Proof.
  unfold worker_pass.
  destruct (_ || _ || _ || _); simpl; [apply LoopInv_start|].
  assert (LoopInv snapshot
            (run_loop envs 0 (sort_by_created snapshot) (loop_start th)).1) as HI.
  { apply run_loop_inv; [|apply LoopInv_start].
    intros x. by rewrite elem_of_sort_by_created. }
  by destruct (_ && _).
Qed.

Lemma elem_of_commit upd prev x :
  x ∈ commit upd prev ↔
  status x ≠ published ∧ ∃ p, p ∈ prev ∧ x = default p (upd !! id p).
Proof.
  unfold commit. rewrite list_elem_of_filter, list_elem_of_fmap.
  split; intros [H1 (p & H2 & H3)]; (split; [done|]); exists p; done.
Qed.

Lemma worker_pass_store running can now envs th snapshot prev :
  let w := worker_pass running can now envs th snapshot prev in
  if committed w
  then outbox (store_after w) = commit (updatedById (loop_after w)) (outbox prev)
       ∧ stored (store_after w) = outbox (store_after w)
  else store_after w = prev.
Proof.
  unfold worker_pass.
  destruct (_ || _ || _ || _); simpl; [done|].
  by destruct (_ && _).
Qed.

(** *** Stores the hook can reach *)

Lemma StoreInv_worker running can now envs th snapshot prev :
  StoreInv prev → StoreInv (store_after (worker_pass running can now envs th snapshot prev)).
Proof.
  intros HI.
  pose proof (worker_pass_store running can now envs th snapshot prev) as Hs.
  pose proof (worker_pass_inv running can now envs th snapshot prev) as [_ Hupd].
  simpl in Hs. destruct (committed _); [|by rewrite Hs].
  destruct Hs as [Ho Hst]. intros x Hx. rewrite Hst in Hx.
  assert (Hx' : x ∈ outbox (store_after (worker_pass running can now envs th snapshot prev)))
    by tauto.
  rewrite Ho in Hx'. apply elem_of_commit in Hx' as (Hnp & p & Hp & ->).
  destruct (updatedById _ !! id p) as [u|] eqn:E; simpl in *.
  - destruct (Hupd _ _ E) as (_ & [?|[?|?]] & _); [done|by left|by right].
  - apply HI. by left.
Qed.

Lemma StoreInv_read remoteIds st : StoreInv st → StoreInv (read_prune remoteIds st).
Proof.
  intros HI x. unfold read_prune. simpl.
  intros [Hx|Hx].
  - apply list_elem_of_filter in Hx as [_ Hx]. apply HI. by left.
  - destruct (bool_decide _); [apply HI; by right|].
    apply list_elem_of_filter in Hx as [_ Hx]. apply HI. by left.
Qed.

Lemma StoreInv_reachable st : reachable st → StoreInv st.
Proof.
  induction 1 as [|st ???? IH|st ?????? IH|st0 st ????? _ _ _ IH|st ?? IH|st ? IH].
  - intros x [Hx|Hx]; by apply elem_of_nil in Hx.
  - intros x Hx. simpl in Hx.
    assert (Hc : x ∈ new_event_item localId now data :: outbox st) by tauto.
    apply elem_of_cons in Hc as [->|Hc]; [by left|]. apply IH. by left.
  - unfold handlePostComment. destruct (Js.trim text) eqn:E; [done|].
    intros x Hx. simpl in Hx.
    assert (Hc : x ∈ new_comment_item localId now evId pk (String a s) :: outbox st) by tauto.
    apply elem_of_cons in Hc as [->|Hc]; [by left|]. apply IH. by left.
  - by apply StoreInv_worker.
  - by apply StoreInv_read.
  - intros x Hx. simpl in Hx. apply IH. right. tauto.
Qed.

(** C6.  When the attempt throws an error classified neither no-signer nor
    connectivity, the returned item is 'failed', [lastError] is the message
    and [nextAttemptAt] is the [nowSec()] reading plus the same
    [computeBackoffSeconds]; every item a worker pass hands to
    [attemptPublishOne] is 'queued'; and a 'failed' item of the outbox
    whose id no other item of the iterated snapshot carries is still in the
    outbox, as it was, after the pass. *)
Theorem other_failure_terminal (env : AttemptEnv) (th : Throttle)
    (item : OutboxItem) (msg : string) :
  outcome env = Threw msg →
  isNoKey (Js.toLowerCase msg) = false →
  isConnection (Js.toLowerCase msg) = false →
  let r := (attemptPublishOne env th item).1 in
  status r = failed ∧
  lastError r = Some msg ∧
  attempts r = attempts item + 1 ∧
  nextAttemptAt r = Js.nowSec (clock_ret env) + computeBackoffSeconds (attempts r) ∧
  (∀ running can now envs th0 snapshot prev,
     let w := worker_pass running can now envs th0 snapshot prev in
     (∀ x, x ∈ attempted (loop_after w) → status x = queued) ∧
     (∀ p, p ∈ outbox prev → status p = failed →
           (∀ q, q ∈ snapshot → id q = id p → q = p) →
           p ∈ outbox (store_after w))).
Proof.
  intros Hout Hkey Hconn. unfold attemptPublishOne. rewrite Hout.
  unfold classify_failure. rewrite Hkey, Hconn. simpl.
  repeat split; try done.
  - intros x Hx.
    by destruct (li_attempted _ _ (worker_pass_inv running can now envs th0 snapshot prev) x Hx).
  - intros p Hp Hfailed Huniq.
    pose proof (worker_pass_store running can now envs th0 snapshot prev) as Hs.
    pose proof (worker_pass_inv running can now envs th0 snapshot prev) as [Hatt Hupd].
    set (w := worker_pass running can now envs th0 snapshot prev) in *.
    simpl in Hs. destruct (committed w); [|by rewrite Hs].
    destruct Hs as [-> _]. apply elem_of_commit.
    destruct (updatedById (loop_after w) !! id p) as [u|] eqn:E.
    + exfalso. destruct (Hupd _ _ E) as (_ & _ & (x & Hx & Hxid) & _).
      destruct (Hatt x Hx) as [Hq Hin].
      rewrite (Huniq x Hin Hxid) in Hq. congruence.
    + split; [congruence|]. exists p. by rewrite E.
Qed.

(** C6, witness: a relay-side validation error on the sample item. *)
Lemma other_failure_terminal_witness :
  let r := (attemptPublishOne (attempt_at_5 (Threw "invalid: bad signature")) throttle0 potluck).1 in
  status r = failed ∧
  lastError r = Some "invalid: bad signature" ∧
  attempts r = attempts potluck + 1 ∧
  nextAttemptAt r = Js.nowSec 1700000005000 + computeBackoffSeconds (attempts r) ∧
  (∀ running can now envs th0 snapshot prev,
     let w := worker_pass running can now envs th0 snapshot prev in
     (∀ x, x ∈ attempted (loop_after w) → status x = queued) ∧
     (∀ p, p ∈ outbox prev → status p = failed →
           (∀ q, q ∈ snapshot → id q = id p → q = p) →
           p ∈ outbox (store_after w))).
Proof.
  apply (other_failure_terminal (attempt_at_5 (Threw "invalid: bad signature")) throttle0 potluck);
    reflexivity.
Defined.

(** C5, witness: the local key is missing when the sample item is tried. *)
Lemma no_signer_pause_witness :
  let r := attemptPublishOne
             (attempt_at_5 (Threw "No private key available for local signing"))
             throttle0 potluck in
  status r.1 = queued ∧
  nextAttemptAt r.1 = Js.nowSec 1700000005000 + 300 ∧
  attempts r.1 = attempts potluck + 1 ∧
  lastError r.1 = Some "No private key available for local signing" ∧
  noKeyToasts r.2 =
    (if 10000 <? 1700000005000 - lastNoKeyToastAt throttle0
     then (noKeyToasts throttle0 ++ [1700000005000])%list else noKeyToasts throttle0) ∧
  (∀ i j a b, (i < j)%nat →
     noKeyToasts r.2 !! i = Some a → noKeyToasts r.2 !! j = Some b →
     10000 < b - a).
Proof.
  apply (no_signer_pause
           (attempt_at_5 (Threw "No private key available for local signing"))
           throttle0 potluck);
    [apply throttle_initial | reflexivity | reflexivity].
Defined.

(** C7, witness: the relay cannot be reached when the sample item is tried. *)
Lemma connection_failure_backoff_witness :
  let r := (attemptPublishOne (attempt_at_5 (Threw "No relay connection available"))
              throttle0 potluck).1 in
  status r = queued ∧
  attempts r = attempts potluck + 1 ∧
  lastError r = Some "No relay connection available" ∧
  nextAttemptAt r = Js.nowSec 1700000005000 + computeBackoffSeconds (attempts r) ∧
  (∀ n, 0 ≤ n → computeBackoffSeconds n = Z.min 300 (2 * 2 ^ n)).
Proof.
  apply (connection_failure_backoff
           (attempt_at_5 (Threw "No relay connection available")) throttle0 potluck);
    reflexivity.
Defined.

(** C10.  In every store reachable from an empty outbox, no item of the
    outbox or of its persisted copy has status 'publishing', and the
    optimistic projection of none of them carries the 'publishing' flag;
    both enqueue operations build items with status 'queued'; and every
    item returned by [attemptPublishOne] is 'published', 'queued' or
    'failed'. *)
Theorem never_publishing (st : Store) :
  reachable st →
  (∀ x, x ∈ outbox st ∨ x ∈ stored st →
        status x ≠ publishing ∧ optimistic_flags x ≠ flag_publishing) ∧
  (∀ localId now data, status (new_event_item localId now data) = queued) ∧
  (∀ localId now evId pk text,
     status (new_comment_item localId now evId pk text) = queued) ∧
  (∀ env th item,
     let r := (attemptPublishOne env th item).1 in
     status r = published ∨ status r = queued ∨ status r = failed).
Proof.
  intros Hr. pose proof (StoreInv_reachable st Hr) as HI.
  split; [|split; [done|split; [done|]]].
  - intros x Hx. unfold optimistic_flags.
    destruct (HI x Hx) as [-> | ->]; done.
  - intros env th item. apply (attempt_shape env th item).
Qed.

(** C10, witness: the store right after the first [handleCreateEvent]. *)
Lemma never_publishing_witness :
  let st := handleCreateEvent "agora_1" enqueue_clock
              (mkDraft (Some "Potluck") None (Some "Park") (Some 1700000000)
                       None None None None None None)
              {| outbox := []; stored := [] |} in
  (∀ x, x ∈ outbox st ∨ x ∈ stored st →
        status x ≠ publishing ∧ optimistic_flags x ≠ flag_publishing) ∧
  (∀ localId now data, status (new_event_item localId now data) = queued) ∧
  (∀ localId now evId pk text,
     status (new_comment_item localId now evId pk text) = queued) ∧
  (∀ env th item,
     let r := (attemptPublishOne env th item).1 in
     status r = published ∨ status r = queued ∨ status r = failed).
Proof.
  apply never_publishing. apply reachable_create, reachable_empty.
Defined.





(** *** Backoff, continued *)

Lemma backoff_cases n :
  computeBackoffSeconds n = 2 ∧ n ≤ 0 ∨
  (1 ≤ n ≤ 7 ∧ computeBackoffSeconds n = 2 * 2 ^ n) ∨
  (8 ≤ n ∧ computeBackoffSeconds n = 300).
Proof.
  unfold computeBackoffSeconds.
  destruct (Z_le_gt_dec n 0) as [H0|H0].
  - left. rewrite Z.max_l by lia. rewrite (Z.min_r 10 0) by lia. split; [reflexivity|done].
  - right. rewrite Z.max_r by lia.
    destruct (Z_le_gt_dec n 7) as [H7|H7].
    + left. split; [lia|]. rewrite (Z.min_r 10 n) by lia.
      assert (n = 1 ∨ n = 2 ∨ n = 3 ∨ n = 4 ∨ n = 5 ∨ n = 6 ∨ n = 7) as H by lia.
      destruct H as [->|[->|[->|[->|[->|[->| ->]]]]]]; reflexivity.
    + right. split; [lia|].
      assert (2 ^ 8 ≤ 2 ^ Z.min 10 n) by (apply Z.pow_le_mono_r; lia).
      change (2 ^ 8) with 256 in *. lia.
Qed.

(** X5.  [computeBackoffSeconds] on every integer, negative counts
    included: the result is at least 2 and at most 300 seconds, it does not
    decrease when the count grows, it is 2 for every count up to 0 and 300
    from count 8 on. *)
Theorem backoff_bounds (n m : Z) :
  n ≤ m →
  2 ≤ computeBackoffSeconds n ∧
  computeBackoffSeconds n ≤ computeBackoffSeconds m ∧
  computeBackoffSeconds m ≤ 300 ∧
  (m ≤ 0 → computeBackoffSeconds m = 2) ∧
  (8 ≤ n → computeBackoffSeconds n = 300).
Proof.
  intros Hnm.
  assert (Hpow : ∀ k, 1 ≤ k ≤ 7 → 4 ≤ 2 * 2 ^ k ≤ 256).
  { intros k Hk.
    assert (2 ^ 1 ≤ 2 ^ k) by (apply Z.pow_le_mono_r; lia).
    assert (2 ^ k ≤ 2 ^ 7) by (apply Z.pow_le_mono_r; lia).
    change (2 ^ 1) with 2 in *. change (2 ^ 7) with 128 in *. lia. }
  assert (Hmono : ∀ a b, 1 ≤ a ≤ b → 2 ^ a ≤ 2 ^ b)
    by (intros a b Hab; apply Z.pow_le_mono_r; lia).
  destruct (backoff_cases n) as [[En Hn]|[[Hn En]|[Hn En]]];
    destruct (backoff_cases m) as [[Em Hm]|[[Hm Em]|[Hm Em]]];
    rewrite ?En, ?Em; try lia;
    try (pose proof (Hpow n ltac:(lia))); try (pose proof (Hpow m ltac:(lia)));
    try (pose proof (Hmono n m ltac:(lia))); repeat split; try lia.
Qed.

(** X5, witness: counts 3 and 5. *)
Lemma backoff_bounds_witness :
  2 ≤ computeBackoffSeconds 3 ∧
  computeBackoffSeconds 3 ≤ computeBackoffSeconds 5 ∧
  computeBackoffSeconds 5 ≤ 300 ∧
  (5 ≤ 0 → computeBackoffSeconds 5 = 2) ∧
  (8 ≤ 3 → computeBackoffSeconds 3 = 300).
Proof. apply (backoff_bounds 3 5). lia. Defined.

(** *** One attempt, continued *)

(** X6.  What [attemptPublishOne] returns, by what signing and
    publishing did.  It returns 'published' only when they returned a signed
    event with a non-empty id, which becomes [publishedEventId], with
    [nextAttemptAt] the [nowSec()] reading and [lastError] and the toast
    throttle untouched.  When they returned without an id the item is
    'failed' with the message of its type ("Publish did not return an event
    id" or "Comment publish did not return an id").  When they threw, the
    item is not 'published' and [lastError] is the message.  In the last two
    cases [publishedEventId] keeps its value; [id], [created_at] and
    [payload] are kept in all. *)
Theorem published_needs_id (env : AttemptEnv) (th : Throttle) (item : OutboxItem) :
  let r := attemptPublishOne env th item in
  match outcome env with
  | Returned (Some (String c s)) =>
      status r.1 = published ∧ publishedEventId r.1 = Some (String c s) ∧
      attempts r.1 = attempts item + 1 ∧ nextAttemptAt r.1 = Js.nowSec (clock_ret env) ∧
      lastError r.1 = lastError item ∧ r.2 = th
  | Returned _ =>
      status r.1 = failed ∧ publishedEventId r.1 = publishedEventId item ∧
      lastError r.1 = Some (if is_agora_event item
                            then "Publish did not return an event id"
                            else "Comment publish did not return an id") ∧
      r.2 = th
  | Threw msg =>
      status r.1 ≠ published ∧ publishedEventId r.1 = publishedEventId item ∧
      lastError r.1 = Some msg
  end ∧
  id r.1 = id item ∧ created_at r.1 = created_at item ∧ payload r.1 = payload item.
Proof.
  cbn zeta. unfold attemptPublishOne.
  destruct (outcome env) as [[[|c s]|]|msg]; cbn [Js.truthy].
  - destruct (is_agora_event item); vm_compute; done.
  - done.
  - destruct (is_agora_event item); vm_compute; done.
  - unfold classify_failure.
    destruct (isNoKey _); [done|]. by destruct (isConnection _).
Qed.

(** *** The order of a pass *)

Lemma oldest_first_cons x l :
  oldest_first (x :: l) ↔ (∀ y, y ∈ l → created_at x ≤ created_at y) ∧ oldest_first l.
Proof.
  split.
  - intros H. split.
    + intros y Hy. apply list_elem_of_lookup in Hy as [j Hj].
      apply (H 0%nat (S j) x y); [lia|done|done].
    + intros i j a b Hij Hi Hj. apply (H (S i) (S j) a b); [lia|done|done].
  - intros [Hx Hl] i j a b Hij Hi Hj.
    destruct j as [|j]; [lia|]. simpl in Hj.
    destruct i as [|i]; simpl in Hi.
    + inversion Hi; subst a. apply Hx. by eapply list_elem_of_lookup_2.
    + apply (Hl i j a b); [lia|done|done].
Qed.

Lemma oldest_first_nil : oldest_first [].
Proof. intros i j a b _ Hi. by rewrite lookup_nil in Hi. Qed.

Lemma insert_sorted_oldest x l : oldest_first l → oldest_first (insert_sorted x l).
Proof.
  induction l as [|y l IH]; intros Hl; simpl.
  - apply oldest_first_cons. split; [|apply oldest_first_nil].
    intros y Hy. by apply elem_of_nil in Hy.
  - apply oldest_first_cons in Hl as [Hy Hl].
    destruct (created_at x <=? created_at y) eqn:E.
    + apply Z.leb_le in E. apply oldest_first_cons. split.
      * intros z Hz. apply elem_of_cons in Hz as [->|Hz]; [done|].
        pose proof (Hy z Hz). lia.
      * apply oldest_first_cons. done.
    + apply Z.leb_gt in E. apply oldest_first_cons. split; [|by apply IH].
      intros z Hz. apply elem_of_insert_sorted in Hz as [->|Hz]; [lia|by apply Hy].
Qed.

Lemma sort_by_created_oldest l : oldest_first (sort_by_created l).
Proof.
  induction l as [|x l IH]; [apply oldest_first_nil|].
  simpl. by apply insert_sorted_oldest.
Qed.

Lemma insert_sorted_perm x l : insert_sorted x l ≡ₚ x :: l.
Proof.
  induction l as [|y l IH]; simpl; [done|].
  destruct (created_at x <=? created_at y); [done|].
  rewrite IH. apply Permutation_swap.
Qed.

Lemma sort_by_created_perm l : sort_by_created l ≡ₚ l.
Proof.
  induction l as [|x l IH]; [done|]. simpl.
  by rewrite insert_sorted_perm, IH.
Qed.

Lemma oldest_first_sublist l1 l2 : l1 `sublist_of` l2 → oldest_first l2 → oldest_first l1.
Proof.
  induction 1 as [|x l1 l2 Hs IH|x l1 l2 Hs IH]; intros H2; [done| |].
  - apply oldest_first_cons in H2 as [Hx H2]. apply oldest_first_cons.
    split; [|by apply IH]. intros y Hy. apply Hx.
    by eapply elem_of_sublist.
  - apply oldest_first_cons in H2 as [_ H2]. by apply IH.
Qed.

Lemma run_loop_attempted envs items :
  ∀ k acc, ∃ l, attempted (run_loop envs k items acc).1 = (attempted acc ++ l)%list
                ∧ l `sublist_of` items.
Proof.
  induction items as [|it rest IH]; intros k acc; simpl.
  - exists []. by rewrite app_nil_r.
  - destruct (stop (envs k)).
    { exists []. rewrite app_nil_r. split; [done|]. apply sublist_nil_l. }
    destruct (negb (bool_decide (status it = queued))).
    { destruct (IH (S k) acc) as (l & -> & Hl). exists l. split; [done|].
      by apply sublist_cons. }
    destruct (Js.nowSec (clock_due (envs k)) <? nextAttemptAt it).
    { destruct (IH (S k) acc) as (l & -> & Hl). exists l. split; [done|].
      by apply sublist_cons. }
    match goal with |- context [run_loop envs (S k) rest ?a] =>
      destruct (IH (S k) a) as (l & -> & Hl) end.
    exists (it :: l). cbn [attempted]. rewrite <- app_assoc. split; [done|].
    by apply sublist_skip.
Qed.

(** X7.  The items a worker pass hands to [attemptPublishOne], in the
    order it does so, are a subsequence of the snapshot sorted by
    [created_at]: they are attempted oldest first, each position of the
    snapshot at most once; the sorted list is a permutation of the
    snapshot. *)
Theorem worker_attempts_oldest_first (running can : bool) (now : Z) (envs : nat → IterEnv)
    (th : Throttle) (snapshot : list OutboxItem) (prev : Store) :
  let w := worker_pass running can now envs th snapshot prev in
  attempted (loop_after w) `sublist_of` sort_by_created snapshot ∧
  oldest_first (attempted (loop_after w)) ∧
  sort_by_created snapshot ≡ₚ snapshot ∧
  oldest_first (sort_by_created snapshot).
Proof.
  cbn zeta.
  assert (Hs : attempted (loop_after (worker_pass running can now envs th snapshot prev))
               `sublist_of` sort_by_created snapshot).
  { unfold worker_pass.
    destruct (_ || _ || _ || _); cbn [loop_after loop_start attempted];
      [apply sublist_nil_l|].
    destruct (run_loop_attempted envs (sort_by_created snapshot) 0 (loop_start th))
      as (l & Hl & Hsub).
    cbn [loop_start attempted app] in Hl.
    destruct (_ && _); cbn [loop_after]; by rewrite Hl. }
  split; [done|]. split; [|split].
  - eapply oldest_first_sublist; [done|apply sort_by_created_oldest].
  - apply sort_by_created_perm.
  - apply sort_by_created_oldest.
Qed.

(** *** Items that are due *)







(** *** What a pass keeps *)

(** X9.  A worker pass loses nothing it did not publish: an item of the
    outbox that is not 'published' is, after the pass, either still there
    unchanged, or replaced by the update of an attempted item with the same
    id, and that update is in the outbox unless it is 'published'.  The
    outbox never grows in a pass. *)
Theorem worker_keeps_unpublished (running can : bool) (now : Z) (envs : nat → IterEnv)
    (th : Throttle) (snapshot : list OutboxItem) (prev : Store) (p : OutboxItem) :
  p ∈ outbox prev → status p ≠ published →
  let w := worker_pass running can now envs th snapshot prev in
  (p ∈ outbox (store_after w) ∨
   ∃ u y, updatedById (loop_after w) !! id p = Some u ∧ id u = id p ∧
          y ∈ attempted (loop_after w) ∧ id y = id p ∧
          (status u = published ∨ u ∈ outbox (store_after w))) ∧
  (length (outbox (store_after w)) ≤ length (outbox prev))%nat.
Proof.
  intros Hp Hnp. cbn zeta.
  pose proof (worker_pass_store running can now envs th snapshot prev) as Hs.
  pose proof (worker_pass_inv running can now envs th snapshot prev) as [_ Hupd].
  set (w := worker_pass running can now envs th snapshot prev) in *.
  cbn zeta in Hs. destruct (committed w).
  - destruct Hs as [Ho _]. rewrite Ho. split.
    + destruct (updatedById (loop_after w) !! id p) as [u|] eqn:E.
      * destruct (Hupd _ _ E) as (Hid & _ & (y & Hy & Hyid) & _).
        right. exists u, y. repeat split; try done.
        destruct (decide (status u = published)) as [Hpub|Hpub]; [by left|right].
        apply elem_of_commit. split; [done|]. exists p. split; [done|].
        by rewrite E.
      * left. apply elem_of_commit. split; [done|]. exists p. split; [done|].
        by rewrite E.
    + unfold commit. etrans; [apply length_filter|]. by rewrite length_fmap.
  - rewrite Hs. split; [by left|done].
Qed.

(** X9, witness: one due item, a relay that is offline. *)
Lemma worker_keeps_unpublished_witness :
  let w := worker_pass false true 1700000005000 (steady (Threw "offline")) throttle0
             [potluck] {| outbox := [potluck]; stored := [potluck] |} in
  (potluck ∈ outbox (store_after w) ∨
   ∃ u y, updatedById (loop_after w) !! id potluck = Some u ∧ id u = id potluck ∧
          y ∈ attempted (loop_after w) ∧ id y = id potluck ∧
          (status u = published ∨ u ∈ outbox (store_after w))) ∧
  (length (outbox (store_after w)) ≤ length [potluck])%nat.
Proof.
  apply (worker_keeps_unpublished false true 1700000005000 (steady (Threw "offline"))
           throttle0 [potluck] {| outbox := [potluck]; stored := [potluck] |} potluck).
  - apply list_elem_of_singleton. reflexivity.
  - discriminate.
Defined.

(** *** Published ids *)

Lemma attempt_unpublished env th item :
  publishedEventId item = None →
  status (attemptPublishOne env th item).1 = published ∨
  publishedEventId (attemptPublishOne env th item).1 = None.
Proof.
  intros Hn. unfold attemptPublishOne.
  destruct (outcome env) as [sid|msg]; [destruct (Js.truthy sid); [by left|]|];
    right; unfold classify_failure;
    (destruct (isNoKey _); [done|]); by destruct (isConnection _).
Qed.

Lemma run_loop_unpublished envs items :
  (∀ x, x ∈ items → publishedEventId x = None) →
  ∀ k acc,
    (∀ j u, updatedById acc !! j = Some u →
            status u = published ∨ publishedEventId u = None) →
    ∀ j u, updatedById (run_loop envs k items acc).1 !! j = Some u →
           status u = published ∨ publishedEventId u = None.
Proof.
  induction items as [|it rest IH]; intros Hitems k acc HJ; simpl; [done|].
  assert (Hrest : ∀ x, x ∈ rest → publishedEventId x = None)
    by (intros x Hx; apply Hitems; by right).
  destruct (stop (envs k)); [done|].
  destruct (negb _); [by apply IH|].
  destruct (_ <? _); [by apply IH|].
  apply IH; [done|]. cbn [updatedById]. intros j u Hj.
  apply lookup_insert_Some in Hj as [[_ <-]|[_ Hj]]; [|by eapply HJ].
  apply attempt_unpublished, Hitems. by left.
Qed.

Lemma unpublished_worker running can now envs th st0 prev :
  unpublished st0 → unpublished prev →
  unpublished (store_after (worker_pass running can now envs th (outbox st0) prev)).
Proof.
  intros H0 HI.
  pose proof (worker_pass_store running can now envs th (outbox st0) prev) as Hs.
  cbn zeta in Hs.
  assert (Hupd : ∀ j u,
    updatedById (loop_after (worker_pass running can now envs th (outbox st0) prev)) !! j
      = Some u → status u = published ∨ publishedEventId u = None).
  { unfold worker_pass.
    destruct (_ || _ || _ || _); simpl.
    { intros j u Hj. by rewrite lookup_empty in Hj. }
    assert (∀ j u,
      updatedById (run_loop envs 0 (sort_by_created (outbox st0)) (loop_start th)).1 !! j
        = Some u → status u = published ∨ publishedEventId u = None) as H.
    { apply run_loop_unpublished.
      - intros x Hx. apply H0. left. by apply elem_of_sort_by_created.
      - intros j u Hj. simpl in Hj. by rewrite lookup_empty in Hj. }
    by destruct (_ && _). }
  set (w := worker_pass running can now envs th (outbox st0) prev) in *.
  destruct (committed w); [|by rewrite Hs].
  destruct Hs as [Ho Hst]. intros x Hx. rewrite Hst in Hx.
  assert (Hx' : x ∈ outbox (store_after w)) by tauto.
  rewrite Ho in Hx'. apply elem_of_commit in Hx' as (Hnp & p & Hp & ->).
  destruct (updatedById (loop_after w) !! id p) as [u|] eqn:E; simpl in *.
  - destruct (Hupd _ _ E) as [?|?]; done.
  - apply HI. by left.
Qed.

Lemma unpublished_reachable st : reachable st → unpublished st.
Proof.
  induction 1 as [|st ???? IH|st ?????? IH|st0 st ????? _ IH0 _ IH|st ?? IH|st ? IH].
  - intros x [Hx|Hx]; by apply elem_of_nil in Hx.
  - intros x Hx. simpl in Hx.
    assert (Hc : x ∈ new_event_item localId now data :: outbox st) by tauto.
    apply elem_of_cons in Hc as [->|Hc]; [done|]. apply IH. by left.
  - unfold handlePostComment. destruct (Js.trim text) eqn:E; [done|].
    intros x Hx. simpl in Hx.
    assert (Hc : x ∈ new_comment_item localId now evId pk (String a s) :: outbox st) by tauto.
    apply elem_of_cons in Hc as [->|Hc]; [done|]. apply IH. by left.
  - by apply unpublished_worker.
  - intros x. unfold read_prune. simpl. intros [Hx|Hx].
    + apply list_elem_of_filter in Hx as [_ Hx]. apply IH. by left.
    + destruct (bool_decide _); [apply IH; by right|].
      apply list_elem_of_filter in Hx as [_ Hx]. apply IH. by left.
  - intros x Hx. simpl in Hx. apply IH. right. tauto.
Qed.

Lemma filter_all {A} (P : A → Prop) `{!∀ x, Decision (P x)} (l : list A) :
  (∀ x, x ∈ l → P x) → filter P l = l.
Proof.
  induction l as [|a l IH]; intros HP; [done|].
  rewrite filter_cons_True by (apply HP; by left).
  f_equal. apply IH. intros x Hx. apply HP. by right.
Qed.

(** X10.  In every store reachable from an empty outbox no item carries
    a [publishedEventId]: enqueued items have none, a failed attempt keeps
    the item's, and a published item is dropped by the pass that published
    it.  So the reconciliation at the end of a read cycle, which removes
    event items whose [publishedEventId] is among the fetched ids, removes
    nothing and leaves the persisted copy alone, whatever ids were
    fetched. *)
Theorem read_prune_removes_nothing (st : Store) (remoteIds : gset string) :
  reachable st →
  read_prune remoteIds st = st ∧
  (∀ x, x ∈ outbox st → publishedEventId x = None ∧ confirmed_by remoteIds x = false).
Proof.
  intros Hr. pose proof (unpublished_reachable st Hr) as HU.
  assert (Hc : ∀ x, x ∈ outbox st → publishedEventId x = None ∧ confirmed_by remoteIds x = false).
  { intros x Hx. assert (publishedEventId x = None) as E by (apply HU; by left).
    split; [done|]. unfold confirmed_by. by rewrite E. }
  split; [|done].
  unfold read_prune.
  rewrite filter_all.
  - rewrite bool_decide_eq_true_2 by done. by destruct st.
  - intros x Hx. destruct (Hc x Hx) as [_ ->]. by destruct (is_agora_event x).
Qed.

(** X10, witness: one queued event, and a batch that carries its local id. *)
Lemma read_prune_removes_nothing_witness :
  let st := handleCreateEvent "agora_1" enqueue_clock empty_draft
              {| outbox := []; stored := [] |} in
  read_prune {["agora_1"]} st = st ∧
  (∀ x, x ∈ outbox st →
        publishedEventId x = None ∧ confirmed_by {["agora_1"]} x = false).
Proof.
  apply (read_prune_removes_nothing
           (handleCreateEvent "agora_1" enqueue_clock empty_draft
              {| outbox := []; stored := [] |}) {["agora_1"]}).
  apply reachable_create, reachable_empty.
Defined.

(** *** Enqueue *)





(** With readings 600 ms apart the new item is created in one second and
    first due in the next. *)
Example enqueue_across_seconds :
  let item := new_event_item "agora_1" enqueue_clock empty_draft in
  created_at item = 1700000000 ∧ nextAttemptAt item = 1700000001.
Proof. vm_compute. done. Qed.

(** *** The throttled logger *)

Lemma throttled_log_inv interval now lg :
  0 ≤ interval →
  ((∀ i j a b, (i < j)%nat → warned lg !! i = Some a → warned lg !! j = Some b →
               interval < b - a) ∧
   (∀ i a, warned lg !! i = Some a → a ≤ log_last lg)) →
  let lg' := throttled_log interval now lg in
  (∀ i j a b, (i < j)%nat → warned lg' !! i = Some a → warned lg' !! j = Some b →
              interval < b - a) ∧
  (∀ i a, warned lg' !! i = Some a → a ≤ log_last lg').
Proof.
  intros Hi [Hs Hl]. cbn zeta. unfold throttled_log.
  destruct (interval <? now - log_last lg) eqn:E; [|done].
  apply Z.ltb_lt in E. cbn [warned log_last]. split.
  - intros i j a b Hij Ha Hb.
    apply lookup_app_Some in Hb as [Hb | [Hge Hb]].
    + apply lookup_app_Some in Ha as [Ha | [Hge' _]].
      * by eapply Hs.
      * apply lookup_lt_Some in Hb. lia.
    + apply list_lookup_singleton_Some in Hb as [Hj0 <-].
      apply lookup_app_Some in Ha as [Ha | [Hge' Ha]].
      * pose proof (Hl _ _ Ha). lia.
      * apply list_lookup_singleton_Some in Ha as [Ha' _]. lia.
  - intros i a Ha.
    apply lookup_app_Some in Ha as [Ha | [_ Ha]].
    + pose proof (Hl _ _ Ha). lia.
    + apply list_lookup_singleton_Some in Ha as [_ <-]. lia.
Qed.

Lemma throttled_fold_inv interval clocks :
  0 ≤ interval →
  ∀ lg,
    ((∀ i j a b, (i < j)%nat → warned lg !! i = Some a → warned lg !! j = Some b →
                 interval < b - a) ∧
     (∀ i a, warned lg !! i = Some a → a ≤ log_last lg)) →
    let lg' := foldl (λ l now, throttled_log interval now l) lg clocks in
    (∀ i j a b, (i < j)%nat → warned lg' !! i = Some a → warned lg' !! j = Some b →
                interval < b - a) ∧
    (∀ i a, warned lg' !! i = Some a → a ≤ log_last lg').
Proof.
  intros Hi. induction clocks as [|c clocks IH]; intros lg HI; [done|].
  cbn zeta. cbn [foldl]. apply IH. by apply throttled_log_inv.
Qed.

Lemma throttled_fold_sublist interval clocks :
  ∀ lg, ∃ l, warned (foldl (λ l now, throttled_log interval now l) lg clocks)
             = (warned lg ++ l)%list ∧ l `sublist_of` clocks.
Proof.
  induction clocks as [|c clocks IH]; intros lg; cbn [foldl].
  - exists []. by rewrite app_nil_r.
  - destruct (IH (throttled_log interval c lg)) as (l & -> & Hl).
    unfold throttled_log. destruct (interval <? c - log_last lg).
    + exists (c :: l). cbn [warned]. rewrite <- app_assoc. split; [done|].
      by apply sublist_skip.
    + exists l. split; [done|]. by apply sublist_cons.
Qed.

(** X12.  [warnParse], the logger made by [makeThrottledLogger(1500)],
    called at any clock readings in any order: the readings at which it
    reached [console.warn] are a subsequence of the calls, and any two of
    them are more than 1500 ms apart. *)
Theorem warnings_are_spaced (clocks : list Z) :
  (∀ i j a b, (i < j)%nat →
     warned (warnParse clocks) !! i = Some a →
     warned (warnParse clocks) !! j = Some b →
     1500 < b - a) ∧
  warned (warnParse clocks) `sublist_of` clocks.
Proof.
  split.
  - assert (H0 : (∀ i j a b, (i < j)%nat → warned logger_new !! i = Some a →
                    warned logger_new !! j = Some b → 1500 < b - a) ∧
                 (∀ i a, warned logger_new !! i = Some a → a ≤ log_last logger_new)).
    { split; [intros i' j' a' b' _ H|intros i' a' H]; simpl in H;
        by rewrite lookup_nil in H. }
    by destruct (throttled_fold_inv 1500 clocks ltac:(lia) logger_new H0) as [Hs _].
  - destruct (throttled_fold_sublist 1500 clocks logger_new) as (l & Hl & Hs).
    unfold warnParse. by rewrite Hl.
Qed.

End OutboxFacts.

Module RouterFacts.
Import Router.

Local Open Scope string_scope.
Local Open Scope Z_scope.
Local Open Scope list_scope.

(** *** The bounded wait *)

Lemma waitForOpen_loop_terminates timeoutMs start clock env :
  (∀ k, clock k + 150 ≤ clock (S k)) →
  ∀ fuel k c,
    timeoutMs - (clock k - start) ≤ 150 * Z.of_nat fuel →
    is_Some (waitForOpen_loop (S fuel) timeoutMs start clock env k c).
Proof.
  intros Hsleep. induction fuel as [|fuel IH]; intros k c Hleft; simpl.
  - destruct (clock k - start <? timeoutMs) eqn:E; [|by eexists].
    apply Z.ltb_lt in E. lia.
  - destruct (clock k - start <? timeoutMs) eqn:E; [|by eexists].
    destruct (Conn.ws_open c); [by eexists|].
    apply IH. pose proof (Hsleep k). lia.
Qed.

Lemma waitForOpen_terminates clock env c :
  (∀ k, clock k + 150 ≤ clock (S k)) → is_Some (waitForOpen clock env c).
Proof.
  intros Hsleep. unfold waitForOpen.
  apply waitForOpen_loop_terminates; [done|]. lia.
Qed.

Lemma waitForOpen_loop_result fuel timeoutMs start clock env :
  ∀ k c ok c', waitForOpen_loop fuel timeoutMs start clock env k c = Some (ok, c') →
               Conn.ws_open c' = ok.
Proof.
  induction fuel as [|fuel IH]; intros k c ok c' H; simpl in H; [done|].
  destruct (clock k - start <? timeoutMs).
  - destruct (Conn.ws_open c) eqn:E; [by inversion H; subst|]. by eapply IH.
  - by inversion H; subst.
Qed.

Lemma waitForOpen_result clock env c ok c' :
  waitForOpen clock env c = Some (ok, c') → Conn.ws_open c' = ok.
Proof. apply waitForOpen_loop_result. Qed.

(** *** One subscription *)

Section one_subscription.
Variable subId : string.
Variable Q0 : gmap string AQ.

Lemma on_queue_sub f cn H a s m :
  on_queue subId f (sub_state subId cn H Q0 a s m) = sub_state subId cn H Q0 (f a) s m.
Proof. unfold on_queue, sub_state. simpl. by rewrite alter_insert_eq. Qed.

Lemma consumer_next_sub cn H a s m :
  consumer_next subId (sub_state subId cn H Q0 a s m)
  = sub_state subId cn H Q0 (if waiting a || finished a then a else aq_next a) s m.
Proof. apply on_queue_sub. Qed.

Lemma tick_close cn H a s m :
  tick (sub_state subId cn H Q0 a s (CloseThenEnd subId :: m))
  = sub_state subId cn (delete subId H) Q0 a
      (if Conn.ws_open cn then s ++ [[Str "CLOSE"; Str subId]] else s)
      (m ++ [EndOnly subId]).
Proof.
  unfold tick, closeSub, sendRaw, queue_task, sub_state. simpl.
  by destruct (Conn.ws_open cn).
Qed.

Lemma tick_end cn H a s m :
  tick (sub_state subId cn H Q0 a s (EndOnly subId :: m))
  = sub_state subId cn H Q0 (aq_end a) s m.
Proof.
  unfold tick. simpl. change (on_queue subId aq_end (sub_state subId cn H Q0 a s m)
    = sub_state subId cn H Q0 (aq_end a) s m). apply on_queue_sub.
Qed.

Variable cn : Conn.State.
Variable H : gmap string (list string).
Variable s0 : list Msg.
Variable e : Msg.

Lemma turn_C_grid c t :
  (c ≤ 2)%nat → (t ≤ 2)%nat →
  turn subId C (grid subId cn H Q0 s0 e c t) = grid subId cn H Q0 s0 e (Nat.min 2 (S c)) t.
Proof.
  intros Hc Ht. unfold turn, grid. rewrite consumer_next_sub.
  destruct c as [|[|[|c]]]; [| | |lia];
    (destruct t as [|[|[|t]]]; [| | |lia]); reflexivity.
Qed.

Lemma turn_T_grid c t :
  (c ≤ 2)%nat → (t ≤ 2)%nat →
  turn subId T (grid subId cn H Q0 s0 e c t) = grid subId cn H Q0 s0 e c (Nat.min 2 (S t)).
Proof.
  intros Hc Ht. unfold turn, grid.
  destruct t as [|[|[|t]]]; [| | |lia]; cbn [grid_tasks grid_sent grid_handlers].
  - rewrite tick_close.
    destruct c as [|[|[|c]]]; [| | |lia]; reflexivity.
  - rewrite tick_end. cbn [Nat.min grid_handlers grid_sent grid_tasks].
    destruct c as [|[|[|c]]]; [| | |lia]; reflexivity.
  - destruct c as [|[|[|c]]]; [| | |lia]; reflexivity.
Qed.

Lemma count_cons t x sched :
  count t (x :: sched) = ((if decide (x = t) then 1 else 0) + count t sched)%nat.
Proof. unfold count. rewrite filter_cons. by destruct (decide (x = t)). Qed.

Lemma run_cons x sched st :
  run subId (x :: sched) st = run subId sched (turn subId x st).
Proof. reflexivity. Qed.

Lemma run_grid sched :
  ∀ c t, (c ≤ 2)%nat → (t ≤ 2)%nat →
    run subId sched (grid subId cn H Q0 s0 e c t)
    = grid subId cn H Q0 s0 e (Nat.min 2 (c + count C sched)) (Nat.min 2 (t + count T sched)).
Proof.
  induction sched as [|x sched IH]; intros c t Hc Ht.
  - change (count C []) with 0%nat. change (count T []) with 0%nat.
    rewrite !Nat.add_0_r, !Nat.min_r by lia. done.
  - rewrite run_cons, !count_cons. destruct x.
    + rewrite turn_C_grid by done. rewrite IH by lia.
      rewrite decide_True by done. rewrite decide_False by done.
      f_equal; lia.
    + rewrite turn_T_grid by done. rewrite IH by lia.
      rewrite decide_False by done. rewrite decide_True by done.
      f_equal; lia.
Qed.

Lemma received_grid c t : received subId (grid subId cn H Q0 s0 e c t) = results (grid_aq e c t).
Proof. unfold received, Router.grid, sub_state. simpl. by rewrite lookup_insert_eq. Qed.

(** Before the marker: the first turn of the consumer leaves a promise
    pending, later turns wait for it, and there is no microtask. *)
Lemma run_before sched :
  ∀ n, run subId sched (sub_state subId cn H Q0 (pre_aq n) s0 [])
       = sub_state subId cn H Q0 (pre_aq (n + count C sched)) s0 [].
Proof.
  induction sched as [|x sched IH]; intros n.
  - change (count C []) with 0%nat. by rewrite Nat.add_0_r.
  - rewrite run_cons, count_cons. destruct x; cbn [turn].
    + rewrite consumer_next_sub, decide_True by done.
      assert (E : (if waiting (pre_aq n) || finished (pre_aq n)
                   then pre_aq n else aq_next (pre_aq n)) = pre_aq (S n))
        by (destruct n; reflexivity).
      rewrite E, IH. do 2 f_equal. lia.
    + rewrite decide_False by done.
      change (tick (sub_state subId cn H Q0 (pre_aq n) s0 []))
        with (sub_state subId cn H Q0 (pre_aq n) s0 []).
      apply IH.
Qed.

End one_subscription.

Lemma req_start_sub subId st :
  subHandlers st !! subId = None → microtasks st = [] →
  req_start subId st
  = sub_state subId (conn st) (<[subId := [subId]]> (subHandlers st)) (queues st)
              (pre_aq 0) (sent st) [].
Proof.
  intros Hf Hm. unfold req_start, sub_state. rewrite Hf, Hm. reflexivity.
Qed.

(** The end marker reaching the handler of [subId]. *)
Lemma deliver_eose subId cn H Q0 n s :
  subId ≠ "" →
  handleMessage (Some (eose subId))
    (sub_state subId cn (<[subId := [subId]]> H) Q0 (pre_aq n) s [])
  = grid subId cn (<[subId := [subId]]> H) Q0 s (eose subId) (Nat.min 1 n) 0.
Proof.
  intros Hne. unfold handleMessage, eose. cbn [lookup list_lookup].
  destruct subId as [|ch r]; [done|].
  cbn [subHandlers sub_state]. rewrite lookup_insert_eq. cbn [foldl].
  unfold handler. rewrite on_queue_sub.
  destruct n; reflexivity.
Qed.

(** The timeout branch of the async block of [req]. *)
Lemma timeout_branch subId cn H Q0 n s :
  Conn.ws_open cn = false →
  queue_task (EndOnly subId)
    (closeSub subId
       (on_queue subId (aq_push (eose subId)) (sub_state subId cn H Q0 (pre_aq n) s [])))
  = grid subId cn H Q0 s (eose subId) (Nat.min 1 n) 1.
Proof.
  intros Hc. rewrite on_queue_sub.
  unfold closeSub, queue_task, grid, sub_state, grid_sent. simpl. rewrite Hc.
  destruct n; reflexivity.
Qed.

Lemma with_conn_sub subId cn c' H Q0 a s m :
  with_conn c' (sub_state subId cn H Q0 a s m) = sub_state subId c' H Q0 a s m.
Proof. reflexivity. Qed.

Lemma send_open subId payload cn c' H Q0 a s m :
  Conn.ws_open c' = true →
  (sendRaw payload (with_conn c' (sub_state subId cn H Q0 a s m))).1
  = sub_state subId c' H Q0 a (s ++ [payload]) m.
Proof. intros Ho. unfold sendRaw. cbn [with_conn conn sub_state]. by rewrite Ho. Qed.

(** C3, as the code has it.  [req] registers its handler; the consumer
    and the microtask queue then take turns in any order ([pre], [mid],
    [post]).  The bounded wait returns whenever each 150 ms sleep lasts at
    least 150 ms.  If it returns false, the end marker is pushed by [req]
    itself; if it returns true, the REQ frame is sent and the end marker
    arrives from the relay before any EVENT frame.  In both cases, once the
    consumer has taken two turns and the queued microtasks have run, the
    consumer has received exactly the end-marker frame followed by [done],
    the handler is unregistered and no microtask is left; after a timeout
    nothing was sent, and otherwise exactly the REQ frame and one CLOSE
    frame were. *)
Theorem req_end_marker (st : State) (subId : string) (filters : list Elem)
    (clock : nat → Z) (env : nat → Conn.State → Conn.State) (pre : list Turn) :
  subId ≠ "" → subHandlers st !! subId = None → microtasks st = [] →
  let st2 := req_body clock env subId filters (run subId pre (req_start subId st)) in
  match waitForOpen clock env (conn st) with
  | None => ¬ (∀ k, clock k + 150 ≤ clock (S k))
  | Some (false, _) =>
      ∀ post, (2 ≤ Nat.min 1 (count C pre) + count C post)%nat →
              (1 ≤ count T post)%nat →
        let fin := run subId post st2 in
        received subId fin = [Value (eose subId); Done] ∧
        sent fin = sent st ∧
        subHandlers fin !! subId = None ∧ microtasks fin = []
  | Some (true, c') =>
      ∀ mid post, (2 ≤ Nat.min 1 (count C (pre ++ mid)) + count C post)%nat →
                  (2 ≤ count T post)%nat →
        let st3 := onmessage (Conn.generation c') (Some (eose subId)) (run subId mid st2) in
        let fin := run subId post st3 in
        received subId fin = [Value (eose subId); Done] ∧
        sent fin = sent st ++ [Str "REQ" :: Str subId :: filters; [Str "CLOSE"; Str subId]] ∧
        subHandlers fin !! subId = None ∧ microtasks fin = []
  end.
Proof.
  intros Hne Hfresh Hmt st2. subst st2.
  rewrite (req_start_sub subId st Hfresh Hmt), run_before.
  unfold req_body. cbn [conn sub_state].
  destruct (waitForOpen clock env (conn st)) as [[ok c']|] eqn:Hw.
  2:{ intros Hsleep. destruct (waitForOpen_terminates clock env (conn st) Hsleep). congruence. }
  pose proof (waitForOpen_result _ _ _ _ _ Hw) as Hopen.
  destruct ok; cbv beta iota.
  - (* the socket opened: REQ is sent, then the relay answers EOSE *)
    intros mid post Hc Ht.
    rewrite (send_open subId _ _ c' _ _ _ _ _ Hopen), run_before.
    unfold onmessage. cbn [conn sub_state].
    rewrite Z.eqb_refl. cbn [negb].
    change (handleMessage (Some (eose subId)) _) with
      (handleMessage (Some (eose subId))
         (sub_state subId c' (<[subId := [subId]]> (subHandlers st)) (queues st)
            (pre_aq (0 + count C pre + count C mid))
            (sent st ++ [Str "REQ" :: Str subId :: filters]) [])).
    rewrite deliver_eose by done. rewrite run_grid by lia.
    assert (Hcount : count C (pre ++ mid) = (count C pre + count C mid)%nat).
    { unfold count. by rewrite filter_app, length_app. }
    rewrite Hcount in Hc.
    replace (Nat.min 2 (Nat.min 1 (0 + count C pre + count C mid) + count C post)) with 2%nat by lia.
    replace (Nat.min 2 (0 + count T post)) with 2%nat by lia.
    rewrite received_grid. unfold grid, sub_state, grid_sent. simpl. rewrite Hopen.
    rewrite lookup_delete_eq, <- app_assoc. done.
  - (* the wait timed out: the marker is synthesized *)
    intros post Hc Ht.
    rewrite with_conn_sub, timeout_branch by done. rewrite run_grid by lia.
    replace (Nat.min 2 (Nat.min 1 (0 + count C pre) + count C post)) with 2%nat by lia.
    replace (Nat.min 2 (1 + count T post)) with 2%nat by lia.
    rewrite received_grid. unfold grid, sub_state, grid_sent. simpl. rewrite Hopen.
    rewrite lookup_delete_eq. done.
Qed.

(** C3, witness: the feed's read on a fresh router whose relay accepts the
    first socket; the consumer asks once before the wait ends. *)
Lemma req_end_marker_witness :
  match waitForOpen clock150 env_accept (conn initial) with
  | None => ¬ (∀ k, clock150 k + 150 ≤ clock150 (S k))
  | Some (false, _) =>
      ∀ post, (2 ≤ Nat.min 1 (count C [C]) + count C post)%nat →
              (1 ≤ count T post)%nat →
        let fin := run "req_x" post
                     (req_body clock150 env_accept "req_x" feed_filters
                        (run "req_x" [C] (req_start "req_x" initial))) in
        received "req_x" fin = [Value (eose "req_x"); Done] ∧
        sent fin = sent initial ∧
        subHandlers fin !! "req_x" = None ∧ microtasks fin = []
  | Some (true, c') =>
      ∀ mid post, (2 ≤ Nat.min 1 (count C ([C] ++ mid)) + count C post)%nat →
                  (2 ≤ count T post)%nat →
        let st3 := onmessage (Conn.generation c') (Some (eose "req_x"))
                     (run "req_x" mid
                        (req_body clock150 env_accept "req_x" feed_filters
                           (run "req_x" [C] (req_start "req_x" initial)))) in
        let fin := run "req_x" post st3 in
        received "req_x" fin = [Value (eose "req_x"); Done] ∧
        sent fin = sent initial ++ [Str "REQ" :: Str "req_x" :: feed_filters;
                                    [Str "CLOSE"; Str "req_x"]] ∧
        subHandlers fin !! "req_x" = None ∧ microtasks fin = []
  end.
Proof.
  apply (req_end_marker initial "req_x" feed_filters clock150 env_accept [C]);
    [discriminate | reflexivity | reflexivity].
Defined.

(** The timeout branch on a relay that never answers: the consumer gets
    the synthesized marker, then [done]; nothing is sent. *)
Example req_timeout_example :
  let fin := run "req_x" [C; T; C]
               (req_body clock150 env_silent "req_x" feed_filters
                  (req_start "req_x" initial)) in
  waitForOpen clock150 env_silent (conn initial)
    = Some (false, Conn.connectToWebSocket Conn.initial) ∧
  received "req_x" fin = [Value (eose "req_x"); Done] ∧ sent fin = [].
Proof. vm_compute. done. Qed.

(** C3, counterexample.  The relay accepts the socket and answers the REQ
    with [["EOSE", "req_x"]] before any EVENT frame.  The consumer's first
    [next()] resolves to that frame, so the sequence it iterates has one
    item, not zero, before [done]. *)
Lemma eose_first_yields_the_marker :
  let fin := eose_first env_accept [] [C; C; T; T] in
  received "req_x" fin = [Value [Str "EOSE"; Str "req_x"]; Done] ∧
  received "req_x" fin ≠ [Done] ∧
  sent fin = [Str "REQ" :: Str "req_x" :: feed_filters; [Str "CLOSE"; Str "req_x"]].
Proof. vm_compute. repeat split; done. Qed.

(** A consumer that leaves its loop on the marker, as the feed's read
    cycle does with [break], calls [wrapped.return()]; [closeSub] runs a
    second time and a second CLOSE frame goes out. *)
Remark early_return_closes_twice :
  sent (consumer_return "req_x" (eose_first env_accept [] [C; T]))
  = [Str "REQ" :: Str "req_x" :: feed_filters;
     [Str "CLOSE"; Str "req_x"]; [Str "CLOSE"; Str "req_x"]].
Proof. vm_compute. done. Qed.

(** *** Inbound dispatch *)

Lemma unroutable_dropped (st : State) (msg : Msg) :
  (∀ s, msg !! 1%nat = Some (Str s) → s = "" ∨ subHandlers st !! s = None) →
  handleMessage (Some msg) st = st.
Proof.
  intros H. unfold handleMessage.
  destruct (msg !! 1%nat) as [[s|j]|] eqn:E; try done.
  destruct s as [|c r]; [done|].
  destruct (H _ eq_refl) as [?| ->]; done.
Qed.

(** *** Handler sets *)

Lemma sendRaw_handlers p st : subHandlers (sendRaw p st).1 = subHandlers st.
Proof. unfold sendRaw. by destruct (Conn.ws_open (conn st)). Qed.

Lemma closeSub_handlers s st : subHandlers (closeSub s st) = delete s (subHandlers st).
Proof.
  unfold closeSub. destruct (Conn.ws_open (conn st)); [|done].
  cbn [subHandlers]. by rewrite sendRaw_handlers.
Qed.

Lemma handler_handlers o msg st : subHandlers (handler o msg st) = subHandlers st.
Proof.
  unfold handler. destruct msg as [|[s|j] rest]; try done.
  repeat (match goal with |- context [match ?s with _ => _ end] => destruct s; try done end).
Qed.

Lemma fold_handlers msg hs : ∀ st,
  subHandlers (foldl (λ acc h, handler h msg acc) st hs) = subHandlers st.
Proof.
  induction hs as [|h hs IH]; intros st; [done|]. simpl.
  by rewrite IH, handler_handlers.
Qed.

Lemma handleMessage_handlers data st :
  subHandlers (handleMessage data st) = subHandlers st.
Proof.
  unfold handleMessage. destruct data as [msg|]; [|done].
  destruct (msg !! 1%nat) as [[[|c r]|j]|]; try done.
  destruct (subHandlers st !! String c r); [|done]. apply fold_handlers.
Qed.

Lemma own_handlers_reachable st : reachable st → own_handlers st.
Proof.
  unfold own_handlers.
  induction 1 as [|st subId _ IH Hfresh|st clock env subId filters _ IH
                  |st g data _ IH|st _ IH|st subId _ IH|st subId _ IH|st _ IH
                  |st clock env ev _ IH|st c _ IH]; intros k hs Hk.
  - done.
  - cbn [req_start subHandlers] in Hk. rewrite Hfresh in Hk. simpl in Hk.
    apply lookup_insert_Some in Hk as [[<- <-]|[_ Hk]]; [done|by eapply IH].
  - unfold req_body in Hk. destruct (waitForOpen clock env (conn st)) as [[ok c]|];
      [|by eapply IH].
    destruct ok.
    + rewrite sendRaw_handlers in Hk. by eapply IH.
    + cbn [queue_task subHandlers] in Hk. rewrite closeSub_handlers in Hk.
      apply lookup_delete_Some in Hk as [_ Hk]. by eapply IH.
  - unfold onmessage in Hk. destruct (negb _); [by eapply IH|].
    rewrite handleMessage_handlers in Hk. by eapply IH.
  - unfold tick in Hk. destruct (microtasks st) as [|[s|s] rest]; [by eapply IH| |].
    + cbn [queue_task subHandlers] in Hk. rewrite closeSub_handlers in Hk.
      apply lookup_delete_Some in Hk as [_ Hk]. by eapply IH.
    + by eapply IH.
  - by eapply IH.
  - unfold consumer_return in Hk. cbn [on_queue subHandlers] in Hk.
    rewrite closeSub_handlers in Hk.
    apply lookup_delete_Some in Hk as [_ Hk]. by eapply IH.
  - done.
  - unfold pool_event in Hk. destruct (waitForOpen clock env (conn st)) as [[ok c]|];
      [|by eapply IH].
    destruct ok; [|by eapply IH].
    cbn [fst] in Hk. rewrite sendRaw_handlers in Hk. by eapply IH.
  - by eapply IH.
Qed.

Lemma routed_frame (st : State) (msg : Msg) (A : string) :
  reachable st → msg !! 1%nat = Some (Str A) → A ≠ "" → is_Some (subHandlers st !! A) →
  let st' := handleMessage (Some msg) st in
  st' = handler A msg st ∧
  queues st' = alter (aq_push msg) A (queues st) ∧
  (∀ B, B ≠ A → queues st' !! B = queues st !! B) ∧
  microtasks st' = microtasks st ++
    match msg with Str "EOSE" :: _ => [CloseThenEnd A] | _ => [] end ∧
  sent st' = sent st ∧ subHandlers st' = subHandlers st ∧ conn st' = conn st.
Proof.
  intros Hr Hm HA [hs Hhs]. cbn zeta.
  pose proof (own_handlers_reachable st Hr A hs Hhs) as ->.
  assert (E : handleMessage (Some msg) st = handler A msg st).
  { unfold handleMessage. rewrite Hm. destruct A as [|c r]; [done|]. by rewrite Hhs. }
  rewrite E. split; [done|].
  assert (Hq : queues (handler A msg st) = alter (aq_push msg) A (queues st)).
  { unfold handler. destruct msg as [|[s|j] rest]; try done.
    repeat (match goal with |- context [match ?s with _ => _ end] => destruct s; try done end). }
  split; [done|]. split.
  { intros B HB. rewrite Hq. by apply lookup_alter_ne. }
  rewrite handler_handlers.
  unfold handler. destruct msg as [|[s|j] rest]; cbn [on_queue microtasks sent conn];
    rewrite ?app_nil_r; try done.
  repeat (match goal with |- context [match ?s with _ => _ end] =>
            destruct s; cbn [on_queue queue_task microtasks sent conn];
            rewrite ?app_nil_r; try done end).
Qed.

Lemma two_subs_reachable : reachable two_subs.
Proof.
  unfold two_subs. apply reachable_req; [apply reachable_req|].
  - apply reachable_initial.
  - apply lookup_empty.
  - vm_compute. reflexivity.
Qed.

(** X13.  Inbound dispatch, in every reachable router state.  A message
    that is not a JSON array, a frame delivered by a socket of another
    generation, and a frame whose second element is not a string, is the
    empty string or names an id without a registered handler all change
    nothing.  A frame whose second element is the id [A] of a registered
    subscription runs the handler of [A] once and nothing else: it is pushed
    on the queue of [A], the queue of every other id is untouched, nothing
    is sent, no handler is added or removed, and a microtask (the
    auto-close) is queued only when the frame starts with ["EOSE"]. *)
Theorem inbound_dispatch (st : State) (msg : Msg) :
  reachable st →
  handleMessage None st = st ∧
  (∀ g, g ≠ Conn.generation (conn st) → onmessage g (Some msg) st = st) ∧
  ((∀ s, msg !! 1%nat = Some (Str s) → s = "" ∨ subHandlers st !! s = None) →
   handleMessage (Some msg) st = st) ∧
  (∀ A, msg !! 1%nat = Some (Str A) → A ≠ "" → is_Some (subHandlers st !! A) →
     let st' := handleMessage (Some msg) st in
     st' = handler A msg st ∧
     queues st' = alter (aq_push msg) A (queues st) ∧
     (∀ B, B ≠ A → queues st' !! B = queues st !! B) ∧
     microtasks st' = microtasks st ++
       match msg with Str "EOSE" :: _ => [CloseThenEnd A] | _ => [] end ∧
     sent st' = sent st ∧ subHandlers st' = subHandlers st ∧ conn st' = conn st).
Proof.
  intros Hr. split; [done|]. split; [|split].
  - intros g Hg. unfold onmessage.
    replace (g =? Conn.generation (conn st)) with false
      by (symmetry; by apply Z.eqb_neq).
    done.
  - apply unroutable_dropped.
  - intros A. by apply routed_frame.
Qed.

(** X13, witness: frames arriving while two subscriptions are registered. *)
Lemma inbound_dispatch_witness :
  handleMessage None two_subs = two_subs ∧
  (∀ g, g ≠ Conn.generation (conn two_subs) →
        onmessage g (Some (event_for "req_a")) two_subs = two_subs) ∧
  ((∀ s, event_for "req_a" !! 1%nat = Some (Str s) →
         s = "" ∨ subHandlers two_subs !! s = None) →
   handleMessage (Some (event_for "req_a")) two_subs = two_subs) ∧
  (∀ A, event_for "req_a" !! 1%nat = Some (Str A) → A ≠ "" →
        is_Some (subHandlers two_subs !! A) →
     let st' := handleMessage (Some (event_for "req_a")) two_subs in
     st' = handler A (event_for "req_a") two_subs ∧
     queues st' = alter (aq_push (event_for "req_a")) A (queues two_subs) ∧
     (∀ B, B ≠ A → queues st' !! B = queues two_subs !! B) ∧
     microtasks st' = microtasks two_subs ++
       match event_for "req_a" with Str "EOSE" :: _ => [CloseThenEnd A] | _ => [] end ∧
     sent st' = sent two_subs ∧ subHandlers st' = subHandlers two_subs ∧
     conn st' = conn two_subs).
Proof. apply (inbound_dispatch two_subs (event_for "req_a")), two_subs_reachable. Defined.

(** *** Leaving a subscription *)

Lemma closeSub_sent s st :
  sent (closeSub s st) =
    if Conn.ws_open (conn st) then sent st ++ [[Str "CLOSE"; Str s]] else sent st.
Proof. unfold closeSub, sendRaw. by destruct (Conn.ws_open (conn st)). Qed.

Lemma closeSub_queues s st : queues (closeSub s st) = queues st.
Proof. unfold closeSub, sendRaw. by destruct (Conn.ws_open (conn st)). Qed.

Lemma closeSub_conn s st : conn (closeSub s st) = conn st.
Proof. unfold closeSub, sendRaw. by destruct (Conn.ws_open (conn st)). Qed.

Lemma aq_end_done a : done (aq_end a) = true ∧ q (aq_end a) = q a.
Proof. unfold aq_end. destruct (done a) eqn:E; [done|]. by destruct (waiting a). Qed.

(** X14.  [wrapped.return()], from any state: the handler set of the
    subscription is gone, its queue is ended with its buffer kept and drops
    every later push, one ["CLOSE", subId] frame is sent if and only if the
    socket is OPEN, and every later frame addressed to the id is dropped. *)
Theorem early_return_cleans_up (subId : string) (st : State) :
  let st' := consumer_return subId st in
  subHandlers st' !! subId = None ∧
  (∀ a, queues st !! subId = Some a →
        ∃ a', queues st' !! subId = Some a' ∧ done a' = true ∧ q a' = q a ∧
              ∀ m, aq_push m a' = a') ∧
  sent st' = (if Conn.ws_open (conn st)
              then sent st ++ [[Str "CLOSE"; Str subId]] else sent st) ∧
  (∀ g msg, msg !! 1%nat = Some (Str subId) → onmessage g (Some msg) st' = st').
Proof.
  cbn zeta. unfold consumer_return.
  assert (Hh : subHandlers (on_queue subId aq_return (closeSub subId st)) !! subId = None).
  { cbn [on_queue subHandlers]. rewrite closeSub_handlers. apply lookup_delete_eq. }
  split; [done|]. split; [|split].
  - intros a Ha. exists (aq_return a).
    cbn [on_queue queues]. rewrite closeSub_queues, lookup_alter_eq, Ha.
    destruct (aq_end_done a) as [Hd Hq].
    split; [done|]. unfold aq_return. cbn [done q]. split; [done|]. split; [done|].
    intros m. unfold aq_push. cbn [done]. by rewrite Hd.
  - cbn [on_queue sent]. apply closeSub_sent.
  - intros g msg Hm. unfold onmessage. destruct (negb _); [done|].
    unfold handleMessage. rewrite Hm. destruct subId as [|c r]; [done|]. by rewrite Hh.
Qed.

(** *** Manual close *)

Lemma ws_open_after_close c : Conn.ws_open (Conn.closeWebSocket c) = false.
Proof. done. Qed.

(** X15.  After [closeWebSocket()], from any state: no subscription
    handler is left, every inbound message is dropped, [sendRaw] sends
    nothing and returns false, [closeSub] changes nothing, and a second
    [closeWebSocket()] only repeats the state notification. *)
Theorem close_drops_subscriptions (st : State) :
  let st' := closeWebSocket st in
  subHandlers st' = ∅ ∧
  (∀ g data, onmessage g data st' = st') ∧
  (∀ payload, sendRaw payload st' = (st', false)) ∧
  (∀ s, closeSub s st' = st') ∧
  closeWebSocket st' = with_conn (Conn.notifyState false (conn st')) st'.
Proof.
  cbn zeta. split; [done|]. split; [|split; [|split]].
  - intros g data. unfold onmessage. destruct (negb _); [done|].
    unfold handleMessage. destruct data as [msg|]; [|done].
    destruct (msg !! 1%nat) as [[[|c r]|j]|]; try done.
  - intros payload. done.
  - intros s. unfold closeSub. cbn [closeWebSocket conn].
    rewrite ws_open_after_close.
    unfold closeWebSocket. cbn [subHandlers conn queues sent microtasks]. by rewrite delete_empty.
  - done.
Qed.

(** *** The bounded wait, continued *)

Lemma waitForOpen_loop_late timeoutMs start clock env :
  ∀ fuel k c c',
    waitForOpen_loop fuel timeoutMs start clock env k c = Some (false, c') →
    ∃ j, (k ≤ j < k + fuel)%nat ∧ timeoutMs ≤ clock j - start.
Proof.
  induction fuel as [|fuel IH]; intros k c c' H; simpl in H; [done|].
  destruct (clock k - start <? timeoutMs) eqn:E.
  - destruct (Conn.ws_open c); [done|].
    destruct (IH _ _ _ H) as (j & Hj & Hc). exists j. split; [lia|done].
  - apply Z.ltb_ge in E. exists k. split; [lia|done].
Qed.

(** X16.  When [waitForOpen()] returns, its result is whether the socket
    is OPEN at that moment; it returns false only after a clock reading at
    least 12000 ms past its start, taken at one of its first 81 loop tests;
    and with the socket already OPEN it returns true at once and leaves the
    connection manager as it was. *)
Theorem bounded_wait_outcome (clock : nat → Z) (env : nat → Conn.State → Conn.State)
    (c c' : Conn.State) (ok : bool) :
  waitForOpen clock env c = Some (ok, c') →
  Conn.ws_open c' = ok ∧
  (ok = false → ∃ k, (k ≤ 80)%nat ∧ 12000 ≤ clock k - clock 0%nat) ∧
  (Conn.ws_open c = true → ok = true ∧ c' = c).
Proof.
  intros H. split; [by eapply waitForOpen_result|]. split.
  - intros ->. destruct (waitForOpen_loop_late _ _ _ _ _ _ _ _ H) as (j & Hj & Hc).
    exists j. split; [lia|done].
  - intros Ho. unfold waitForOpen in H. cbn [waitForOpen_loop] in H.
    rewrite Z.sub_diag in H. change (0 <? 12000) with true in H. cbv iota in H.
    rewrite Ho in H. by inversion H.
Qed.

(** X16, witness: a relay that never answers. *)
Lemma bounded_wait_outcome_witness :
  Conn.ws_open (Conn.connectToWebSocket Conn.initial) = false ∧
  (false = false → ∃ k, (k ≤ 80)%nat ∧ 12000 ≤ clock150 k - clock150 0%nat) ∧
  (Conn.ws_open Conn.initial = true →
   false = true ∧ Conn.connectToWebSocket Conn.initial = Conn.initial).
Proof.
  apply (bounded_wait_outcome clock150 env_silent Conn.initial
           (Conn.connectToWebSocket Conn.initial) false).
  vm_compute. reflexivity.
Defined.

(** *** Publishing *)

Lemma pool_event_cases (clock : nat → Z) (env : nat → Conn.State → Conn.State)
    (ev : Elem) (st : State) :
  (∀ k, clock k + 150 ≤ clock (S k)) →
  let r := pool_event clock env ev st in
  subHandlers r.1 = subHandlers st ∧ queues r.1 = queues st ∧
  microtasks r.1 = microtasks st ∧
  ((r.2 = None ∧ sent r.1 = sent st ++ [[Str "EVENT"; ev]] ∧
    Conn.ws_open (conn r.1) = true) ∨
   (r.2 = Some "No relay connection available" ∧ sent r.1 = sent st ∧
    Conn.ws_open (conn r.1) = false)).
Proof.
  intros Hsleep. cbn zeta. unfold pool_event.
  destruct (waitForOpen_terminates clock env (conn st) Hsleep) as [[ok c] Hw].
  rewrite Hw. pose proof (waitForOpen_result _ _ _ _ _ Hw) as Ho.
  destruct ok.
  - unfold sendRaw. cbn [with_conn conn]. rewrite Ho. cbn [fst snd].
    repeat split; try done. left. done.
  - cbn [fst snd with_conn conn subHandlers queues microtasks sent].
    repeat split; try done. right. done.
Qed.

(** X17.  [pool.event(ev)], with a clock that advances by at least 150 ms
    per sleep: either the wait ended with the socket OPEN, exactly one frame
    ["EVENT", ev] is sent and nothing is thrown, or the wait timed out,
    nothing is sent and the error is "No relay connection available"; in
    both cases handlers, queues and microtasks are untouched.  ([ws.send]
    itself is taken not to throw.) *)
Theorem publish_outcomes (clock : nat → Z) (env : nat → Conn.State → Conn.State)
    (ev : Elem) (st : State) :
  (∀ k, clock k + 150 ≤ clock (S k)) →
  let r := pool_event clock env ev st in
  subHandlers r.1 = subHandlers st ∧ queues r.1 = queues st ∧
  microtasks r.1 = microtasks st ∧
  ((r.2 = None ∧ sent r.1 = sent st ++ [[Str "EVENT"; ev]] ∧
    Conn.ws_open (conn r.1) = true) ∨
   (r.2 = Some "No relay connection available" ∧ sent r.1 = sent st ∧
    Conn.ws_open (conn r.1) = false)).
Proof. apply pool_event_cases. Qed.

(** X17, witness: publishing on a fresh router whose relay never answers. *)
Lemma publish_outcomes_witness :
  let r := pool_event clock150 env_silent (Raw "{}") initial in
  subHandlers r.1 = subHandlers initial ∧ queues r.1 = queues initial ∧
  microtasks r.1 = microtasks initial ∧
  ((r.2 = None ∧ sent r.1 = sent initial ++ [[Str "EVENT"; Raw "{}"]] ∧
    Conn.ws_open (conn r.1) = true) ∨
   (r.2 = Some "No relay connection available" ∧ sent r.1 = sent initial ∧
    Conn.ws_open (conn r.1) = false)).
Proof.
  apply (publish_outcomes clock150 env_silent (Raw "{}") initial).
  intros k. unfold clock150. lia.
Defined.

(** *** The queue *)

Lemma values_snoc rs r :
  values (rs ++ [r]) = values rs ++ match r with Value m => [m] | Done => [] end.
Proof. unfold values. rewrite omap_app. by destruct r. Qed.

Lemma aq_run_fifo ops :
  ∀ a, (waiting a = true → q a = []) →
       values (results (aq_run ops a)) ++ q (aq_run ops a)
       = values (results a) ++ q a ++ (if done a then [] else accepted ops).
Proof.
  induction ops as [|o ops IH]; intros a Hw.
  - simpl. destruct (done a); by rewrite app_nil_r.
  - unfold aq_run. cbn [foldl]. fold (aq_run ops (aq_apply a o)).
    destruct a as [qa wa da ra]. cbn [waiting q done results] in *.
    destruct o as [m| | |]; cbn [aq_apply accepted].
    + (* push *)
      unfold aq_push. cbn [waiting q done results].
      destruct da; [by rewrite IH|].
      destruct wa.
      * rewrite IH by done. cbn [results q done]. rewrite values_snoc.
        rewrite (Hw eq_refl). by rewrite <- app_assoc.
      * rewrite IH by done. cbn [results q done]. by rewrite <- !app_assoc.
    + (* end *)
      unfold aq_end. cbn [waiting q done results].
      destruct da; [by rewrite IH|].
      destruct wa; rewrite IH by done; cbn [results q done];
        by rewrite ?values_snoc, ?app_nil_r.
    + (* next *)
      unfold aq_next. cbn [waiting q done results].
      destruct qa as [|v rest].
      * destruct da; rewrite IH by done; cbn [results q done];
          by rewrite ?values_snoc, ?app_nil_r.
      * assert (wa = false) as -> by (destruct wa; [by specialize (Hw eq_refl)|done]).
        rewrite IH by done. cbn [results q done].
        rewrite values_snoc. by rewrite <- !app_assoc.
    + (* return *)
      unfold aq_return, aq_end. cbn [waiting q done results].
      destruct da; [|destruct wa]; cbn [waiting q done results];
        rewrite IH by done; cbn [results q done];
        by rewrite ?values_snoc, ?app_nil_r.
Qed.

(** X18.  For every sequence of [push], [end], [next] and [return] calls
    on a fresh queue: the items the consumer has received so far, followed
    by the items still buffered, are exactly the items pushed before the
    queue was ended, in the order they were pushed.  Nothing is lost,
    duplicated or reordered, and a push after the end is dropped. *)
Theorem queue_is_fifo (ops : list AQOp) :
  values (results (aq_run ops aq_new)) ++ q (aq_run ops aq_new) = accepted ops.
Proof. by rewrite aq_run_fifo. Qed.

End RouterFacts.

Module ParseFacts.
Import Parse.

Local Open Scope string_scope.

Lemma trimStart_head s ch r : Js.trimStart s = String ch r → Js.is_ws ch = false.
Proof.
  induction s as [|c s IH]; simpl; [done|].
  destruct (Js.is_ws c) eqn:E; [done|]. intros H. by inversion H; subst.
Qed.

Lemma trimEnd_head ch r :
  Js.is_ws ch = false → ∃ r', Js.trimEnd (String ch r) = String ch r'.
Proof.
  intros E. simpl. destruct (Js.trimEnd r); rewrite ?E; by eexists.
Qed.

(** A trimmed string starts with a character that is not white space. *)
Lemma trim_head s ch r : Js.trim s = String ch r → Js.is_ws ch = false.
Proof.
  unfold Js.trim. destruct (Js.trimStart s) as [|c t] eqn:E; [done|].
  pose proof (trimStart_head _ _ _ E) as Hc.
  destruct (trimEnd_head c t Hc) as [r' ->]. intros H. by inversion H; subst.
Qed.

Lemma trim_nonblank ch r : Js.is_ws ch = false → ∃ r', Js.trim (String ch r) = String ch r'.
Proof.
  intros E. unfold Js.trim. simpl. rewrite E. by apply trimEnd_head.
Qed.

Lemma split_lines_head ch r :
  Js.is_ws ch = false → ∃ l ls, split_lines (String ch r) = String ch l :: ls.
Proof.
  intros E. simpl.
  assert (Ascii.eqb ch LF = false) as ->.
  { apply Ascii.eqb_neq. intros ->. done. }
  assert (Ascii.eqb ch CR = false) as ->.
  { apply Ascii.eqb_neq. intros ->. done. }
  simpl. destruct (split_lines r); by do 2 eexists.
Qed.

(** The text fallback always finds a first line in non-blank content: it
    is the first line of the trimmed content, itself trimmed. *)
Lemma fallback_lines_first raw ch r :
  raw = String ch r → Js.is_ws ch = false →
  ∃ l ls t, split_lines raw = String ch l :: ls ∧
            Js.trim (String ch l) = String ch t ∧
            fallback_lines raw
            = String ch t :: List.filter nonempty (List.map Js.trim ls).
Proof.
  intros -> E.
  destruct (split_lines_head ch r E) as (l & ls & Hs).
  destruct (trim_nonblank ch l E) as (t & Ht).
  exists l, ls, t. split; [done|]. split; [done|].
  unfold fallback_lines. rewrite Hs. cbn [List.map List.filter]. by rewrite Ht.
Qed.

(** C8, as the code has it.  Whatever [JSON.parse] does: an event is
    mapped to null exactly when its content is missing or blank.  When the
    trimmed content is not blank and does not parse to an object or an
    array, the text fallback applies: the title is the first line of the
    trimmed content, trimmed and cut to 140 characters, and the description
    is the remaining non-blank lines, each trimmed, joined by line feeds
    and cut to 4000 characters. *)
Theorem text_fallback (json_parse : string → option Json) (ev : NostrEvent) :
  let raw := match ev_content ev with Some c => Js.trim c | None => "" end in
  (parseAgoraEvent json_parse ev = None ↔ raw = "") ∧
  (raw ≠ "" → is_object (json_parse raw) = false →
   ∃ first others,
     split_lines raw = first :: others ∧
     let rest := List.filter nonempty (List.map Js.trim others) in
     parseAgoraEvent json_parse ev =
       Some {| id := ev_id ev; pubkey := ev_pubkey ev; created_at := ev_created_at ev;
               title := JStr (Js.slice0 140 (Js.trim first));
               description := JStr (Js.slice0 4000 (Js.join (String LF "") rest));
               start := None; end_ := None; location := None;
               url := first_url raw; image_url := None; raw := ev |}).
Proof.
  intros raw. unfold parseAgoraEvent. fold raw.
  destruct raw as [|ch r] eqn:Hraw; [split; [done|by intros []]|].
  assert (Hws : Js.is_ws ch = false).
  { subst raw. destruct (ev_content ev) as [c|]; [by eapply trim_head|done]. }
  destruct (fallback_lines_first (String ch r) ch r eq_refl Hws) as (l & ls & t & Hs & Ht & Hf).
  split.
  - split; [|done]. rewrite Hf.
    destruct (json_parse (String ch r)) as [[]|]; done.
  - intros _ Hobj. exists (String ch l), ls. split; [done|].
    rewrite Hf, Ht.
    destruct (json_parse (String ch r)) as [[]|]; done.
Qed.

(** C8, witness: two lines of plain text, with a parser that rejects them. *)
Lemma text_fallback_witness :
  let ev := note two_lines in
  let raw := match ev_content ev with Some c => Js.trim c | None => "" end in
  (parseAgoraEvent rejecting ev = None ↔ raw = "") ∧
  (raw ≠ "" → is_object (rejecting raw) = false →
   ∃ first others,
     split_lines raw = first :: others ∧
     let rest := List.filter nonempty (List.map Js.trim others) in
     parseAgoraEvent rejecting ev =
       Some {| id := ev_id ev; pubkey := ev_pubkey ev; created_at := ev_created_at ev;
               title := JStr (Js.slice0 140 (Js.trim first));
               description := JStr (Js.slice0 4000 (Js.join (String LF "") rest));
               start := None; end_ := None; location := None;
               url := first_url raw; image_url := None; raw := ev |}).
Proof. apply (text_fallback rejecting (note two_lines)). Defined.

Example fallback_two_lines :
  parseAgoraEvent rejecting (note two_lines) =
    Some {| id := "e1"; pubkey := "pk"; created_at := 1700000000;
            title := JStr "Potluck at the park";
            description := JStr "bring a dish https://example.org/p";
            start := None; end_ := None; location := None;
            url := Some "https://example.org/p"; image_url := None;
            raw := note two_lines |}.
Proof. vm_compute. reflexivity. Qed.

(** C8, counterexample.  Content made of blanks does not parse as JSON,
    whatever the parser; the record is mapped to null and no title is made
    from its first line. *)
Lemma blank_content_is_dropped :
  rejecting (Js.trim "   ") = None ∧
  parseAgoraEvent rejecting (note "   ") = None.
Proof. split; reflexivity. Qed.

(** The guard on blank content returns before the parser is consulted. *)
Remark blank_content_any_parser json_parse :
  parseAgoraEvent json_parse (note "   ") = None.
Proof. reflexivity. Qed.

(** *** What every parsed event looks like *)

Lemma or_last_truthy a v : truthy (Some v) = true → truthy (Some (or_last a v)) = true.
Proof.
  intros Hv. unfold or_last. destruct a as [w|]; [|done].
  destruct (truthy (Some w)) eqn:E; done.
Qed.

Lemma length_slice0 n s : String.length (Js.slice0 n s) = Nat.min n (String.length s).
Proof.
  revert s. induction n as [|n IH]; intros s; [done|].
  destruct s as [|c s]; [done|]. simpl. by rewrite IH.
Qed.

Lemma fallback_lines_nonempty raw l : l ∈ fallback_lines raw → l ≠ "".
Proof.
  unfold fallback_lines. intros H. apply list_elem_of_In, filter_In in H as [_ H].
  by destruct l.
Qed.

Lemma parse_cases json_parse ev r :
  parseAgoraEvent json_parse ev = Some r →
  ∃ c ch s, ev_content ev = Some c ∧ Js.trim c = String ch s ∧
    ((∃ p, json_parse (String ch s) = Some p ∧ is_object (Some p) = true ∧
           id r = ev_id ev ∧ pubkey r = ev_pubkey ev ∧
           created_at r = ev_created_at ev ∧ raw r = ev ∧
           title r = or_last (or_json (prop p "title") (prop p "name"))
                             (JStr "(Untitled event)")) ∨
     (is_object (json_parse (String ch s)) = false ∧
      ∃ first rest, fallback_lines (String ch s) = first :: rest ∧
        r = {| id := ev_id ev; pubkey := ev_pubkey ev; created_at := ev_created_at ev;
               title := JStr (Js.slice0 140 first);
               description := JStr (Js.slice0 4000 (Js.join (String LF "") rest));
               start := None; end_ := None; location := None;
               url := first_url (String ch s); image_url := None; raw := ev |})).
Proof.
  unfold parseAgoraEvent. destruct (ev_content ev) as [c|]; [|discriminate].
  destruct (Js.trim c) as [|ch s] eqn:Hraw; [discriminate|].
  intros H. exists c, ch, s. split; [reflexivity|]. split; [exact Hraw|].
  destruct (json_parse (String ch s)) as [[|b|n|t|items|fields]|] eqn:Hp;
    try (right; split; [reflexivity|];
         destruct (fallback_lines (String ch s)) as [|first rest]; [discriminate|];
         exists first, rest; split; [reflexivity|]; by inversion H).
  - left. eexists. split; [reflexivity|]. split; [reflexivity|].
    inversion H; subst r. cbn [id pubkey created_at raw title]. done.
  - left. eexists. split; [reflexivity|]. split; [reflexivity|].
    inversion H; subst r. cbn [id pubkey created_at raw title]. done.
Qed.

(** X19.  Whatever [JSON.parse] does, an event that [parseAgoraEvent]
    does not map to null has non-blank content; the result carries the
    record's [id], [pubkey] and [created_at] and the record itself as [raw];
    and its title is truthy in both branches (a truthy [title] or [name] of
    the payload or "(Untitled event)", or a non-empty first line).  In the
    text fallback the title has between 1 and 140 characters, the
    description at most 4000, and no start, end, location or image is
    set. *)
Theorem parsed_event_shape (json_parse : string → option Json) (ev : NostrEvent)
    (r : AgoraEvent) :
  parseAgoraEvent json_parse ev = Some r →
  id r = ev_id ev ∧ pubkey r = ev_pubkey ev ∧ created_at r = ev_created_at ev ∧
  raw r = ev ∧
  truthy (Some (title r)) = true ∧
  (∃ c, ev_content ev = Some c ∧ Js.trim c ≠ "") ∧
  (∀ c, ev_content ev = Some c → is_object (json_parse (Js.trim c)) = false →
        ∃ t d, title r = JStr t ∧ (1 ≤ String.length t ≤ 140)%nat ∧
               description r = JStr d ∧ (String.length d ≤ 4000)%nat ∧
               start r = None ∧ end_ r = None ∧ location r = None ∧
               image_url r = None).
Proof.
  intros H. destruct (parse_cases _ _ _ H) as (c & ch & s & Hc & Hraw & Hcase).
  assert (Hex : ∃ c, ev_content ev = Some c ∧ Js.trim c ≠ "").
  { exists c. split; [done|]. by rewrite Hraw. }
  destruct Hcase as [(p & Hp & Ho & H1 & H2 & H3 & H4 & H5)
                    |(Ho & first & rest & Hf & ->)].
  - split; [done|]. split; [done|]. split; [done|]. split; [done|].
    split; [rewrite H5; by apply or_last_truthy|]. split; [done|].
    intros c' Hc'. rewrite Hc in Hc'. inversion Hc'; subst c'.
    rewrite Hraw, Hp, Ho. discriminate.
  - cbn [id pubkey created_at raw title description start end_ location image_url].
    assert (Hne : first ≠ "").
    { apply (fallback_lines_nonempty (String ch s)). rewrite Hf. by left. }
    assert (Hlen : (1 ≤ String.length (Js.slice0 140 first) ≤ 140)%nat).
    { rewrite length_slice0. split; [|apply Nat.le_min_l].
      destruct first; [done|]. apply Nat.min_glb; simpl; lia. }
    split; [done|]. split; [done|]. split; [done|]. split; [done|].
    split; [|split; [done|]].
    + cbn [truthy]. destruct (Js.slice0 140 first); [simpl in Hlen; lia|done].
    + intros _ _ _.
      exists (Js.slice0 140 first), (Js.slice0 4000 (Js.join (String LF "") rest)).
      split; [done|]. split; [done|]. split; [done|].
      split; [rewrite length_slice0; apply Nat.le_min_l|done].
Qed.

(** X19, witness: two lines of plain text. *)
Lemma parsed_event_shape_witness :
  ∃ r, parseAgoraEvent rejecting (note two_lines) = Some r ∧
  id r = ev_id (note two_lines) ∧ pubkey r = ev_pubkey (note two_lines) ∧
  created_at r = ev_created_at (note two_lines) ∧
  raw r = note two_lines ∧
  truthy (Some (title r)) = true ∧
  (∃ c, ev_content (note two_lines) = Some c ∧ Js.trim c ≠ "") ∧
  (∀ c, ev_content (note two_lines) = Some c → is_object (rejecting (Js.trim c)) = false →
        ∃ t d, title r = JStr t ∧ (1 ≤ String.length t ≤ 140)%nat ∧
               description r = JStr d ∧ (String.length d ≤ 4000)%nat ∧
               start r = None ∧ end_ r = None ∧ location r = None ∧
               image_url r = None).
Proof.
  eexists. split; [vm_compute; reflexivity|].
  apply (parsed_event_shape rejecting (note two_lines)).
  vm_compute. reflexivity.
Defined.

End ParseFacts.

Module FeedFacts.
Import Parse ParseFacts Feed.

Local Open Scope string_scope.
Local Open Scope Z_scope.
Local Open Scope list_scope.

(** *** The read loop *)

Lemma read_event_inv json_parse (seen : gset string) ev r :
  (NoDup (id <$> batch r) ∧
   (∀ e, e ∈ batch r → id e ≠ "" ∧ (id e ∉ seen) ∧ id e ∈ seenIds r ∧ pubkey e ∈ pubkeys r) ∧
   seen ⊆ seenIds r) →
  let r' := read_event json_parse ev r in
  NoDup (id <$> batch r') ∧
  (∀ e, e ∈ batch r' → id e ≠ "" ∧ (id e ∉ seen) ∧ id e ∈ seenIds r' ∧ pubkey e ∈ pubkeys r') ∧
  seen ⊆ seenIds r'.
Proof.
  intros (Hnd & Hb & Hs). cbn zeta. unfold read_event.
  destruct ev as [ev|]; [|done].
  destruct (nonempty (ev_id ev)) eqn:Hne; cbn [negb orb]; [|done].
  destruct (bool_decide (ev_id ev ∈ seenIds r)) eqn:Hseen; [done|].
  apply bool_decide_eq_false in Hseen.
  destruct (parseAgoraEvent json_parse ev) as [p|] eqn:Hp; cbn [batch seenIds pubkeys].
  - destruct (parse_cases _ _ _ Hp) as (c & ch & s & _ & _ & Hcase).
    assert (Hid : id p = ev_id ev ∧ pubkey p = ev_pubkey ev).
    { destruct Hcase as [(q & _ & _ & H1 & H2 & _)|(_ & f & rs & _ & ->)]; done. }
    destruct Hid as [Hid Hpk].
    split; [|split].
    + rewrite fmap_app. cbn [fmap list_fmap]. apply NoDup_app. split; [done|].
      split; [|apply NoDup_singleton].
      intros x Hx Hx'. apply list_elem_of_singleton in Hx' as ->.
      apply list_elem_of_fmap in Hx as (e & He & Hin).
      destruct (Hb e Hin) as (_ & _ & Hin' & _). apply Hseen. congruence.
    + intros e He. apply elem_of_app in He as [He|He].
      * destruct (Hb e He) as (H1 & H2 & H3 & H4).
        repeat split; try done; apply elem_of_union; by right.
      * apply list_elem_of_singleton in He as ->. rewrite Hid, Hpk.
        split; [by destruct (ev_id ev)|]. split; [intros Hin; apply Hseen; by apply Hs|].
        split; apply elem_of_union; left; by apply elem_of_singleton.
    + intros x Hx. apply elem_of_union. right. by apply Hs.
  - split; [done|]. split.
    + intros e He. destruct (Hb e He) as (H1 & H2 & H3 & H4).
      repeat split; try done. apply elem_of_union. by right.
    + intros x Hx. apply elem_of_union. right. by apply Hs.
Qed.

Lemma read_loop_inv json_parse (seen : gset string) frames :
  ∀ r,
    (NoDup (id <$> batch r) ∧
     (∀ e, e ∈ batch r → id e ≠ "" ∧ (id e ∉ seen) ∧ id e ∈ seenIds r ∧ pubkey e ∈ pubkeys r) ∧
     seen ⊆ seenIds r) →
    let r' := read_loop json_parse frames r in
    NoDup (id <$> batch r') ∧
    (∀ e, e ∈ batch r' → id e ≠ "" ∧ (id e ∉ seen) ∧ id e ∈ seenIds r' ∧ pubkey e ∈ pubkeys r') ∧
    seen ⊆ seenIds r'.
Proof.
  induction frames as [|f frames IH]; intros r HI; [done|].
  destruct f as [ev| |]; cbn zeta; cbn [read_loop]; [|done|by apply IH].
  apply IH. by apply read_event_inv.
Qed.

Lemma read_loop_after_eose json_parse frames post :
  ∀ r, read_loop json_parse (frames ++ FEose :: post) r
       = read_loop json_parse (frames ++ [FEose]) r.
Proof.
  induction frames as [|f frames IH]; intros r; [done|].
  destruct f; cbn [app read_loop]; [apply IH|done|apply IH].
Qed.

(** X20.  The batch one run of the read loop collects, whatever frames
    arrive and whatever [JSON.parse] does: no two events of the batch share
    an id, no event has an empty id or an id that was in [seenIds] before the
    run, every id of the batch is in [seenIds] afterwards and every author in
    [pubkeys], ids are only ever added to [seenIds], and frames that follow
    an EOSE frame are not looked at. *)
Theorem read_cycle_batch (json_parse : string → option Json) (frames : list Frame)
    (seen : gset string) :
  let r := read_cycle json_parse frames seen in
  NoDup (id <$> batch r) ∧
  (∀ e, e ∈ batch r →
        id e ≠ "" ∧ (id e ∉ seen) ∧ id e ∈ seenIds r ∧ pubkey e ∈ pubkeys r) ∧
  seen ⊆ seenIds r ∧
  (∀ post, read_cycle json_parse (frames ++ FEose :: post) seen
           = read_cycle json_parse (frames ++ [FEose]) seen).
Proof.
  cbn zeta.
  destruct (read_loop_inv json_parse seen frames
              {| batch := []; pubkeys := ∅; seenIds := seen |}) as (H1 & H2 & H3).
  { cbn [batch seenIds pubkeys]. split; [apply NoDup_nil_2|]. split; [|done].
    intros e He. by apply elem_of_nil in He. }
  split; [done|]. split; [done|]. split; [done|].
  intros post. apply read_loop_after_eose.
Qed.

(** *** The merge *)

Lemma map_set_spec e m :
  NoDup (id <$> m) →
  NoDup (id <$> map_set e m) ∧ e ∈ map_set e m ∧
  (∀ x, x ∈ map_set e m → x = e ∨ (x ∈ m ∧ id x ≠ id e)) ∧
  (∀ x, x ∈ m → id x ≠ id e → x ∈ map_set e m).
Proof.
  induction m as [|y m IH]; intros Hnd.
  - cbn [map_set]. split; [apply NoDup_singleton|]. split; [by left|]. split.
    + intros x Hx. apply list_elem_of_singleton in Hx. by left.
    + intros x Hx. by apply elem_of_nil in Hx.
  - cbn [fmap list_fmap] in Hnd. apply NoDup_cons in Hnd as [Hy Hnd].
    cbn [map_set]. destruct (String.eqb_spec (id y) (id e)) as [E|E].
    + split; [|split; [by left|split]].
      * cbn [fmap list_fmap]. apply NoDup_cons. split; [by rewrite <- E|done].
      * intros x Hx. apply elem_of_cons in Hx as [->|Hx]; [by left|]. right.
        split; [by right|]. intros Hid. apply Hy. apply list_elem_of_fmap.
        exists x. split; [congruence|done].
      * intros x Hx Hid. apply elem_of_cons in Hx as [->|Hx]; [done|by right].
    + destruct (IH Hnd) as (I1 & I2 & I3 & I4). split; [|split; [by right|split]].
      * cbn [fmap list_fmap]. apply NoDup_cons. split; [|done].
        intros Hin. apply list_elem_of_fmap in Hin as (x & Hx & Hin).
        destruct (I3 x Hin) as [->|[Hxm _]]; [done|].
        apply Hy. apply list_elem_of_fmap. by exists x.
      * intros x Hx. apply elem_of_cons in Hx as [->|Hx].
        -- right. split; [by left|done].
        -- destruct (I3 x Hx) as [->|[Hxm Hid]]; [by left|]. right. split; [by right|done].
      * intros x Hx Hid. apply elem_of_cons in Hx as [->|Hx]; [by left|].
        right. by apply I4.
Qed.

Lemma fold_map_set l :
  ∀ m, NoDup (id <$> m) →
       let m' := foldl (λ m e, map_set e m) m l in
       NoDup (id <$> m') ∧
       (∀ e, e ∈ m' → e ∈ l ∨ (e ∈ m ∧ ∀ b, b ∈ l → id b ≠ id e)) ∧
       (∀ e, e ∈ m ∨ e ∈ l → ∃ e', e' ∈ m' ∧ id e' = id e) ∧
       (∀ e, e ∈ m → (∀ b, b ∈ l → id b ≠ id e) → e ∈ m').
Proof.
  induction l as [|b0 l IH]; intros m Hnd; cbn zeta; cbn [foldl].
  - split; [done|]. split; [|split].
    + intros e He. right. split; [done|]. intros b Hb. by apply elem_of_nil in Hb.
    + intros e [He|He]; [by exists e|by apply elem_of_nil in He].
    + done.
  - destruct (map_set_spec b0 m Hnd) as (S1 & S2 & S3 & S4).
    destruct (IH (map_set b0 m) S1) as (I1 & I2 & I3 & I4).
    split; [done|]. split; [|split].
    + intros e He. destruct (I2 e He) as [Hl|[Hm Hno]]; [left; by right|].
      destruct (S3 e Hm) as [->|[Hem Hid]]; [left; by left|].
      right. split; [done|]. intros b Hb.
      apply elem_of_cons in Hb as [->|Hb]; [done|by apply Hno].
    + intros e [He|He].
      * destruct (String.eqb_spec (id e) (id b0)) as [E|E].
        -- destruct (I3 b0 (or_introl S2)) as (e' & He' & Hid). exists e'.
           split; [done|congruence].
        -- apply I3. left. by apply S4.
      * apply elem_of_cons in He as [->|He]; apply I3; [left; done|by right].
    + intros e He Hno. apply I4.
      * apply S4; [done|]. intros E. apply (Hno b0); [by left|done].
      * intros b Hb. apply Hno. by right.
Qed.

Lemma fold_map_set_fresh l :
  ∀ m, NoDup (id <$> (m ++ l)) → foldl (λ m e, map_set e m) m l = m ++ l.
Proof.
  assert (Hfresh : ∀ e m, id e ∉ (id <$> m) → map_set e m = m ++ [e]).
  { intros e m. induction m as [|y m IH]; intros Hn; [done|].
    cbn [map_set]. destruct (String.eqb_spec (id y) (id e)) as [E|E].
    - exfalso. apply Hn. cbn [fmap list_fmap]. rewrite E. by left.
    - cbn [app]. f_equal. apply IH. intros Hin. apply Hn. cbn [fmap list_fmap]. by right. }
  induction l as [|b0 l IH]; intros m Hnd; cbn [foldl]; [by rewrite app_nil_r|].
  rewrite Hfresh.
  - rewrite IH; [by rewrite <- app_assoc|]. by rewrite <- app_assoc.
  - rewrite fmap_app in Hnd. apply NoDup_app in Hnd as (_ & Hd & _).
    intros Hin. apply (Hd _ Hin). cbn [fmap list_fmap]. by left.
Qed.

Lemma newest_first_cons x l :
  newest_first (x :: l) ↔ (∀ y, y ∈ l → created_at y ≤ created_at x) ∧ newest_first l.
Proof.
  split.
  - intros H. split.
    + intros y Hy. apply list_elem_of_lookup in Hy as [j Hj].
      apply (H 0%nat (S j) x y); [lia|done|done].
    + intros i j a b Hij Hi Hj. apply (H (S i) (S j) a b); [lia|done|done].
  - intros [Hx Hl] i j a b Hij Hi Hj.
    destruct j as [|j]; [lia|]. simpl in Hj.
    destruct i as [|i]; simpl in Hi.
    + inversion Hi; subst a. apply Hx. by eapply list_elem_of_lookup_2.
    + apply (Hl i j a b); [lia|done|done].
Qed.

Lemma insert_newest_perm x l : insert_newest x l ≡ₚ x :: l.
Proof.
  induction l as [|y l IH]; cbn [insert_newest]; [done|].
  destruct (created_at y <=? created_at x); [done|].
  rewrite IH. apply Permutation_swap.
Qed.

Lemma sort_newest_perm l : sort_newest l ≡ₚ l.
Proof.
  induction l as [|x l IH]; [done|]. cbn [sort_newest foldr].
  fold (sort_newest l). by rewrite insert_newest_perm, IH.
Qed.

Lemma insert_newest_sorted x l : newest_first l → newest_first (insert_newest x l).
Proof.
  induction l as [|y l IH]; intros Hl; cbn [insert_newest].
  - apply newest_first_cons. split; [|done].
    intros y Hy. by apply elem_of_nil in Hy.
  - apply newest_first_cons in Hl as [Hy Hl].
    destruct (created_at y <=? created_at x) eqn:E.
    + apply Z.leb_le in E. apply newest_first_cons. split.
      * intros z Hz. apply elem_of_cons in Hz as [->|Hz]; [done|].
        pose proof (Hy z Hz). lia.
      * apply newest_first_cons. done.
    + apply Z.leb_gt in E. apply newest_first_cons. split; [|by apply IH].
      intros z Hz. rewrite insert_newest_perm in Hz.
      apply elem_of_cons in Hz as [->|Hz]; [lia|by apply Hy].
Qed.

Lemma sort_newest_sorted l : newest_first (sort_newest l).
Proof.
  induction l as [|x l IH].
  - intros i j a b _ Hi. cbn [sort_newest foldr] in Hi. by rewrite lookup_nil in Hi.
  - cbn [sort_newest foldr]. by apply insert_newest_sorted.
Qed.

(** X21.  The [setEvents] update at the end of a read cycle.  The merged
    list has no two events with the same id and is sorted newest first;
    each of its events comes from the batch, or from the previous list with
    an id the batch does not carry; every id of either list is still
    present; a previous list without repeated ids keeps every event whose id
    the batch does not carry (optimistic entries are not wiped); and every
    event of a batch without repeated ids is in the result, replacing a
    previous event of the same id. *)
Theorem merge_keeps_feed (prev batch : list AgoraEvent) :
  let m := merge_events prev batch in
  NoDup (id <$> m) ∧ newest_first m ∧
  (∀ e, e ∈ m → e ∈ batch ∨ (e ∈ prev ∧ ∀ b, b ∈ batch → id b ≠ id e)) ∧
  (∀ e, e ∈ prev ∨ e ∈ batch → ∃ e', e' ∈ m ∧ id e' = id e) ∧
  (NoDup (id <$> prev) →
   ∀ e, e ∈ prev → (∀ b, b ∈ batch → id b ≠ id e) → e ∈ m) ∧
  (NoDup (id <$> batch) → ∀ b, b ∈ batch → b ∈ m).
Proof.
  cbn zeta. unfold merge_events, merge_map.
  destruct (fold_map_set prev [] (NoDup_nil_2 (A:=string))) as (P1 & P2 & P3 & P4).
  cbn zeta in *.
  set (m0 := foldl (λ m e, map_set e m) [] prev) in *.
  destruct (fold_map_set batch m0 P1) as (B1 & B2 & B3 & B4). cbn zeta in *.
  set (m1 := foldl (λ m e, map_set e m) m0 batch) in *.
  pose proof (sort_newest_perm m1) as Hperm.
  split; [by rewrite Hperm|]. split; [apply sort_newest_sorted|].
  split; [|split; [|split]].
  - intros e He. rewrite Hperm in He.
    destruct (B2 e He) as [Hb|[Hm Hno]]; [by left|]. right. split; [|done].
    destruct (P2 e Hm) as [Hp|[Hnil _]]; [done|by apply elem_of_nil in Hnil].
  - intros e [He|He].
    + destruct (P3 e (or_intror He)) as (e1 & He1 & Hid1).
      destruct (B3 e1 (or_introl He1)) as (e2 & He2 & Hid2).
      exists e2. split; [by rewrite Hperm|congruence].
    + destruct (B3 e (or_intror He)) as (e2 & He2 & Hid2).
      exists e2. split; [by rewrite Hperm|done].
  - intros Hnd e He Hno. rewrite Hperm. apply B4; [|done].
    unfold m0. rewrite fold_map_set_fresh by done. done.
  - intros Hnd b Hb. rewrite Hperm.
    destruct (B3 b (or_intror Hb)) as (e' & He' & Hid).
    destruct (B2 e' He') as [Hin|[_ Hno]].
    + assert (e' = b) as ->; [|done].
      apply list_elem_of_lookup in Hin as [i Hi]. apply list_elem_of_lookup in Hb as [j Hj].
      assert (i = j).
      { eapply NoDup_lookup; [exact Hnd| |]; rewrite list_lookup_fmap.
        - rewrite Hi. reflexivity.
        - rewrite Hj. simpl. by rewrite Hid. }
      subst j. congruence.
    + exfalso. by apply (Hno b Hb).
Qed.

End FeedFacts.

Module Bech32Facts.
Import Bech32.

Local Open Scope string_scope.
Local Open Scope Z_scope.
Local Open Scope list_scope.

(** *** 32-bit arithmetic *)

Lemma int32_eqm x : eqm (int32 x) x.
Proof.
  unfold eqm, int32. change (2 ^ 31) with 2147483648. change (2 ^ 32) with 4294967296.
  Z.div_mod_to_equations. lia.
Qed.

Lemma int32_small x : - 2 ^ 31 ≤ x < 2 ^ 31 → int32 x = x.
Proof.
  unfold int32. change (2 ^ 31) with 2147483648. change (2 ^ 32) with 4294967296.
  intros H. Z.div_mod_to_equations. lia.
Qed.

Lemma eqm_trans a b c : eqm a b → eqm b c → eqm a c.
Proof. unfold eqm. congruence. Qed.

Lemma eqm_mul a b c : eqm a b → eqm (a * c) (b * c).
Proof.
  unfold eqm. intros H.
  rewrite (Z.mul_mod a c), (Z.mul_mod b c), H by done. reflexivity.
Qed.

Lemma eqm_add a b c : eqm a b → eqm (a + c) (b + c).
Proof.
  unfold eqm. intros H.
  rewrite (Z.add_mod a c), (Z.add_mod b c), H by done. reflexivity.
Qed.

Lemma eqm_testbit a b n : eqm a b → n < 32 → Z.testbit a n = Z.testbit b n.
Proof.
  unfold eqm. intros H Hn.
  rewrite <- (Z.mod_pow2_bits_low a 32 n), <- (Z.mod_pow2_bits_low b 32 n) by done.
  by rewrite H.
Qed.

Lemma eqm_mod_pow2 a b k : eqm a b → 0 ≤ k ≤ 32 → a mod 2 ^ k = b mod 2 ^ k.
Proof.
  intros H Hk. apply Z.bits_inj'. intros n Hn.
  rewrite !Z.testbit_mod_pow2 by lia.
  destruct (n <? k) eqn:E; [|done]. apply Z.ltb_lt in E. simpl.
  apply eqm_testbit; [done|lia].
Qed.

Lemma eqm_div_mod a b s t :
  eqm a b → 0 ≤ s → 0 ≤ t → s + t ≤ 32 →
  (a / 2 ^ s) mod 2 ^ t = (b / 2 ^ s) mod 2 ^ t.
Proof.
  intros H Hs Ht Hst. apply Z.bits_inj'. intros n Hn.
  rewrite !Z.testbit_mod_pow2 by lia.
  destruct (n <? t) eqn:E; [|done]. apply Z.ltb_lt in E. simpl.
  rewrite !Z.div_pow2_bits by lia. apply eqm_testbit; [done|lia].
Qed.

Lemma pow2_lt_31 t : 0 ≤ t ≤ 30 → 0 < 2 ^ t < 2 ^ 31.
Proof.
  intros H. split; [apply Z.pow_pos_nonneg; lia|]. apply Z.pow_lt_mono_r; lia.
Qed.

Lemma maxv_ones t : 1 ≤ t ≤ 30 → shl 1 t - 1 = Z.ones t.
Proof.
  intros H. unfold shl. rewrite (Z.mod_small t 32) by lia.
  rewrite Z.shiftl_mul_pow2, Z.mul_1_l by lia.
  pose proof (pow2_lt_31 t). rewrite int32_small by lia.
  rewrite Z.ones_equiv. lia.
Qed.

Lemma band_ones x t : 1 ≤ t ≤ 30 → band x (Z.ones t) = x mod 2 ^ t.
Proof.
  intros H. unfold band. rewrite Z.land_ones by lia.
  pose proof (pow2_lt_31 t). pose proof (Z.mod_pos_bound x (2 ^ t)).
  apply int32_small. lia.
Qed.

(** [(acc >> s) & maxv] reads [t] bits of the number at offset [s]. *)
Lemma js_extract acc A s t :
  eqm acc A → 0 ≤ s → 1 ≤ t ≤ 30 → s + t ≤ 32 →
  band (sar acc s) (shl 1 t - 1) = (A / 2 ^ s) mod 2 ^ t.
Proof.
  intros H Hs Ht Hst. rewrite maxv_ones, band_ones by done.
  unfold sar. rewrite (Z.mod_small s 32) by lia. rewrite Z.shiftr_div_pow2 by done.
  apply eqm_div_mod; try lia. eapply eqm_trans; [apply int32_eqm|done].
Qed.

(** [(acc << k) & maxv] *)
Lemma js_pad acc A k t :
  eqm acc A → 0 ≤ k < 32 → 1 ≤ t ≤ 30 →
  band (shl acc k) (shl 1 t - 1) = (A * 2 ^ k) mod 2 ^ t.
Proof.
  intros H Hk Ht. rewrite maxv_ones, band_ones by done.
  apply eqm_mod_pow2; [|lia].
  unfold shl. rewrite (Z.mod_small k 32) by lia. rewrite Z.shiftl_mul_pow2 by lia.
  eapply eqm_trans; [apply int32_eqm|]. by apply eqm_mul.
Qed.

Lemma small_testbit_high v f n : 0 ≤ v < 2 ^ f → 0 ≤ f ≤ n → Z.testbit v n = false.
Proof.
  intros Hv Hn. rewrite <- (Z.mod_small v (2 ^ f)) by done.
  apply Z.mod_pow2_bits_high. done.
Qed.

(** [(acc << f) | v] appends the [f] bits of [v]. *)
Lemma js_push acc A f v :
  eqm acc A → 0 ≤ f < 32 → 0 ≤ v < 2 ^ f →
  eqm (bor (shl acc f) v) (A * 2 ^ f + v).
Proof.
  intros H Hf Hv. unfold bor. eapply eqm_trans; [apply int32_eqm|].
  set (x := shl acc f).
  assert (Hx : eqm x (A * 2 ^ f)).
  { unfold x, shl. rewrite (Z.mod_small f 32) by lia. rewrite Z.shiftl_mul_pow2 by lia.
    eapply eqm_trans; [apply int32_eqm|]. by apply eqm_mul. }
  assert (Hland : Z.land x v = 0).
  { apply Z.bits_inj'. intros n Hn. rewrite Z.land_spec, Z.bits_0.
    destruct (Z_lt_le_dec n f) as [Hlt|Hge].
    - rewrite (eqm_testbit x (A * 2 ^ f) n Hx) by lia.
      rewrite Z.mul_pow2_bits_low by lia. done.
    - rewrite (small_testbit_high v f n) by lia. apply andb_false_r. }
  rewrite <- (Z.add_nocarry_lor _ _ Hland). by apply eqm_add.
Qed.

(** *** Digit lists *)

Lemma val_snoc w l d : val w (l ++ [d]) = val w l * 2 ^ w + d.
Proof. unfold val. by rewrite fold_left_app. Qed.

Lemma val_nonneg w l : digits_ok w l → 0 ≤ val w l.
Proof.
  induction l as [|d l IH] using rev_ind; intros H; [done|].
  apply Forall_app in H as [Hl Hd]. rewrite Forall_singleton in Hd.
  rewrite val_snoc. pose proof (IH Hl). simpl in Hd.
  assert (0 ≤ 2 ^ w) by (apply Z.pow_nonneg; lia). nia.
Qed.

Lemma val_inj w l1 : 
  ∀ l2, digits_ok w l1 → digits_ok w l2 → length l1 = length l2 →
        val w l1 = val w l2 → l1 = l2.
Proof.
  induction l1 as [|d1 l1 IH] using rev_ind; intros l2 H1 H2 Hlen Hval.
  - destruct l2; [done|]. simpl in Hlen. lia.
  - destruct l2 as [|d2 l2 _] using rev_ind.
    { rewrite length_app in Hlen. simpl in Hlen. lia. }
    apply Forall_app in H1 as [H1 Hd1]. rewrite Forall_singleton in Hd1.
    apply Forall_app in H2 as [H2 Hd2]. rewrite Forall_singleton in Hd2.
    rewrite !val_snoc in Hval. rewrite !length_app in Hlen. simpl in Hlen, Hd1, Hd2.
    assert (val w l1 = val w l2 ∧ d1 = d2) as [Hv ->].
    { apply (Z.div_mod_unique (2 ^ w)); [left; lia|left; lia|lia]. }
    f_equal. apply IH; [done|done|lia|done].
Qed.

(** *** [convertBits] *)

Lemma pow2_split a b : 0 ≤ a → 0 ≤ b → 2 ^ (a + b) = 2 ^ a * 2 ^ b.
Proof. intros. by apply Z.pow_add_r. Qed.

Lemma pow2_pos n : 0 ≤ n → 0 < 2 ^ n.
Proof. intros. apply Z.pow_pos_nonneg; lia. Qed.

Lemma drain_spec t A N :
  1 ≤ t ≤ 30 →
  ∀ fuel acc bits ret,
    CInv t A acc bits ret N → bits ≤ 32 → (Z.to_nat bits ≤ fuel)%nat →
    ∃ bits' ret',
      drain fuel acc bits t (shl 1 t - 1) ret = (bits', ret') ∧
      CInv t A acc bits' ret' N ∧ bits' < t.
Proof.
  intros Ht. induction fuel as [|fuel IH]; intros acc bits ret HI H32 Hfuel.
  - exists bits, ret. pose proof (ci_bits _ _ _ _ _ _ HI). simpl.
    split; [done|]. split; [done|lia].
  - simpl. destruct (t <=? bits) eqn:E.
    + apply Z.leb_le in E. destruct HI as [Hacc HA Hbits Hval Hdig Hlen].
      rewrite (js_extract acc A (bits - t) t) by (done || lia).
      apply IH; [|lia|lia].
      assert (Hp1 : 0 < 2 ^ (bits - t)) by (apply pow2_pos; lia).
      assert (Hp2 : 0 < 2 ^ t) by (apply pow2_pos; lia).
      split; try done; try lia.
      * rewrite val_snoc, Hval.
        replace bits with ((bits - t) + t) at 1 by lia.
        rewrite pow2_split by lia.
        rewrite <- Z.div_div by lia.
        pose proof (Z.div_mod (A / 2 ^ (bits - t)) (2 ^ t)). lia.
      * apply Forall_app. split; [done|]. apply Forall_singleton.
        apply Z.mod_pos_bound. done.
      * rewrite length_app. simpl. lia.
    + apply Z.leb_gt in E. exists bits, ret. done.
Qed.

Lemma convert_loop_spec f t :
  1 ≤ f → 1 ≤ t ≤ 30 → f + t ≤ 32 →
  ∀ data A acc bits ret N,
    CInv t A acc bits ret N → bits < t → digits_ok f data →
    ∃ acc' bits' ret',
      convert_loop f t (shl 1 t - 1) data acc bits ret = Ok (acc', bits', ret') ∧
      CInv t (fold_left (λ a d, a * 2 ^ f + d) data A) acc' bits' ret'
           (N + f * Z.of_nat (length data)) ∧
      bits' < t.
Proof.
  intros Hf Ht Hft. induction data as [|v data IH]; intros A acc bits ret N HI Hb Hd.
  - exists acc, bits, ret. simpl. rewrite Z.mul_0_r, Z.add_0_r. done.
  - apply Forall_cons in Hd as [Hv Hd]. simpl in Hv.
    cbn [convert_loop].
    assert (Hp : 0 < 2 ^ f) by (apply pow2_pos; lia).
    assert (Hsar : sar v f = 0).
    { unfold sar. rewrite (Z.mod_small f 32) by lia.
      assert (2 ^ f ≤ 2 ^ 31) by (apply Z.pow_le_mono_r; lia).
      rewrite int32_small by lia. rewrite Z.shiftr_div_pow2 by lia.
      apply Z.div_small. done. }
    rewrite Hsar. replace (v <? 0) with false by (symmetry; apply Z.ltb_ge; lia).
    cbn [orb negb Z.eqb].
    destruct HI as [Hacc HA Hbits Hval Hdig Hlen].
    assert (HI' : CInv t (A * 2 ^ f + v) (bor (shl acc f) v) (bits + f) ret (N + f)).
    { split; try done; try lia.
      - apply js_push; [done|lia|done].
      - rewrite Hval. rewrite (Z.add_comm bits f), pow2_split by lia.
        assert (0 < 2 ^ bits) by (apply pow2_pos; lia).
        rewrite <- Z.div_div by lia.
        rewrite Z.div_add_l by lia.
        rewrite (Z.div_small v) by done. by rewrite Z.add_0_r. }
    destruct (drain_spec t (A * 2 ^ f + v) (N + f) Ht (Z.to_nat (bits + f))
                (bor (shl acc f) v) (bits + f) ret HI') as (b' & r' & Hdr & HI'' & Hb');
      [lia|lia|].
    rewrite Hdr.
    destruct (IH _ _ _ _ _ HI'' Hb' Hd) as (acc2 & b2 & r2 & Hl & HI2 & Hb2).
    exists acc2, b2, r2. split; [done|]. split; [|done].
    cbn [fold_left length]. 
    replace (N + f * Z.of_nat (S (length data))) with (N + f + f * Z.of_nat (length data)) by lia.
    done.
Qed.

Lemma CInv_start t : CInv t 0 0 0 [] 0.
Proof. split; [reflexivity|lia|lia|reflexivity|constructor|simpl; lia]. Qed.

(** Bytes to 5-bit words, with padding: 32 bytes give 52 words that spell
    the same number followed by four zero bits. *)
Lemma convertBits_8_5 bytes :
  length bytes = 32%nat → digits_ok 8 bytes →
  ∃ W, convertBits bytes 8 5 true = Ok W ∧ length W = 52%nat ∧
       digits_ok 5 W ∧ val 5 W = val 8 bytes * 16.
Proof.
  intros Hlen Hd. unfold convertBits.
  destruct (convert_loop_spec 8 5 ltac:(lia) ltac:(lia) ltac:(lia)
              bytes 0 0 0 [] 0 (CInv_start 5) ltac:(lia) Hd)
    as (acc & bits & ret & Hloop & [Hacc HA Hbits Hval Hdig Hl] & Hb).
  rewrite Hloop. cbn [bind]. fold (val 8 bytes) in *. rewrite Hlen in Hl.
  assert (bits = 1 ∧ length ret = 51%nat) as [-> Hret] by lia.
  cbn [Z.eqb]. eexists. split; [reflexivity|].
  rewrite (js_pad acc (val 8 bytes) (5 - 1) 5) by (done || lia).
  change (2 ^ (5 - 1)) with 16. change (2 ^ 5) with 32. change (2 ^ 1) with 2 in Hval.
  split; [rewrite length_app, Hret; done|]. split.
  - apply Forall_app. split; [done|]. apply Forall_singleton.
    change (2 ^ 5) with 32. apply Z.mod_pos_bound. lia.
  - rewrite val_snoc, Hval. change (2 ^ 5) with 32.
    Z.div_mod_to_equations. lia.
Qed.

(** Words back to bytes, without padding. *)
Lemma convertBits_5_8 W B :
  length W = 52%nat → digits_ok 5 W → val 5 W = B * 16 → 0 ≤ B →
  ∃ R, convertBits W 5 8 false = Ok R ∧ length R = 32%nat ∧
       digits_ok 8 R ∧ val 8 R = B.
Proof.
  intros Hlen Hd HB HB0. unfold convertBits.
  destruct (convert_loop_spec 5 8 ltac:(lia) ltac:(lia) ltac:(lia)
              W 0 0 0 [] 0 (CInv_start 8) ltac:(lia) Hd)
    as (acc & bits & ret & Hloop & [Hacc HA Hbits Hval Hdig Hl] & Hb).
  rewrite Hloop. cbn [bind]. fold (val 5 W) in *. rewrite Hlen in Hl.
  assert (bits = 4 ∧ length ret = 32%nat) as [-> Hret] by lia.
  cbn [Z.leb Z.compare Pos.compare Pos.compare_cont].
  rewrite (js_pad acc (val 5 W) (8 - 4) 8) by (done || lia).
  rewrite HB in *. change (2 ^ (8 - 4)) with 16. change (2 ^ 8) with 256.
  change (2 ^ 4) with 16 in Hval.
  replace ((B * 16 * 16) mod 256) with 0 by (Z.div_mod_to_equations; lia).
  cbn [Z.eqb negb]. exists ret. repeat split; try done.
  rewrite Hval. Z.div_mod_to_equations. lia.
Qed.

Lemma convertBits_roundtrip bytes :
  length bytes = 32%nat → digits_ok 8 bytes →
  ∃ W, convertBits bytes 8 5 true = Ok W ∧ length W = 52%nat ∧ digits_ok 5 W ∧
       convertBits W 5 8 false = Ok bytes.
Proof.
  intros Hlen Hd.
  destruct (convertBits_8_5 bytes Hlen Hd) as (W & HW & HlW & HdW & HvW).
  destruct (convertBits_5_8 W (val 8 bytes) HlW HdW HvW (val_nonneg 8 bytes Hd))
    as (R & HR & HlR & HdR & HvR).
  exists W. repeat split; try done. rewrite HR. f_equal.
  apply (val_inj 8); [done|done|congruence|done].
Qed.

(** *** The checksum polynomial *)

Lemma lxor_in30 a b : in30 a → in30 b → in30 (Z.lxor a b).
Proof.
  unfold in30. intros Ha Hb.
  assert (E : Z.lxor a b = Z.lxor a b mod 2 ^ 30).
  { apply Z.bits_inj'. intros n Hn. rewrite Z.testbit_mod_pow2 by lia.
    destruct (n <? 30) eqn:L; [done|]. apply Z.ltb_ge in L.
    rewrite Z.lxor_spec, (small_testbit_high a 30 n), (small_testbit_high b 30 n) by lia.
    done. }
  rewrite E. apply Z.mod_pos_bound. lia.
Qed.

Lemma int32_in30 x : in30 x → int32 x = x.
Proof.
  unfold in30. intros H. apply int32_small.
  change (2 ^ 30) with 1073741824 in H. change (2 ^ 31) with 2147483648. lia.
Qed.

Lemma bxor_in30 a b : in30 a → in30 b → bxor a b = Z.lxor a b ∧ in30 (Z.lxor a b).
Proof.
  intros Ha Hb. pose proof (lxor_in30 a b Ha Hb) as H. split; [|done].
  unfold bxor. by apply int32_in30.
Qed.

Lemma generator_in30 i : in30 (nth i GENERATORS 0).
Proof.
  unfold in30. change (2 ^ 30) with 1073741824.
  do 5 (destruct i as [|i]; [simpl; lia|]). destruct i; simpl; lia.
Qed.

Lemma mask_bit_in30 top i : in30 (mask_bit top i).
Proof.
  unfold mask_bit. destruct (Z.testbit top i); [apply generator_in30|].
  unfold in30. change (2 ^ 30) with 1073741824. lia.
Qed.

(** The test [(top >>> i) & 1] of the inner loop reads bit [i] of [top]. *)
Lemma select_bit top i :
  0 ≤ top < 32 → 0 ≤ i < 5 →
  (band (shr top i) 1 =? 0) = negb (Z.testbit top i).
Proof.
  intros Ht Hi. unfold shr, uint32.
  rewrite (Z.mod_small top) by (change (2 ^ 32) with 4294967296; lia).
  rewrite (Z.mod_small i 32) by lia.
  change 1 with (Z.ones 1) at 1. rewrite band_ones by lia.
  rewrite Z.shiftr_div_pow2 by lia. rewrite (Z.testbit_eqb top i) by lia.
  change (2 ^ 1) with 2.
  pose proof (Z.mod_pos_bound (top / 2 ^ i) 2).
  destruct (Z.eqb_spec ((top / 2 ^ i) mod 2) 0) as [E|E];
    destruct (Z.eqb_spec ((top / 2 ^ i) mod 2) 1) as [E'|E']; simpl; try done; lia.
Qed.

Lemma inner_step c top i :
  in30 c → 0 ≤ top < 32 → 0 ≤ i < 5 →
  (if band (shr top i) 1 =? 0 then c else bxor c (nth (Z.to_nat i) GENERATORS 0))
  = Z.lxor c (mask_bit top i) ∧ in30 (Z.lxor c (mask_bit top i)).
Proof.
  intros Hc Ht Hi. rewrite select_bit by done. unfold mask_bit.
  destruct (Z.testbit top i); simpl.
  - apply bxor_in30; [done|apply generator_in30].
  - by rewrite Z.lxor_0_r.
Qed.

(** One round of [bech32Polymod] is a map linear over xor, plus the value. *)
Lemma polymod_step_lin chk v :
  in30 chk → 0 ≤ v < 32 →
  polymod_step chk v = Z.lxor (lin chk) v ∧ in30 (polymod_step chk v).
Proof.
  intros Hc Hv. unfold polymod_step.
  assert (Htop : 0 ≤ shr chk 25 < 32 ∧ shr chk 25 = Z.shiftr chk 25).
  { unfold shr, uint32. unfold in30 in Hc. change (2 ^ 30) with 1073741824 in Hc.
    rewrite (Z.mod_small chk) by (change (2 ^ 32) with 4294967296; lia).
    change (25 mod 32) with 25. rewrite Z.shiftr_div_pow2 by lia.
    change (2 ^ 25) with 33554432. split; [|done]. Z.div_mod_to_equations. lia. }
  destruct Htop as [Htop Etop].
  assert (Hlow : band chk 33554431 = Z.land chk 33554431 ∧ 0 ≤ Z.land chk 33554431 < 2 ^ 25).
  { change 33554431 with (Z.ones 25). rewrite band_ones by lia.
    rewrite Z.land_ones by lia. split; [done|]. apply Z.mod_pos_bound. lia. }
  destruct Hlow as [-> Hlow].
  assert (Hs : shl (Z.land chk 33554431) 5 = Z.shiftl (Z.land chk 33554431) 5
               ∧ in30 (Z.shiftl (Z.land chk 33554431) 5)).
  { unfold shl. change (5 mod 32) with 5. rewrite Z.shiftl_mul_pow2 by lia.
    assert (in30 (Z.land chk 33554431 * 2 ^ 5)).
    { unfold in30. change (2 ^ 25) with 33554432 in Hlow.
      change (2 ^ 5) with 32. change (2 ^ 30) with 1073741824. lia. }
    split; [by apply int32_in30|done]. }
  destruct Hs as [-> Hs].
  assert (Hv30 : in30 v) by (unfold in30; change (2 ^ 30) with 1073741824; lia).
  destruct (bxor_in30 _ _ Hs Hv30) as [-> H0].
  cbn [fold_left].
  destruct (inner_step _ (shr chk 25) 0 H0 Htop ltac:(lia)) as [-> H1].
  destruct (inner_step _ (shr chk 25) 1 H1 Htop ltac:(lia)) as [-> H2].
  destruct (inner_step _ (shr chk 25) 2 H2 Htop ltac:(lia)) as [-> H3].
  destruct (inner_step _ (shr chk 25) 3 H3 Htop ltac:(lia)) as [-> H4].
  destruct (inner_step _ (shr chk 25) 4 H4 Htop ltac:(lia)) as [-> H5].
  split; [|done]. unfold lin, gen_mask. rewrite Etop.
  apply Z.bits_inj'. intros n Hn. rewrite !Z.lxor_spec. btauto.
Qed.

Lemma mask_bit_lxor s t i :
  mask_bit (Z.lxor s t) i = Z.lxor (mask_bit s i) (mask_bit t i).
Proof.
  unfold mask_bit. rewrite Z.lxor_spec.
  destruct (Z.testbit s i), (Z.testbit t i); simpl;
    rewrite ?Z.lxor_nilpotent, ?Z.lxor_0_r, ?Z.lxor_0_l; done.
Qed.

Lemma lin_lxor a b : lin (Z.lxor a b) = Z.lxor (lin a) (lin b).
Proof.
  unfold lin, gen_mask. rewrite Z.shiftr_lxor, !mask_bit_lxor.
  apply Z.bits_inj'. intros n Hn.
  rewrite !Z.lxor_spec, !Z.shiftl_spec by lia.
  rewrite !Z.land_spec, Z.lxor_spec. btauto.
Qed.

Lemma lin_small d : 0 ≤ d < 2 ^ 25 → lin d = d * 2 ^ 5.
Proof.
  intros Hd. unfold lin.
  change 33554431 with (Z.ones 25). rewrite Z.land_ones, Z.mod_small by lia.
  rewrite Z.shiftr_div_pow2, Z.div_small by lia.
  change (gen_mask 0) with 0. rewrite Z.lxor_0_r. apply Z.shiftl_mul_pow2. lia.
Qed.

Lemma lxor_append a d : 0 ≤ d < 2 ^ 5 → Z.lxor (a * 2 ^ 5) d = a * 2 ^ 5 + d.
Proof.
  intros Hd. symmetry. apply Z.add_nocarry_lxor.
  apply Z.bits_inj'. intros n Hn. rewrite Z.land_spec, Z.bits_0.
  destruct (Z_lt_le_dec n 5).
  - rewrite Z.mul_pow2_bits_low by lia. done.
  - rewrite (small_testbit_high d 5 n) by lia. apply andb_false_r.
Qed.

Lemma polymod_fold_in30 vs :
  ∀ s, digits_ok 5 vs → in30 s → in30 (fold_left polymod_step vs s).
Proof.
  induction vs as [|v vs IH]; intros s Hd Hs; [done|].
  apply Forall_cons in Hd as [Hv Hd]. simpl in Hv. change (2 ^ 5) with 32 in Hv.
  simpl. apply IH; [done|]. by apply polymod_step_lin.
Qed.

Lemma val_bound c : digits_ok 5 c → 0 ≤ val 5 c < 2 ^ (5 * Z.of_nat (length c)).
Proof.
  induction c as [|d c IH] using rev_ind; intros Hd.
  - simpl. unfold val. simpl. lia.
  - apply Forall_app in Hd as [Hc Hd]. rewrite Forall_singleton in Hd. simpl in Hd.
    rewrite val_snoc, length_app. simpl.
    replace (5 * Z.of_nat (length c + 1)) with (5 * Z.of_nat (length c) + 5) by lia.
    rewrite Z.pow_add_r by lia. specialize (IH Hc). nia.
Qed.

(** Feeding up to six words: the state is moved by [lin] once per word
    and the words are added in as a base-32 number. *)
Lemma polymod_tail c :
  ∀ x, (length c ≤ 6)%nat → digits_ok 5 c → in30 x →
       fold_left polymod_step c x = Z.lxor (Nat.iter (length c) lin x) (val 5 c).
Proof.
  induction c as [|d c IH] using rev_ind; intros x Hlen Hd Hx.
  - simpl. unfold val. simpl. by rewrite Z.lxor_0_r.
  - apply Forall_app in Hd as [Hc Hd1]. pose proof Hd1 as Hd. 
    rewrite Forall_singleton in Hd. simpl in Hd.
    rewrite length_app in Hlen. simpl in Hlen.
    rewrite fold_left_app. cbn [fold_left].
    assert (in30 (fold_left polymod_step c x)) as Hin by (by apply polymod_fold_in30).
    change (2 ^ 5) with 32 in Hd.
    destruct (polymod_step_lin _ d Hin Hd) as [-> _].
    rewrite IH by (done || lia). rewrite lin_lxor.
    pose proof (val_bound c Hc) as Hb.
    assert (2 ^ (5 * Z.of_nat (length c)) ≤ 2 ^ 25) by (apply Z.pow_le_mono_r; lia).
    rewrite (lin_small (val 5 c)) by lia.
    rewrite length_app, Nat.add_1_r. cbn [Nat.iter].
    rewrite val_snoc, Z.lxor_assoc. f_equal.
    apply lxor_append. change (2 ^ 5) with 32. done.
Qed.

Lemma digit_extract m k :
  in30 m → 0 ≤ k < 32 → band (shr m k) 31 = (m / 2 ^ k) mod 2 ^ 5.
Proof.
  intros Hm Hk. change 31 with (Z.ones 5). rewrite band_ones by lia.
  unfold shr, uint32. unfold in30 in Hm. change (2 ^ 30) with 1073741824 in Hm.
  rewrite (Z.mod_small m) by (change (2 ^ 32) with 4294967296; lia).
  rewrite (Z.mod_small k 32) by lia. by rewrite Z.shiftr_div_pow2 by lia.
Qed.

Lemma polymod_split hrp data c :
  bech32Polymod (bech32HrpExpand hrp ++ data ++ c)
  = fold_left polymod_step c (bech32Polymod (bech32HrpExpand hrp ++ data)).
Proof. unfold bech32Polymod. by rewrite app_assoc, fold_left_app. Qed.

Lemma in30_1 : in30 1.
Proof. unfold in30. change (2 ^ 30) with 1073741824. lia. Qed.

Section checksum.
Variable hrp : string.
Variable data : list Z.
Hypothesis Hhrp : digits_ok 5 (bech32HrpExpand hrp).
Hypothesis Hdata : digits_ok 5 data.

Lemma state_in30 : in30 (polymod_state hrp data).
Proof.
  unfold polymod_state, bech32Polymod. apply polymod_fold_in30; [|apply in30_1].
  apply Forall_app. done.
Qed.

Lemma polymod_with (c : list Z) :
  length c = 6%nat → digits_ok 5 c →
  bech32Polymod (bech32HrpExpand hrp ++ data ++ c) = Z.lxor (polymod_core hrp data) (val 5 c).
Proof.
  intros Hlen Hc. rewrite polymod_split. fold (polymod_state hrp data).
  rewrite polymod_tail; [by rewrite Hlen|lia|done|apply state_in30].
Qed.

Lemma core_in30 : in30 (polymod_core hrp data).
Proof.
  pose proof (polymod_with [0; 0; 0; 0; 0; 0] eq_refl) as H.
  change (val 5 [0; 0; 0; 0; 0; 0]) with 0 in H. rewrite Z.lxor_0_r in H.
  rewrite <- H.
  - rewrite polymod_split. apply polymod_fold_in30; [|apply state_in30].
    repeat constructor; done.
  - repeat constructor; done.
Qed.

(** The six checksum words are the base-32 digits of [L xor 1]. *)
Lemma checksum_spec :
  length (bech32CreateChecksum hrp data) = 6%nat ∧
  digits_ok 5 (bech32CreateChecksum hrp data) ∧
  val 5 (bech32CreateChecksum hrp data) = Z.lxor (polymod_core hrp data) 1.
Proof.
  unfold bech32CreateChecksum.
  rewrite (polymod_with [0; 0; 0; 0; 0; 0] eq_refl) by (repeat constructor; done).
  change (val 5 [0; 0; 0; 0; 0; 0]) with 0. rewrite Z.lxor_0_r.
  destruct (bxor_in30 _ 1 core_in30 in30_1) as [-> Hm].
  set (m := Z.lxor (polymod_core hrp data) 1) in *.
  cbn [List.map]. rewrite !digit_extract by (done || lia).
  split; [done|]. split.
  - repeat constructor; apply Z.mod_pos_bound; done.
  - unfold val. cbn [fold_left]. unfold in30 in Hm.
    change (5 * (5 - 0)) with 25. change (5 * (5 - 1)) with 20.
    change (5 * (5 - 2)) with 15. change (5 * (5 - 3)) with 10.
    change (5 * (5 - 4)) with 5. change (5 * (5 - 5)) with 0.
    change (2 ^ 30) with 1073741824 in Hm. change (2 ^ 25) with 33554432.
    change (2 ^ 20) with 1048576. change (2 ^ 15) with 32768.
    change (2 ^ 10) with 1024. change (2 ^ 5) with 32. change (2 ^ 0) with 1.
    Z.div_mod_to_equations. lia.
Qed.

(** A data part ending in six words passes verification exactly when
    those words are the checksum of what precedes them. *)
Lemma verify_spec (c : list Z) :
  length c = 6%nat → digits_ok 5 c →
  bech32VerifyChecksum hrp (data ++ c)
  = bool_decide (c = bech32CreateChecksum hrp data).
Proof.
  intros Hlen Hc. unfold bech32VerifyChecksum.
  rewrite polymod_with by done.
  destruct checksum_spec as (Hl & Hd & Hv).
  destruct (decide (c = bech32CreateChecksum hrp data)) as [->|Hne].
  - rewrite bool_decide_eq_true_2 by done. rewrite Hv.
    rewrite <- Z.lxor_assoc, Z.lxor_nilpotent, Z.lxor_0_l. done.
  - rewrite bool_decide_eq_false_2 by done.
    apply Z.eqb_neq. intros E. apply Hne.
    apply (val_inj 5); [done|done|congruence|].
    rewrite Hv, <- E, <- Z.lxor_assoc, Z.lxor_nilpotent, Z.lxor_0_l. done.
Qed.

End checksum.

(** *** The text form *)

Lemma charset_props v :
  0 ≤ v < 32 →
  plain_char (charset_at v) = true ∧ not_separator (charset_at v) = true ∧
  BECH32_CHARSET_REV (charset_at v) = Some v.
Proof.
  intros Hv. rewrite <- (Z2Nat.id v) by lia.
  assert (Hn : (Z.to_nat v < 32)%nat) by lia.
  remember (Z.to_nat v) as n eqn:E. clear E Hv.
  do 32 (destruct n as [|n]; [vm_compute; done|]). lia.
Qed.

Lemma all_chars_chars_of p D :
  (∀ v, 0 ≤ v < 32 → p (charset_at v) = true) →
  digits_ok 5 D → all_chars p (chars_of D) = true.
Proof.
  intros Hp. induction D as [|d D IH]; intros H; [done|].
  apply Forall_cons in H as [Hd H]. simpl in Hd. change (2 ^ 5) with 32 in Hd.
  unfold chars_of. cbn [List.map string_of_list_ascii all_chars].
  rewrite (Hp d Hd). by apply IH.
Qed.

Lemma words_of_chars_of D : digits_ok 5 D → words_of (chars_of D) = Ok D.
Proof.
  induction D as [|d D IH]; intros H; [done|].
  apply Forall_cons in H as [Hd H]. simpl in Hd. change (2 ^ 5) with 32 in Hd.
  unfold chars_of. cbn [List.map string_of_list_ascii words_of].
  destruct (charset_props d Hd) as (_ & _ & ->).
  fold (chars_of D). by rewrite IH.
Qed.

Lemma length_chars_of D : String.length (chars_of D) = length D.
Proof. induction D as [|d D IH]; [done|]. unfold chars_of in *. simpl. by rewrite IH. Qed.

Lemma plain_parts c :
  plain_char c = true → Js.is_ws c = false ∧ Js.lower_char c = c.
Proof.
  unfold plain_char. intros H. apply andb_true_iff in H as [H1 H2].
  apply negb_true_iff in H1. apply Ascii.eqb_eq in H2. done.
Qed.

Lemma trimStart_plain s : all_chars plain_char s = true → Js.trimStart s = s.
Proof.
  destruct s as [|c s]; [done|]. simpl. intros H.
  apply andb_true_iff in H as [Hc _]. by destruct (plain_parts c Hc) as (-> & _).
Qed.

Lemma trimEnd_plain s : all_chars plain_char s = true → Js.trimEnd s = s.
Proof.
  induction s as [|c s IH]; [done|]. simpl. intros H.
  apply andb_true_iff in H as [Hc Hs]. rewrite (IH Hs).
  destruct (plain_parts c Hc) as (-> & _). by destruct s.
Qed.

Lemma trim_plain s : all_chars plain_char s = true → Js.trim s = s.
Proof. intros H. unfold Js.trim. by rewrite trimStart_plain, trimEnd_plain. Qed.

Lemma toLowerCase_plain s : all_chars plain_char s = true → Js.toLowerCase s = s.
Proof.
  induction s as [|c s IH]; [done|]. simpl. intros H.
  apply andb_true_iff in H as [Hc Hs]. rewrite (IH Hs).
  by destruct (plain_parts c Hc) as (_ & ->).
Qed.

Lemma lastIndexOf_none s i found :
  all_chars not_separator s = true → lastIndexOf_from "1" s i found = found.
Proof.
  revert i found. induction s as [|c s IH]; intros i found; [done|]. simpl. intros H.
  apply andb_true_iff in H as [Hc Hs]. apply negb_true_iff in Hc.
  rewrite Hc. by apply IH.
Qed.

Lemma nsec_text_plain D : digits_ok 5 D → all_chars plain_char (nsec_text D) = true.
Proof.
  intros HD.
  change (nsec_text D) with (String "n" (String "s" (String "e" (String "c"
                               (String "1" (chars_of D)))))).
  cbn [all_chars].
  apply (all_chars_chars_of plain_char D); [|done].
  intros v Hv. by destruct (charset_props v Hv).
Qed.

(** Decoding the text whose data part is the words [D]. *)
Lemma bech32Decode_text D :
  digits_ok 5 D → (6 ≤ length D)%nat →
  bech32Decode (nsec_text D) =
    if negb (bech32VerifyChecksum "nsec" D) then Err "bech32: invalid checksum"
    else bind (convertBits (drop_last6 D) 5 8 false)
              (λ bytes, Ok ("nsec", List.map (λ b, b mod 256) bytes)).
Proof.
  intros HD Hlen. pose proof (nsec_text_plain D HD) as Hplain.
  unfold bech32Decode. rewrite (trim_plain _ Hplain), (toLowerCase_plain _ Hplain).
  assert (Hpos : lastIndexOf "1" (nsec_text D) = 4).
  { unfold lastIndexOf.
    change (nsec_text D) with (String "n" (String "s" (String "e" (String "c"
                                 (String "1" (chars_of D)))))).
    cbn [lastIndexOf_from].
    change (Ascii.eqb "n" "1") with false. change (Ascii.eqb "s" "1") with false.
    change (Ascii.eqb "e" "1") with false. change (Ascii.eqb "c" "1") with false.
    change (Ascii.eqb "1" "1") with true. cbv iota.
    apply lastIndexOf_none, all_chars_chars_of; [|done].
    intros v Hv. by destruct (charset_props v Hv) as (_ & ? & _). }
  rewrite Hpos.
  assert (Hstrlen : strlen (nsec_text D) = 5 + Z.of_nat (length D)).
  { unfold strlen.
    change (nsec_text D) with (String "n" (String "s" (String "e" (String "c"
                                 (String "1" (chars_of D)))))).
    cbn [String.length]. rewrite length_chars_of. lia. }
  rewrite Hstrlen.
  replace (5 + Z.of_nat (length D) <? 4 + 7) with false by (symmetry; apply Z.ltb_ge; lia).
  change (4 <? 1) with false. cbn [orb].
  change (Js.slice0 (Z.to_nat 4) (nsec_text D)) with "nsec".
  change (Js.sliceFrom (Z.to_nat (4 + 1)) (nsec_text D)) with (chars_of D).
  rewrite words_of_chars_of by done. reflexivity.
Qed.

Lemma is_hex64_nsec_text D : is_hex64 (nsec_text D) = false.
Proof.
  change (nsec_text D) with (String "n" (String "s" (String "e" (String "c"
                               (String "1" (chars_of D)))))).
  unfold is_hex64. cbn [all_hex]. apply andb_false_r.
Qed.

Lemma decodeNsec_text D :
  digits_ok 5 D → (6 ≤ length D)%nat →
  decodeNsecToBytes None (nsec_text D) =
    bind (bech32Decode (nsec_text D))
      (λ '(hrp, data),
         if negb (String.eqb hrp "nsec") then Err "Not an nsec"
         else if negb (length data =? 32)%nat then Err "Invalid nsec length"
         else Ok data).
Proof.
  intros HD Hlen. pose proof (nsec_text_plain D HD) as Hplain.
  unfold decodeNsecToBytes. rewrite (trim_plain _ Hplain), is_hex64_nsec_text.
  reflexivity.
Qed.

Lemma map_mod_256 bytes : digits_ok 8 bytes → List.map (λ b, b mod 256) bytes = bytes.
Proof.
  induction 1 as [|b bytes Hb _ IH]; [done|]. simpl. rewrite IH.
  change (2 ^ 8) with 256 in Hb. by rewrite Z.mod_small.
Qed.

Lemma hrp_nsec_ok : digits_ok 5 (bech32HrpExpand "nsec").
Proof. vm_compute. repeat constructor; done. Qed.

Lemma drop_last6_app W C : length C = 6%nat → drop_last6 (W ++ C) = W.
Proof.
  intros H. unfold drop_last6. rewrite length_app, H.
  replace (length W + 6 - 6)%nat with (length W) by lia. apply take_app_length.
Qed.

(** The round trip through the local codec, with the words of the text. *)
Lemma nsec_roundtrip_local (sk : list Z) :
  length sk = 32%nat → digits_ok 8 sk →
  ∃ W,
    convertBits sk 8 5 true = Ok W ∧ digits_ok 5 W ∧
    length (bech32CreateChecksum "nsec" W) = 6%nat ∧
    digits_ok 5 (bech32CreateChecksum "nsec" W) ∧
    encodeNsec None sk = Ok (nsec_text (W ++ bech32CreateChecksum "nsec" W)) ∧
    bech32Decode (nsec_text (W ++ bech32CreateChecksum "nsec" W)) = Ok ("nsec", sk) ∧
    decodeNsecToBytes None (nsec_text (W ++ bech32CreateChecksum "nsec" W)) = Ok sk ∧
    ∀ C', length C' = 6%nat → digits_ok 5 C' → C' ≠ bech32CreateChecksum "nsec" W →
          bech32Decode (nsec_text (W ++ C')) = Err "bech32: invalid checksum" ∧
          decodeNsecToBytes None (nsec_text (W ++ C')) = Err "bech32: invalid checksum".
Proof.
  intros Hlen Hsk.
  destruct (convertBits_roundtrip sk Hlen Hsk) as (W & Henc & HlW & HdW & Hdec).
  destruct (checksum_spec "nsec" W hrp_nsec_ok HdW) as (HlC & HdC & _).
  exists W. split; [done|]. split; [done|]. split; [done|]. split; [done|].
  assert (HD : digits_ok 5 (W ++ bech32CreateChecksum "nsec" W)) by (by apply Forall_app).
  assert (Hdecode : bech32Decode (nsec_text (W ++ bech32CreateChecksum "nsec" W))
                    = Ok ("nsec", sk)).
  { rewrite bech32Decode_text by (done || (rewrite length_app; lia)).
    rewrite (verify_spec "nsec" W hrp_nsec_ok HdW) by done.
    rewrite bool_decide_eq_true_2 by done. cbn [negb].
    rewrite drop_last6_app, Hdec by done. cbn [bind].
    by rewrite map_mod_256. }
  split; [|split; [done|split]].
  - unfold encodeNsec, bech32Encode. rewrite Henc. reflexivity.
  - rewrite decodeNsec_text by (done || (rewrite length_app; lia)).
    rewrite Hdecode. cbn [bind]. rewrite Hlen. reflexivity.
  - intros C' HlC' HdC' Hne.
    assert (HD' : digits_ok 5 (W ++ C')) by (by apply Forall_app).
    rewrite decodeNsec_text, bech32Decode_text by (done || (rewrite length_app; lia)).
    rewrite (verify_spec "nsec" W hrp_nsec_ok HdW) by done.
    rewrite bool_decide_eq_false_2 by done. done.
Qed.

(** The words of a text with another checksum, split off the data words. *)
Lemma checksum_changed_split W C D' :
  length C = 6%nat → checksum_changed (W ++ C) D' →
  ∃ C', D' = W ++ C' ∧ length C' = 6%nat ∧ digits_ok 5 C' ∧ C' ≠ C.
Proof.
  intros HlC (Hd & Hl & Hdrop & Hne).
  rewrite drop_last6_app in Hdrop by done.
  unfold drop_last6 in Hdrop. rewrite length_app, HlC in Hl.
  exists (skipn (length D' - 6) D').
  assert (E : D' = W ++ skipn (length D' - 6) D').
  { rewrite <- Hdrop. symmetry. apply firstn_skipn. }
  split; [done|]. split; [|split].
  - rewrite length_skipn. lia.
  - rewrite E in Hd. by apply Forall_app in Hd as [_ ?].
  - intros Heq. apply Hne. rewrite E. by rewrite Heq.
Qed.

(** The BIP-173 codec meets the contract, for every key. *)
Lemma bech32_meets_contract (sk : list Z) :
  length sk = 32%nat → digits_ok 8 sk → nip19_contract (Some bech32_nip19) sk.
Proof.
  intros Hlen Hsk.
  destruct (nsec_roundtrip_local sk Hlen Hsk)
    as (W & HW & HdW & HlC & HdC & Henc & Hdec & _ & Hbad).
  exists (W ++ bech32CreateChecksum "nsec" W).
  split; [by apply Forall_app|]. split; [rewrite length_app; lia|].
  split; [|split].
  - cbn [nsecEncode bech32_nip19]. unfold encodeNsec in Henc. by rewrite Henc.
  - left. cbn [decode bech32_nip19]. by rewrite Hdec.
  - intros D' HD'.
    destruct (checksum_changed_split _ _ _ HlC HD') as (C' & -> & HlC' & HdC' & Hne).
    exists "bech32: invalid checksum". cbn [decode bech32_nip19].
    by destruct (Hbad C' HlC' HdC' Hne) as [-> _].
Qed.

(** C9.  For every key of 32 bytes, on both paths of [encodeNsec] and
    [decodeNsecToBytes]: with the [nip19] of nostr-tools, taken to do on
    this key what NIP-19 says ([nip19_contract]), and with the local
    bech32 codec when the export is absent, of which nothing is assumed.
    [encodeNsec] returns a text, "nsec1" followed by characters of the bech32
    alphabet, and [decodeNsecToBytes] of that text returns the key; the same
    text with other checksum characters (a flipped checksum bit included) is
    not decoded: [decodeNsecToBytes] throws, and with the local codec the
    error is the invalid-checksum error of [bech32Decode]. *)
Theorem nsec_roundtrip (nip19 : option Nip19) (sk : list Z) :
  length sk = 32%nat → digits_ok 8 sk → nip19_contract nip19 sk →
  ∃ D,
    digits_ok 5 D ∧ (6 ≤ length D)%nat ∧
    encodeNsec nip19 sk = Ok (nsec_text D) ∧
    decodeNsecToBytes nip19 (nsec_text D) = Ok sk ∧
    ∀ D', checksum_changed D D' →
          ∃ msg, decodeNsecToBytes nip19 (nsec_text D') = Err msg ∧
                 (nip19 = None → msg = "bech32: invalid checksum" ∧
                                 bech32Decode (nsec_text D') = Err msg).
Proof.
  intros Hlen Hsk Hlib. destruct nip19 as [lib|].
  - (* nostr-tools offers [nip19] *)
    destruct Hlib as (D & HdD & HlD & Henc & Hdec & Hbad).
    exists D. split; [done|]. split; [done|]. split; [|split].
    + unfold encodeNsec. by rewrite Henc.
    + unfold decodeNsecToBytes.
      rewrite (trim_plain _ (nsec_text_plain D HdD)), is_hex64_nsec_text.
      destruct Hdec as [-> | (t & Ht & Hhex & ->)]; cbn [bind]; [done|].
      by rewrite Ht.
    + intros D' HD'. destruct (Hbad D' HD') as [msg Hmsg].
      destruct HD' as (HdD' & _).
      exists msg. split; [|done]. unfold decodeNsecToBytes.
      rewrite (trim_plain _ (nsec_text_plain D' HdD')), is_hex64_nsec_text.
      by rewrite Hmsg.
  - (* the local codec *)
    destruct (nsec_roundtrip_local sk Hlen Hsk)
      as (W & HW & HdW & HlC & HdC & Henc & _ & Hdec & Hbad).
    exists (W ++ bech32CreateChecksum "nsec" W).
    split; [by apply Forall_app|]. split; [rewrite length_app; lia|].
    split; [done|]. split; [done|].
    intros D' HD'.
    destruct (checksum_changed_split _ _ _ HlC HD') as (C' & -> & HlC' & HdC' & Hne).
    exists "bech32: invalid checksum".
    destruct (Hbad C' HlC' HdC' Hne) as [H1 H2]. done.
Qed.

Lemma sample_key_ok : length sample_key = 32%nat ∧ digits_ok 8 sample_key.
Proof. split; [reflexivity|]. vm_compute. repeat constructor; done. Qed.

(** C9, witness: the key 01 02 ... 20, with a [nip19] that is the bech32
    codec. *)
Lemma nsec_roundtrip_witness :
  ∃ D,
    digits_ok 5 D ∧ (6 ≤ length D)%nat ∧
    encodeNsec (Some bech32_nip19) sample_key = Ok (nsec_text D) ∧
    decodeNsecToBytes (Some bech32_nip19) (nsec_text D) = Ok sample_key ∧
    ∀ D', checksum_changed D D' →
          ∃ msg, decodeNsecToBytes (Some bech32_nip19) (nsec_text D') = Err msg ∧
                 (Some bech32_nip19 = None → msg = "bech32: invalid checksum" ∧
                                 bech32Decode (nsec_text D') = Err msg).
Proof.
  apply (nsec_roundtrip (Some bech32_nip19) sample_key).
  - reflexivity.
  - unfold digits_ok, sample_key. cbn [seq List.map]. repeat constructor; lia.
  - apply bech32_meets_contract; [reflexivity|].
    unfold digits_ok, sample_key. cbn [seq List.map]. repeat constructor; lia.
Defined.

(** The same on the text itself: the last character [y] (word 4) becomes
    [9] (word 5), one flipped checksum bit. *)
Example nsec_sample_text :
  encodeNsec None sample_key
    = Ok "nsec1qypqxpq9qcrsszg2pvxq6rs0zqg3yyc5z5tpwxqergd3c8g7rusqpqcc2y" ∧
  decodeNsecToBytes None "nsec1qypqxpq9qcrsszg2pvxq6rs0zqg3yyc5z5tpwxqergd3c8g7rusqpqcc2y"
    = Ok sample_key ∧
  decodeNsecToBytes None "nsec1qypqxpq9qcrsszg2pvxq6rs0zqg3yyc5z5tpwxqergd3c8g7rusqpqcc29"
    = Err "bech32: invalid checksum".
Proof. vm_compute. done. Qed.

(** *** [convertBits] on any number of bytes *)

Lemma convertBits_8_5_any bytes :
  digits_ok 8 bytes →
  ∃ W pad, convertBits bytes 8 5 true = Ok W ∧ digits_ok 5 W ∧ 0 ≤ pad < 5 ∧
           5 * Z.of_nat (length W) = 8 * Z.of_nat (length bytes) + pad ∧
           val 5 W = val 8 bytes * 2 ^ pad.
Proof.
  intros Hd. unfold convertBits.
  destruct (convert_loop_spec 8 5 ltac:(lia) ltac:(lia) ltac:(lia)
              bytes 0 0 0 [] 0 (CInv_start 5) ltac:(lia) Hd)
    as (acc & bits & ret & Hloop & [Hacc HA Hbits Hval Hdig Hl] & Hb).
  rewrite Hloop. cbn [bind]. fold (val 8 bytes) in *.
  assert (bits = 0 ∨ bits = 1 ∨ bits = 2 ∨ bits = 3 ∨ bits = 4) as Hc by lia.
  destruct Hc as [->|Hc].
  - cbn [Z.eqb]. exists ret, 0. split; [done|]. split; [done|]. split; [lia|].
    split; [lia|]. rewrite Hval. change (2 ^ 0) with 1. by rewrite Z.div_1_r, Z.mul_1_r.
  - assert ((bits =? 0) = false) as -> by (apply Z.eqb_neq; lia).
    exists (ret ++ [band (shl acc (5 - bits)) (shl 1 5 - 1)]), (5 - bits).
    split; [done|].
    rewrite (js_pad acc (val 8 bytes) (5 - bits) 5) by (done || lia).
    split; [|split; [lia|split]].
    + apply Forall_app. split; [done|]. apply Forall_singleton.
      apply Z.mod_pos_bound. done.
    + rewrite length_app. simpl. lia.
    + rewrite val_snoc, Hval. change (2 ^ 5) with 32.
      destruct Hc as [->|[->|[->| ->]]]; cbn [Z.sub Z.add Z.opp Z.pos_sub Pos.pred_double];
        [change (2 ^ 1) with 2; change (2 ^ 4) with 16
        |change (2 ^ 2) with 4; change (2 ^ 3) with 8
        |change (2 ^ 3) with 8; change (2 ^ 2) with 4
        |change (2 ^ 4) with 16; change (2 ^ 1) with 2];
        Z.div_mod_to_equations; lia.
Qed.

Lemma convertBits_5_8_any W B n pad :
  digits_ok 5 W → 0 ≤ pad < 5 →
  5 * Z.of_nat (length W) = 8 * Z.of_nat n + pad →
  val 5 W = B * 2 ^ pad → 0 ≤ B →
  ∃ R, convertBits W 5 8 false = Ok R ∧ length R = n ∧ digits_ok 8 R ∧ val 8 R = B.
Proof.
  intros Hd Hpad Hlen HB HB0. unfold convertBits.
  destruct (convert_loop_spec 5 8 ltac:(lia) ltac:(lia) ltac:(lia)
              W 0 0 0 [] 0 (CInv_start 8) ltac:(lia) Hd)
    as (acc & bits & ret & Hloop & [Hacc HA Hbits Hval Hdig Hl] & Hb).
  rewrite Hloop. cbn [bind]. fold (val 5 W) in *.
  assert (bits = pad ∧ length ret = n) as [-> Hret] by lia.
  assert ((5 <=? pad) = false) as -> by (apply Z.leb_gt; lia).
  rewrite (js_pad acc (val 5 W) (8 - pad) 8) by (done || lia).
  rewrite HB in *.
  assert (Hz : (B * 2 ^ pad * 2 ^ (8 - pad)) mod 2 ^ 8 = 0).
  { rewrite <- Z.mul_assoc, <- Z.pow_add_r by lia.
    replace (pad + (8 - pad)) with 8 by lia. apply Z.mod_mul. done. }
  rewrite Hz. cbn [Z.eqb negb]. exists ret. split; [done|]. split; [done|].
  split; [done|]. rewrite Hval. apply Z.div_mul.
  assert (0 < 2 ^ pad) by (apply pow2_pos; lia). lia.
Qed.

Lemma convertBits_inverse_any bytes :
  digits_ok 8 bytes →
  ∃ W, convertBits bytes 8 5 true = Ok W ∧ digits_ok 5 W ∧
       convertBits W 5 8 false = Ok bytes ∧
       Z.of_nat (length W) = (8 * Z.of_nat (length bytes) + 4) / 5.
Proof.
  intros Hd.
  destruct (convertBits_8_5_any bytes Hd) as (W & pad & HW & HdW & Hpad & Hlen & Hval).
  destruct (convertBits_5_8_any W (val 8 bytes) (length bytes) pad HdW Hpad Hlen Hval
              (val_nonneg 8 bytes Hd)) as (R & HR & HlR & HdR & HvR).
  exists W. split; [done|]. split; [done|]. split.
  - rewrite HR. f_equal. apply (val_inj 8); done.
  - Z.div_mod_to_equations. lia.
Qed.

(** *** Values out of range *)

Lemma convert_loop_invalid f t maxv data v :
  0 ≤ f < 32 → v ∈ data → (v < 0 ∨ 2 ^ f ≤ v < 2 ^ 31) →
  ∀ acc bits ret, convert_loop f t maxv data acc bits ret = Err "convertBits: invalid value".
Proof.
  intros Hf Hin Hv. induction data as [|w data IH]; intros acc bits ret.
  - by apply elem_of_nil in Hin.
  - cbn [convert_loop].
    destruct ((w <? 0) || negb (sar w f =? 0)) eqn:E; [done|].
    apply elem_of_cons in Hin as [->|Hin].
    + exfalso. apply orb_false_iff in E as [E1 E2].
      apply Z.ltb_ge in E1. apply negb_false_iff, Z.eqb_eq in E2.
      destruct Hv as [Hv|Hv]; [lia|].
      unfold sar in E2. rewrite (Z.mod_small f 32) in E2 by lia.
      rewrite int32_small in E2 by lia.
      rewrite Z.shiftr_div_pow2 in E2 by lia.
      assert (0 < 2 ^ f) by (apply pow2_pos; lia).
      apply Z.div_small_iff in E2; lia.
    + destruct (drain _ _ _ _ _ _). by apply IH.
Qed.

(** For a positive target width the inner loop ends by its own test
    within the rounds the model allows it: the fuel is never what stops
    it. *)
Lemma drain_exits fuel acc bits t maxv ret :
  0 < t → bits ≤ Z.of_nat fuel → (drain fuel acc bits t maxv ret).1 < t.
Proof.
  intros Ht. revert bits ret.
  induction fuel as [|fuel IH]; intros bits ret Hb; cbn [drain].
  - simpl. lia.
  - destruct (t <=? bits) eqn:E.
    + apply IH. apply Z.leb_le in E. lia.
    + apply Z.leb_gt in E. simpl. lia.
Qed.

(** X22.  For a positive target width, [convertBits] throws "convertBits:
    invalid value" as soon as the data holds a value that is negative or,
    below 2^31, does not fit in [fromBits] bits, whatever the other values
    and the padding flag: the inner loop run for each value before it ends
    by its own test, and the bad value is then met.  So [bech32Encode]
    refuses a payload with an element that is not a byte.  (With a target
    width of 0 or less the inner loop of the source does not end once a
    valid value has been read; the codec calls [convertBits] with the widths
    5 and 8 only.) *)
Theorem convertBits_rejects_out_of_range (data : list Z) (f t v : Z) (pad : bool) :
  0 ≤ f < 32 → 0 < t → v ∈ data → (v < 0 ∨ 2 ^ f ≤ v < 2 ^ 31) →
  (∀ acc bits maxv ret, (drain (Z.to_nat bits) acc bits t maxv ret).1 < t) ∧
  convertBits data f t pad = Err "convertBits: invalid value" ∧
  (f = 8 → ∀ hrp, bech32Encode hrp data = Err "convertBits: invalid value").
Proof.
  intros Hf Ht Hin Hv.
  assert (E : ∀ t' pad', convertBits data f t' pad' = Err "convertBits: invalid value").
  { intros t' pad'. unfold convertBits.
    by rewrite (convert_loop_invalid f t' _ data v Hf Hin Hv). }
  split; [|split; [apply E|]].
  - intros acc bits maxv ret. apply drain_exits; [done|lia].
  - intros -> hrp. unfold bech32Encode. by rewrite E.
Qed.

(** X22, witness: the payload 1, 256, 3. *)
Lemma convertBits_rejects_out_of_range_witness :
  (∀ acc bits maxv ret, (drain (Z.to_nat bits) acc bits 5 maxv ret).1 < 5) ∧
  convertBits [1; 256; 3] 8 5 true = Err "convertBits: invalid value" ∧
  (8 = 8 → ∀ hrp, bech32Encode hrp [1; 256; 3] = Err "convertBits: invalid value").
Proof.
  apply (convertBits_rejects_out_of_range [1; 256; 3] 8 5 256 true).
  - lia.
  - lia.
  - apply elem_of_cons. right. apply elem_of_cons. left. reflexivity.
  - right. change (2 ^ 8) with 256. change (2 ^ 31) with 2147483648. lia.
Defined.

(** *** The text form, for any prefix *)

Lemma all_chars_app p s1 s2 :
  all_chars p (s1 ++ s2)%string = all_chars p s1 && all_chars p s2.
Proof.
  induction s1 as [|c s1 IH]; [done|]. simpl. rewrite IH. by rewrite andb_assoc.
Qed.

Lemma strlen_app s1 s2 : strlen (s1 ++ s2)%string = strlen s1 + strlen s2.
Proof.
  unfold strlen. induction s1 as [|c s1 IH]; [done|].
  simpl String.length. lia.
Qed.

Lemma lastIndexOf_from_app c s1 s2 :
  ∀ i found,
    lastIndexOf_from c (s1 ++ s2)%string i found
    = lastIndexOf_from c s2 (i + strlen s1) (lastIndexOf_from c s1 i found).
Proof.
  induction s1 as [|d s1 IH]; intros i found.
  - simpl. unfold strlen. simpl. by rewrite Z.add_0_r.
  - simpl. rewrite IH. unfold strlen. simpl String.length. f_equal. lia.
Qed.

Lemma slice0_app s1 s2 : Js.slice0 (String.length s1) (s1 ++ s2)%string = s1.
Proof. induction s1 as [|c s1 IH]; [by destruct s2|]. simpl. by rewrite IH. Qed.

Lemma sliceFrom_app s1 s2 : Js.sliceFrom (String.length s1) (s1 ++ s2)%string = s2.
Proof. induction s1 as [|c s1 IH]; [done|]. simpl. by rewrite IH. Qed.

Lemma charCode_range c : 0 ≤ charCode c < 256.
Proof.
  unfold charCode. pose proof (nat_ascii_bounded c). lia.
Qed.

Lemma hrp_expand_ok hrp : digits_ok 5 (bech32HrpExpand hrp).
Proof.
  unfold bech32HrpExpand, digits_ok.
  apply Forall_app. split; [|apply Forall_cons; split; [simpl; lia|]].
  - apply Forall_forall. intros x Hx. apply list_elem_of_In, in_map_iff in Hx as (c & <- & _).
    pose proof (charCode_range c) as Hc.
    unfold shr, uint32. rewrite (Z.mod_small (charCode c)) by (change (2 ^ 32) with 4294967296; lia).
    change (5 mod 32) with 5. rewrite Z.shiftr_div_pow2 by lia.
    change (2 ^ 5) with 32. Z.div_mod_to_equations. lia.
  - apply Forall_forall. intros x Hx. apply list_elem_of_In, in_map_iff in Hx as (c & <- & _).
    change 31 with (Z.ones 5). rewrite band_ones by lia.
    apply Z.mod_pos_bound. done.
Qed.

(** Decoding a text [hrp + "1" + d] whose parts are lower case, free of
    white space, and whose data part has no separator. *)
Lemma bech32Decode_parts hrp d :
  all_chars plain_char hrp = true → all_chars plain_char d = true →
  all_chars not_separator d = true →
  bech32Decode (bech32_text hrp d) =
    if (strlen hrp <? 1) || (strlen d <? 6)
    then Err "bech32: invalid separator position"
    else bind (words_of d)
           (λ dataWords,
              if negb (bech32VerifyChecksum hrp dataWords)
              then Err "bech32: invalid checksum"
              else bind (convertBits (drop_last6 dataWords) 5 8 false)
                        (λ bytes, Ok (hrp, List.map (λ b, b mod 256) bytes))).
Proof.
  intros Hh Hd Hsep.
  assert (Hplain : all_chars plain_char (bech32_text hrp d) = true).
  { unfold bech32_text. rewrite !all_chars_app, Hh, Hd. reflexivity. }
  unfold bech32Decode. rewrite (trim_plain _ Hplain), (toLowerCase_plain _ Hplain).
  assert (Hpos : lastIndexOf "1" (bech32_text hrp d) = strlen hrp).
  { unfold lastIndexOf, bech32_text. rewrite lastIndexOf_from_app.
    change ("1" ++ d)%string with (String "1" d). cbn [lastIndexOf_from].
    change (Ascii.eqb "1" "1") with true. cbv iota.
    rewrite lastIndexOf_none by done. lia. }
  rewrite Hpos.
  assert (Hlen : strlen (bech32_text hrp d) = strlen hrp + 1 + strlen d).
  { unfold bech32_text. rewrite !strlen_app. unfold strlen at 2. simpl. lia. }
  rewrite Hlen.
  replace (strlen hrp + 1 + strlen d <? strlen hrp + 7) with (strlen d <? 6)
    by (destruct (Z.ltb_spec (strlen d) 6), (Z.ltb_spec (strlen hrp + 1 + strlen d) (strlen hrp + 7));
        try done; lia).
  destruct ((strlen hrp <? 1) || (strlen d <? 6)); [done|].
  assert (Hs0 : Js.slice0 (Z.to_nat (strlen hrp)) (bech32_text hrp d) = hrp).
  { unfold strlen. rewrite Nat2Z.id. apply slice0_app. }
  assert (Hs1 : Js.sliceFrom (Z.to_nat (strlen hrp + 1)) (bech32_text hrp d) = d).
  { unfold strlen.
    replace (Z.to_nat (Z.of_nat (String.length hrp) + 1)) with (S (String.length hrp)) by lia.
    unfold bech32_text. clear. induction hrp as [|c hrp IH]; [done|]. simpl. exact IH. }
  rewrite Hs0, Hs1. reflexivity.
Qed.

Lemma strlen_chars_of D : strlen (chars_of D) = Z.of_nat (length D).
Proof. unfold strlen. by rewrite length_chars_of. Qed.

Lemma strlen_pos hrp : hrp ≠ "" → 1 ≤ strlen hrp.
Proof. intros H. destruct hrp; [done|]. unfold strlen. simpl String.length. lia. Qed.

(** The round trip on any prefix and any payload. *)
Lemma bech32_roundtrip_any hrp payload :
  hrp ≠ "" → all_chars plain_char hrp = true → digits_ok 8 payload →
  ∃ W, convertBits payload 8 5 true = Ok W ∧ digits_ok 5 W ∧
       bech32Encode hrp payload
         = Ok (bech32_text hrp (chars_of (W ++ bech32CreateChecksum hrp W))) ∧
       bech32Decode (bech32_text hrp (chars_of (W ++ bech32CreateChecksum hrp W)))
         = Ok (hrp, payload) ∧
       all_chars plain_char
         (bech32_text hrp (chars_of (W ++ bech32CreateChecksum hrp W))) = true.
Proof.
  intros Hne Hh Hd.
  destruct (convertBits_inverse_any payload Hd) as (W & Henc & HdW & Hdec & _).
  destruct (checksum_spec hrp W (hrp_expand_ok hrp) HdW) as (HlC & HdC & _).
  assert (HD : digits_ok 5 (W ++ bech32CreateChecksum hrp W)) by (by apply Forall_app).
  assert (Hp : all_chars plain_char (chars_of (W ++ bech32CreateChecksum hrp W)) = true).
  { apply all_chars_chars_of; [|done]. intros v Hv. by destruct (charset_props v Hv). }
  assert (Hs : all_chars not_separator (chars_of (W ++ bech32CreateChecksum hrp W)) = true).
  { apply all_chars_chars_of; [|done]. intros v Hv. by destruct (charset_props v Hv) as (_ & ? & _). }
  exists W. split; [done|]. split; [done|]. split; [|split].
  - unfold bech32Encode. rewrite Henc. reflexivity.
  - rewrite bech32Decode_parts by done.
    pose proof (strlen_pos hrp Hne).
    rewrite strlen_chars_of, length_app, HlC.
    replace (strlen hrp <? 1) with false by (symmetry; apply Z.ltb_ge; lia).
    replace (Z.of_nat (length W + 6) <? 6) with false by (symmetry; apply Z.ltb_ge; lia).
    cbn [orb]. rewrite words_of_chars_of by done. cbn [bind].
    rewrite (verify_spec hrp W (hrp_expand_ok hrp) HdW) by done.
    rewrite bool_decide_eq_true_2 by done. cbn [negb].
    rewrite drop_last6_app, Hdec by done. cbn [bind].
    by rewrite map_mod_256.
  - unfold bech32_text. rewrite !all_chars_app, Hh, Hp. reflexivity.
Qed.

(** X23.  The local bech32 codec on any prefix and any payload: for a
    non-empty prefix of lower-case characters without white space and any
    list of bytes, of any length, [bech32Encode] returns a text,
    [bech32Decode] of that text returns the prefix and the bytes, and the
    text has one separator, six checksum characters and one character for
    every five payload bits, rounded up. *)
Theorem bech32_roundtrip (hrp : string) (payload : list Z) :
  hrp ≠ "" → all_chars plain_char hrp = true → digits_ok 8 payload →
  ∃ text, bech32Encode hrp payload = Ok text ∧
          bech32Decode text = Ok (hrp, payload) ∧
          strlen text = strlen hrp + 7 + (8 * Z.of_nat (length payload) + 4) / 5.
Proof.
  intros Hne Hh Hd.
  destruct (bech32_roundtrip_any hrp payload Hne Hh Hd) as (W & Hc & HdW & He & Hdec & _).
  destruct (convertBits_inverse_any payload Hd) as (W' & Hc' & _ & _ & Hlen).
  assert (W' = W) as -> by congruence.
  destruct (checksum_spec hrp W (hrp_expand_ok hrp) HdW) as (HlC & _ & _).
  eexists. split; [exact He|]. split; [exact Hdec|].
  unfold bech32_text. rewrite !strlen_app, strlen_chars_of, length_app, HlC.
  unfold strlen at 2. simpl String.length. lia.
Qed.

(** X23, witness: the prefix npub with the bytes 01 .. 20. *)
Lemma bech32_roundtrip_witness :
  ∃ text, bech32Encode "npub" sample_key = Ok text ∧
          bech32Decode text = Ok ("npub", sample_key) ∧
          strlen text = strlen "npub" + 7 + (8 * Z.of_nat (length sample_key) + 4) / 5.
Proof.
  apply (bech32_roundtrip "npub" sample_key); [discriminate|reflexivity|].
  unfold digits_ok, sample_key. cbn [seq List.map]. repeat constructor; lia.
Defined.

(** *** What [decodeNsecToBytes] refuses *)

Lemma all_hex_app_false s1 s2 : all_hex s1 = false → all_hex (s1 ++ s2)%string = false.
Proof.
  induction s1 as [|c s1 IH]; [done|]. simpl. destruct (hex_digit c); [exact IH|done].
Qed.

(** X24.  With the local codec, [decodeNsecToBytes] of a well-formed
    bech32 text returns the payload only if the prefix is nsec and the
    payload has 32 bytes: for another prefix it throws "Not an nsec", and
    for an nsec of any other length "Invalid nsec length".  (The prefix holds
    a character that is not a hexadecimal digit, so the text is not taken
    for a raw hex key.) *)
Theorem foreign_text_rejected (hrp : string) (payload : list Z) :
  hrp ≠ "" → all_chars plain_char hrp = true → all_hex hrp = false →
  digits_ok 8 payload →
  ∃ text, bech32Encode hrp payload = Ok text ∧
          decodeNsecToBytes None text =
            if negb (String.eqb hrp "nsec") then Err "Not an nsec"
            else if negb (length payload =? 32)%nat then Err "Invalid nsec length"
            else Ok payload.
Proof.
  intros Hne Hh Hx Hd.
  destruct (bech32_roundtrip_any hrp payload Hne Hh Hd) as (W & _ & _ & He & Hdec & Hp).
  eexists. split; [exact He|].
  unfold decodeNsecToBytes. rewrite (trim_plain _ Hp).
  assert (is_hex64 (bech32_text hrp (chars_of (W ++ bech32CreateChecksum hrp W))) = false) as ->.
  { unfold is_hex64, bech32_text. rewrite all_hex_app_false by done. apply andb_false_r. }
  rewrite Hdec. reflexivity.
Qed.

(** X24, witness: an npub is not accepted as a private key. *)
Lemma foreign_text_rejected_witness :
  ∃ text, bech32Encode "npub" sample_key = Ok text ∧
          decodeNsecToBytes None text =
            if negb (String.eqb "npub" "nsec") then Err "Not an nsec"
            else if negb (length sample_key =? 32)%nat then Err "Invalid nsec length"
            else Ok sample_key.
Proof.
  apply (foreign_text_rejected "npub" sample_key);
    [discriminate|reflexivity|reflexivity|].
  unfold digits_ok, sample_key. cbn [seq List.map]. repeat constructor; lia.
Defined.

(** *** Malformed texts *)

Lemma words_of_invalid d c :
  c ∈ list_ascii_of_string d → BECH32_CHARSET_REV c = None →
  words_of d = Err "bech32: invalid character".
Proof.
  induction d as [|e d IH]; cbn [list_ascii_of_string words_of]; intros Hin Hc.
  - by apply elem_of_nil in Hin.
  - apply elem_of_cons in Hin as [<-|Hin]; [by rewrite Hc|].
    destruct (BECH32_CHARSET_REV e); [|done]. by rewrite IH.
Qed.

(** X25.  [bech32Decode] throws "bech32: invalid separator position" for
    a text that, trimmed and lower-cased, has no separator, for a text with
    an empty prefix and for one with fewer than six characters after the
    last separator; and "bech32: invalid character" when the data part is
    long enough and holds a character that is not in the bech32 alphabet. *)
Theorem malformed_text_rejected (s hrp d : string) :
  all_chars plain_char hrp = true → all_chars plain_char d = true →
  all_chars not_separator d = true →
  (all_chars not_separator (Js.toLowerCase (Js.trim s)) = true →
   bech32Decode s = Err "bech32: invalid separator position") ∧
  (hrp = "" ∨ strlen d < 6 →
   bech32Decode (bech32_text hrp d) = Err "bech32: invalid separator position") ∧
  (hrp ≠ "" → 6 ≤ strlen d →
   ∀ c, c ∈ list_ascii_of_string d → BECH32_CHARSET_REV c = None →
        bech32Decode (bech32_text hrp d) = Err "bech32: invalid character").
Proof.
  intros Hh Hd Hs. split; [|split].
  - intros Hns. unfold bech32Decode.
    unfold lastIndexOf. by rewrite lastIndexOf_none.
  - intros Hc. rewrite bech32Decode_parts by done.
    destruct Hc as [->|Hc]; [done|].
    replace (strlen d <? 6) with true by (symmetry; apply Z.ltb_lt; lia).
    by rewrite orb_true_r.
  - intros Hne Hlen c Hin Hc. rewrite bech32Decode_parts by done.
    pose proof (strlen_pos hrp Hne).
    replace (strlen hrp <? 1) with false by (symmetry; apply Z.ltb_ge; lia).
    replace (strlen d <? 6) with false by (symmetry; apply Z.ltb_ge; lia).
    cbn [orb]. by rewrite (words_of_invalid d c).
Qed.

(** X25, witness: a text without separator, and a data part with a [b]. *)
Lemma malformed_text_rejected_witness :
  (all_chars not_separator (Js.toLowerCase (Js.trim " NSEC ")) = true →
   bech32Decode " NSEC " = Err "bech32: invalid separator position") ∧
  ("nsec" = "" ∨ strlen "qqqqqqb" < 6 →
   bech32Decode (bech32_text "nsec" "qqqqqqb") = Err "bech32: invalid separator position") ∧
  ("nsec" ≠ "" → 6 ≤ strlen "qqqqqqb" →
   ∀ c, c ∈ list_ascii_of_string "qqqqqqb" → BECH32_CHARSET_REV c = None →
        bech32Decode (bech32_text "nsec" "qqqqqqb") = Err "bech32: invalid character").
Proof.
  apply (malformed_text_rejected " NSEC " "nsec" "qqqqqqb"); reflexivity.
Defined.

End Bech32Facts.

Module KeysFacts.
Import Bech32 Bech32Facts Keys.

Local Open Scope string_scope.
Local Open Scope Z_scope.
Local Open Scope list_scope.

(** *** Hexadecimal *)

Lemma hex_char_props x :
  0 ≤ x < 16 →
  hex_digit (hex_char x) = Some x ∧ plain_char (hex_char x) = true.
Proof.
  intros Hx. rewrite <- (Z2Nat.id x) by lia.
  assert (Hn : (Z.to_nat x < 16)%nat) by lia.
  remember (Z.to_nat x) as n eqn:E. clear E Hx.
  do 16 (destruct n as [|n]; [vm_compute; done|]). lia.
Qed.

Lemma lower_hex_char c :
  match hex_digit (Js.lower_char c) with
  | Some x => hex_char x = Js.lower_char c ∧ 0 ≤ x < 16
  | None => True
  end.
Proof.
  destruct c as [[] [] [] [] [] [] [] []]; vm_compute; try done; split; try done; split; done.
Qed.

Lemma byte_hex_pairs b s :
  0 ≤ b < 256 → hex_pairs (byte_hex b ++ s)%string = b :: hex_pairs s.
Proof.
  intros Hb. unfold byte_hex.
  change (String ?a (String ?c "") ++ s)%string with (String a (String c s)).
  cbn [hex_pairs append].
  destruct (hex_char_props (b / 16)) as [-> _]; [Z.div_mod_to_equations; lia|].
  destruct (hex_char_props (b mod 16)) as [-> _]; [Z.div_mod_to_equations; lia|].
  f_equal. Z.div_mod_to_equations. lia.
Qed.

Lemma bytesToHex_props bytes :
  digits_ok 8 bytes →
  hex_pairs (bytesToHex bytes) = bytes ∧
  all_hex (bytesToHex bytes) = true ∧
  all_chars plain_char (bytesToHex bytes) = true ∧
  String.length (bytesToHex bytes) = (2 * length bytes)%nat.
Proof.
  induction 1 as [|b bytes Hb _ IH]; [done|].
  change (2 ^ 8) with 256 in Hb.
  destruct IH as (I1 & I2 & I3 & I4).
  cbn [bytesToHex fold_right]. fold (bytesToHex bytes).
  split; [by rewrite byte_hex_pairs, I1|].
  unfold byte_hex.
  change (String ?a (String ?c "") ++ ?s)%string with (String a (String c s)).
  destruct (hex_char_props (b / 16)) as [E1 P1]; [Z.div_mod_to_equations; lia|].
  destruct (hex_char_props (b mod 16)) as [E2 P2]; [Z.div_mod_to_equations; lia|].
  cbn [all_hex all_chars String.length length]. rewrite E1, E2, P1, P2, I2, I3, I4.
  repeat split; try done. lia.
Qed.

Lemma hex_pairs_lower n :
  ∀ t, String.length t = (2 * n)%nat → all_hex (Js.toLowerCase t) = true →
       bytesToHex (hex_pairs (Js.toLowerCase t)) = Js.toLowerCase t ∧
       length (hex_pairs (Js.toLowerCase t)) = n ∧
       digits_ok 8 (hex_pairs (Js.toLowerCase t)).
Proof.
  induction n as [|n IH]; intros t Hlen Hhex.
  - destruct t; [|simpl in Hlen; lia]. split; [done|]. split; [done|constructor].
  - destruct t as [|a [|b t]]; try (simpl in Hlen; lia).
    cbn [Js.toLowerCase all_hex hex_pairs] in *.
    pose proof (lower_hex_char a) as Ha. pose proof (lower_hex_char b) as Hb.
    destruct (hex_digit (Js.lower_char a)) as [x|]; [|done].
    destruct (hex_digit (Js.lower_char b)) as [y|]; [|done].
    destruct Ha as [Ha Hx]. destruct Hb as [Hb Hy].
    destruct (IH t ltac:(simpl in Hlen; lia) Hhex) as (I1 & I2 & I3).
    split; [|split].
    + cbn [bytesToHex fold_right]. fold (bytesToHex (hex_pairs (Js.toLowerCase t))).
      rewrite I1. unfold byte_hex.
      replace ((16 * x + y) / 16) with x by (Z.div_mod_to_equations; lia).
      replace ((16 * x + y) mod 16) with y by (Z.div_mod_to_equations; lia).
      by rewrite Ha, Hb.
    + cbn [length]. by rewrite I2.
    + apply Forall_cons. split; [|done]. change (2 ^ 8) with 256. lia.
Qed.

Lemma toLowerCase_length t : String.length (Js.toLowerCase t) = String.length t.
Proof. induction t as [|c t IH]; [done|]. simpl. by rewrite IH. Qed.

Lemma hexToBytes_ok hex :
  is_hex64 (Js.toLowerCase (Js.trim hex)) = true →
  ∃ bytes, hexToBytes hex = Ok bytes ∧ length bytes = 32%nat ∧ digits_ok 8 bytes ∧
           bytesToHex bytes = Js.toLowerCase (Js.trim hex).
Proof.
  intros H. unfold hexToBytes. rewrite H.
  unfold is_hex64 in H. apply andb_true_iff in H as [Hl Hx].
  apply Nat.eqb_eq in Hl. rewrite toLowerCase_length in Hl.
  destruct (hex_pairs_lower 32 (Js.trim hex) Hl Hx) as (I1 & I2 & I3).
  eexists. split; [reflexivity|]. done.
Qed.

(** X26.  For every key of 32 bytes, [bytesToHex] gives 64 characters
    that [hexToBytes] turns back into the key, and [decodeNsecToBytes]
    accepts that text as a raw hex key whether or not nostr-tools offers
    [nip19]; and whenever [hexToBytes] returns, the result has 32 bytes and
    its [bytesToHex] is the input trimmed and lower-cased. *)
Theorem hex_roundtrip (bytes : list Z) :
  length bytes = 32%nat → digits_ok 8 bytes →
  hexToBytes (bytesToHex bytes) = Ok bytes ∧
  String.length (bytesToHex bytes) = 64%nat ∧
  (∀ nip19, decodeNsecToBytes nip19 (bytesToHex bytes) = Ok bytes) ∧
  (∀ hex b, hexToBytes hex = Ok b →
            length b = 32%nat ∧ digits_ok 8 b ∧
            bytesToHex b = Js.toLowerCase (Js.trim hex)).
Proof.
  intros Hlen Hd. destruct (bytesToHex_props bytes Hd) as (P1 & P2 & P3 & P4).
  assert (H64 : is_hex64 (bytesToHex bytes) = true).
  { unfold is_hex64. rewrite P2, P4, Hlen. reflexivity. }
  assert (E : hexToBytes (bytesToHex bytes) = Ok bytes).
  { unfold hexToBytes. rewrite (trim_plain _ P3), (toLowerCase_plain _ P3), H64.
    by rewrite P1. }
  split; [done|]. split; [by rewrite P4, Hlen|]. split.
  - intros nip19. unfold decodeNsecToBytes. rewrite (trim_plain _ P3), H64. done.
  - intros hex b Hb. unfold hexToBytes in Hb.
    destruct (is_hex64 (Js.toLowerCase (Js.trim hex))) eqn:H; [|done].
    destruct (hexToBytes_ok hex H) as (b' & Hb' & ? & ? & ?).
    unfold hexToBytes in Hb'. rewrite H in Hb'. by simplify_eq.
Qed.

(** X26, witness: the bytes 01 .. 20. *)
Lemma hex_roundtrip_witness :
  hexToBytes (bytesToHex sample_key) = Ok sample_key ∧
  String.length (bytesToHex sample_key) = 64%nat ∧
  (∀ nip19, decodeNsecToBytes nip19 (bytesToHex sample_key) = Ok sample_key) ∧
  (∀ hex b, hexToBytes hex = Ok b →
            length b = 32%nat ∧ digits_ok 8 b ∧
            bytesToHex b = Js.toLowerCase (Js.trim hex)).
Proof.
  apply (hex_roundtrip sample_key); [reflexivity|].
  unfold digits_ok, sample_key. cbn [seq List.map]. repeat constructor; lia.
Defined.

(** *** Key generation *)

Lemma bigint_val bytes : bytesToBigIntBE bytes = val 8 bytes.
Proof.
  unfold bytesToBigIntBE, val. generalize 0.
  induction bytes as [|b bytes IH]; intros a; [done|].
  cbn [fold_left]. rewrite IH. by rewrite Z.shiftl_mul_pow2 by lia.
Qed.

Lemma generate_loop_spec draw fuel :
  ∀ k, match generate_loop fuel draw k with
       | Some sk => ∃ j, (k ≤ j < k + fuel)%nat ∧ sk = draw j ∧ valid_key (draw j) = true ∧
                         ∀ i, (k ≤ i < j)%nat → valid_key (draw i) = false
       | None => ∀ i, (k ≤ i < k + fuel)%nat → valid_key (draw i) = false
       end.
Proof.
  induction fuel as [|fuel IH]; intros k; cbn [generate_loop].
  - intros i Hi. lia.
  - assert (Hstep : valid_key (draw k) = false →
      match generate_loop fuel draw (S k) with
      | Some sk => ∃ j, (k ≤ j < k + S fuel)%nat ∧ sk = draw j ∧ valid_key (draw j) = true ∧
                        ∀ i, (k ≤ i < j)%nat → valid_key (draw i) = false
      | None => ∀ i, (k ≤ i < k + S fuel)%nat → valid_key (draw i) = false
      end).
    { intros Hk. specialize (IH (S k)). destruct (generate_loop fuel draw (S k)) as [sk|].
      - destruct IH as (j & Hj & -> & Hv & Hbefore). exists j.
        split; [lia|]. split; [done|]. split; [done|].
        intros i Hi. destruct (decide (i = k)) as [->|]; [done|]. apply Hbefore. lia.
      - intros i Hi. destruct (decide (i = k)) as [->|]; [done|]. apply IH. lia. }
    destruct (bytesToBigIntBE (draw k) =? 0) eqn:E0.
    { apply Hstep. unfold valid_key. by rewrite E0. }
    destruct (SECP256K1_N <=? bytesToBigIntBE (draw k)) eqn:EN.
    { apply Hstep. unfold valid_key. rewrite EN. apply andb_false_r. }
    exists k. split; [lia|]. split; [done|]. split.
    + unfold valid_key. by rewrite E0, EN.
    + intros i Hi. lia.
Qed.

(** X27.  [generateSecp256k1PrivateKey] with a random source that fills
    arrays with bytes: a key it returns is the first array drawn whose
    big-endian value [d] satisfies [1 <= d < n], every earlier array having
    been 0 or at least [n]; it returns within [fuel] draws whenever one of
    the first [fuel] arrays is valid; and without [crypto.getRandomValues]
    it throws. *)
Theorem generated_key_valid (draw : nat → list Z) (fuel : nat) :
  (∀ j, digits_ok 8 (draw j)) →
  (∀ sk, generateSecp256k1PrivateKey (Some draw) fuel = Ok (Some sk) →
         1 ≤ bytesToBigIntBE sk < SECP256K1_N ∧
         ∃ k, (k < fuel)%nat ∧ sk = draw k ∧
              ∀ i, (i < k)%nat → bytesToBigIntBE (draw i) = 0 ∨
                                  SECP256K1_N ≤ bytesToBigIntBE (draw i)) ∧
  (∀ k, (k < fuel)%nat → valid_key (draw k) = true →
        ∃ sk, generateSecp256k1PrivateKey (Some draw) fuel = Ok (Some sk)) ∧
  generateSecp256k1PrivateKey None fuel
    = Err "Secure randomness unavailable (crypto.getRandomValues missing)".
Proof.
  intros Hd. unfold generateSecp256k1PrivateKey.
  pose proof (generate_loop_spec draw fuel 0) as Hspec.
  assert (Hinv : ∀ i, valid_key (draw i) = false →
            bytesToBigIntBE (draw i) = 0 ∨ SECP256K1_N ≤ bytesToBigIntBE (draw i)).
  { intros i Hi. unfold valid_key in Hi. apply andb_false_iff in Hi as [Hi|Hi];
      apply negb_false_iff in Hi; [left; by apply Z.eqb_eq|right; by apply Z.leb_le]. }
  split; [|split; [|done]].
  - intros sk Hsk. assert (generate_loop fuel draw 0 = Some sk) as E by congruence.
    rewrite E in Hspec. destruct Hspec as (j & Hj & -> & Hv & Hbefore).
    split.
    + unfold valid_key in Hv. apply andb_true_iff in Hv as [H0 HN].
      apply negb_true_iff in H0, HN. apply Z.eqb_neq in H0. apply Z.leb_gt in HN.
      pose proof (val_nonneg 8 (draw j) (Hd j)) as Hnn. rewrite <- bigint_val in Hnn. lia.
    + exists j. split; [lia|]. split; [done|]. intros i Hi. apply Hinv, Hbefore. lia.
  - intros k Hk Hv. destruct (generate_loop fuel draw 0) as [sk|]; [by exists sk|].
    rewrite Hspec in Hv by lia. done.
Qed.

(** X27, witness: a source that draws all zeros, all 255, then 01 .. 20. *)
Lemma generated_key_valid_witness :
  (∀ sk, generateSecp256k1PrivateKey (Some sample_draw) 3 = Ok (Some sk) →
         1 ≤ bytesToBigIntBE sk < SECP256K1_N ∧
         ∃ k, (k < 3)%nat ∧ sk = sample_draw k ∧
              ∀ i, (i < k)%nat → bytesToBigIntBE (sample_draw i) = 0 ∨
                                  SECP256K1_N ≤ bytesToBigIntBE (sample_draw i)) ∧
  (∀ k, (k < 3)%nat → valid_key (sample_draw k) = true →
        ∃ sk, generateSecp256k1PrivateKey (Some sample_draw) 3 = Ok (Some sk)) ∧
  generateSecp256k1PrivateKey None 3
    = Err "Secure randomness unavailable (crypto.getRandomValues missing)".
Proof.
  apply (generated_key_valid sample_draw 3).
  intros j. destruct j as [|[|j]]; unfold sample_draw, digits_ok;
    [cbn [repeat]|cbn [repeat]|unfold sample_key; cbn [seq List.map]];
    repeat constructor; lia.
Defined.

Example generate_skips_invalid :
  generateSecp256k1PrivateKey (Some sample_draw) 3 = Ok (Some sample_key).
Proof. vm_compute. reflexivity. Qed.

(** *** Stored keys *)

Lemma nsec_text_of_key sk :
  length sk = 32%nat → digits_ok 8 sk →
  ∃ text, encodeNsec None sk = Ok text ∧ decodeNsecToBytes None text = Ok sk ∧
          Js.trim text = text ∧ Js.truthy (Some text) = true.
Proof.
  intros Hlen Hd.
  destruct (bech32_roundtrip_any "nsec" sk ltac:(discriminate) eq_refl Hd)
    as (W & _ & _ & He & Hdec & Hp).
  eexists. split; [exact He|]. split; [|split].
  - unfold decodeNsecToBytes. rewrite (trim_plain _ Hp).
    assert (is_hex64 (bech32_text "nsec" (chars_of (W ++ bech32CreateChecksum "nsec" W))) = false)
      as -> by (unfold is_hex64; cbn [all_hex]; apply andb_false_r).
    rewrite Hdec. cbn [bind]. change (String.eqb "nsec" "nsec") with true.
    cbn [negb]. by rewrite Hlen.
  - by apply trim_plain.
  - done.
Qed.

Lemma hex_digit_lower c :
  match hex_digit c with
  | Some _ => Js.is_ws c = false ∧ is_Some (hex_digit (Js.lower_char c))
  | None => hex_digit (Js.lower_char c) = None
  end.
Proof.
  destruct c as [[] [] [] [] [] [] [] []]; vm_compute; try done; split; try done; by eexists.
Qed.

Lemma all_hex_lower t : all_hex (Js.toLowerCase t) = all_hex t.
Proof.
  induction t as [|c t IH]; [done|]. cbn [Js.toLowerCase all_hex].
  pose proof (hex_digit_lower c) as H. destruct (hex_digit c).
  - destruct H as [_ [y ->]]. done.
  - by rewrite H.
Qed.

Lemma all_hex_trim t : all_hex t = true → Js.trim t = t.
Proof.
  intros H. unfold Js.trim.
  assert (Hs : Js.trimStart t = t).
  { destruct t as [|c t]; [done|]. cbn [all_hex Js.trimStart] in *.
    pose proof (hex_digit_lower c) as Hc. destruct (hex_digit c); [|done].
    by destruct Hc as [-> _]. }
  rewrite Hs. clear Hs. induction t as [|c t IH]; [done|].
  cbn [all_hex Js.trimEnd] in *.
  pose proof (hex_digit_lower c) as Hc. destruct (hex_digit c); [|done].
  destruct Hc as [Hc _]. rewrite (IH H), Hc. by destruct t.
Qed.

Lemma is_hex64_lower t : is_hex64 (Js.toLowerCase t) = is_hex64 t.
Proof. unfold is_hex64. by rewrite toLowerCase_length, all_hex_lower. Qed.

(** X28.  Key storage with the local codec.  For every text that is 64
    hexadecimal digits after trimming, [savePrivateKeyHex] and
    [savePrivateKeyNsec] store the same nsec; saving that nsec again stores
    it unchanged; [getPrivateKeyNsec] returns it, [hasLocalPrivateKey] is
    true and [getPrivateKeyHex] (the [getPrivateKey] of nostr.ts) returns the
    input trimmed and lower-cased; after [clearPrivateKey] there is no key. *)
Theorem stored_key_roundtrip (hex : string) (ls : Storage) :
  is_hex64 (Js.toLowerCase (Js.trim hex)) = true →
  ∃ nsec,
    savePrivateKeyHex None hex ls = Ok (Some nsec) ∧
    savePrivateKeyNsec None hex ls = Ok (Some nsec) ∧
    savePrivateKeyNsec None nsec ls = Ok (Some nsec) ∧
    getPrivateKeyNsec (Some nsec) = Some nsec ∧
    hasLocalPrivateKey (Some nsec) = true ∧
    getPrivateKeyHex None (Some nsec) = Some (Js.toLowerCase (Js.trim hex)) ∧
    getPrivateKeyHex None (clearPrivateKey (Some nsec)) = None ∧
    hasLocalPrivateKey (clearPrivateKey (Some nsec)) = false.
Proof.
  intros H. destruct (hexToBytes_ok hex H) as (bytes & Hb & Hlen & Hd & Hhex).
  destruct (nsec_text_of_key bytes Hlen Hd) as (text & He & Hdec & Htrim & Htruthy).
  assert (Hget : getPrivateKeyNsec (Some text) = Some text).
  { unfold getPrivateKeyNsec. by rewrite Htrim, Htruthy. }
  exists text. split; [|split; [|split; [|split; [done|split; [|split; [|done]]]]]].
  - unfold savePrivateKeyHex. rewrite Hb. cbn [bind]. by rewrite He.
  - unfold savePrivateKeyNsec, decodeNsecToBytes.
    rewrite is_hex64_lower in H. rewrite H.
    assert (Ht : Js.trim (Js.trim hex) = Js.trim hex).
    { apply all_hex_trim. unfold is_hex64 in H. by apply andb_true_iff in H as [_ ?]. }
    assert (Hb' : hexToBytes (Js.trim hex) = Ok bytes).
    { unfold hexToBytes in *. by rewrite Ht. }
    rewrite Hb'. cbn [bind]. by rewrite He.
  - unfold savePrivateKeyNsec. rewrite Hdec. cbn [bind]. by rewrite He.
  - unfold hasLocalPrivateKey. by rewrite Hget.
  - unfold getPrivateKeyHex, getPrivateKeyBytes. rewrite Hget, Hdec. cbn. by rewrite Hhex.
Qed.

(** X28, witness: a key written with upper- and lower-case digits. *)
Lemma stored_key_roundtrip_witness :
  ∃ nsec,
    savePrivateKeyHex None sample_hex None = Ok (Some nsec) ∧
    savePrivateKeyNsec None sample_hex None = Ok (Some nsec) ∧
    savePrivateKeyNsec None nsec None = Ok (Some nsec) ∧
    getPrivateKeyNsec (Some nsec) = Some nsec ∧
    hasLocalPrivateKey (Some nsec) = true ∧
    getPrivateKeyHex None (Some nsec) = Some (Js.toLowerCase (Js.trim sample_hex)) ∧
    getPrivateKeyHex None (clearPrivateKey (Some nsec)) = None ∧
    hasLocalPrivateKey (clearPrivateKey (Some nsec)) = false.
Proof. apply (stored_key_roundtrip sample_hex None). reflexivity. Defined.

Example stored_sample_key :
  savePrivateKeyHex None sample_hex None
    = Ok (Some "nsec1qypqxpq9qcrsszg2pvxq6rs0zqg3yyc5z5tpwxqergd3c8g7rusqpqcc2y") ∧
  getPrivateKeyHex None
    (Some "nsec1qypqxpq9qcrsszg2pvxq6rs0zqg3yyc5z5tpwxqergd3c8g7rusqpqcc2y")
    = Some "0102030405060708090a0b0c0d0e0f101112131415161718191a1b1c1d1e1f20".
Proof. vm_compute. done. Qed.

End KeysFacts.

Module PublishFacts.
Import Publish.

Local Open Scope string_scope.
Local Open Scope Z_scope.
Local Open Scope list_scope.

(** *** What is published reads back *)

(** X29.  What [publishAgoraEvent] writes, [parseAgoraEvent] reads back:
    for an event whose content parses to the content object built from a
    payload, the parsed title is the payload's name ("(Untitled event)" for
    an empty name), the description, location and start are the payload's,
    and [url] and [image_url] are the payload's landing page and image, as
    strings that are empty when the payload has none. *)
Theorem published_content_reads_back (json_parse : string → option Parse.Json)
    (ev : Parse.NostrEvent) (c : string) (p : Outbox.EventPayload) :
  Parse.ev_content ev = Some c → Js.trim c ≠ "" →
  json_parse (Js.trim c) = Some (contentObj p) →
  Parse.parseAgoraEvent json_parse ev =
    Some {| Parse.id := Parse.ev_id ev; Parse.pubkey := Parse.ev_pubkey ev;
            Parse.created_at := Parse.ev_created_at ev;
            Parse.title := Parse.JStr (match Outbox.name p with
                                       | "" => "(Untitled event)"
                                       | n => n
                                       end);
            Parse.description := Parse.JStr (Js.or_else (Outbox.description p) "");
            Parse.start := Some (inject_Z (Outbox.startTimestamp p));
            Parse.end_ := None;
            Parse.location := Some (Outbox.location p);
            Parse.url := Some (Js.or_else (Outbox.landingPageUrl p) "");
            Parse.image_url := Some (Js.or_else (Outbox.image_url p) "");
            Parse.raw := ev |}.
Proof.
  intros Hc Hne Hp. unfold Parse.parseAgoraEvent. rewrite Hc.
  destruct (Js.trim c) as [|ch s]; [done|]. rewrite Hp.
  unfold contentObj. cbv [Parse.prop Parse.field String.eqb Ascii.eqb Bool.eqb].
  cbv [Parse.as_number Parse.as_string Parse.or_opt].
  f_equal. f_equal.
  - destruct (Outbox.name p); reflexivity.
  - destruct (Outbox.description p) as [[|a d]|]; reflexivity.
Qed.

(** X29, witness: the potluck payload. *)
Lemma published_content_reads_back_witness :
  Parse.parseAgoraEvent parse_potluck (Parse.note "{}") =
    Some {| Parse.id := Parse.ev_id (Parse.note "{}");
            Parse.pubkey := Parse.ev_pubkey (Parse.note "{}");
            Parse.created_at := Parse.ev_created_at (Parse.note "{}");
            Parse.title := Parse.JStr (match Outbox.name potluck_payload with
                                       | "" => "(Untitled event)"
                                       | n => n
                                       end);
            Parse.description :=
              Parse.JStr (Js.or_else (Outbox.description potluck_payload) "");
            Parse.start := Some (inject_Z (Outbox.startTimestamp potluck_payload));
            Parse.end_ := None;
            Parse.location := Some (Outbox.location potluck_payload);
            Parse.url := Some (Js.or_else (Outbox.landingPageUrl potluck_payload) "");
            Parse.image_url := Some (Js.or_else (Outbox.image_url potluck_payload) "");
            Parse.raw := Parse.note "{}" |}.
Proof.
  apply (published_content_reads_back parse_potluck (Parse.note "{}") "{}" potluck_payload);
    [reflexivity|discriminate|reflexivity].
Defined.

(** *** One attempt on an event, end to end *)

Lemma publish_signed_cases clock env sg st :
  (∀ k, clock k + 150 ≤ clock (S k)) →
  let r := publish_signed clock env sg st in
  (r.2 = Outbox.Returned (signed_id sg) ∧
   Router.sent r.1 = Router.sent st ++ [[Router.Str "EVENT"; wire sg]] ∧
   Conn.ws_open (Router.conn r.1) = true) ∨
  (r.2 = Outbox.Threw "No relay connection available" ∧
   Router.sent r.1 = Router.sent st ∧
   Conn.ws_open (Router.conn r.1) = false).
Proof.
  intros Hs. cbn zeta. unfold publish_signed.
  destruct (RouterFacts.pool_event_cases clock env (wire sg) st Hs)
    as (_ & _ & _ & [(E & Hsent & Ho)|(E & Hsent & Ho)]); cbn zeta in *; cbn [fst snd];
    rewrite E; [left|right]; done.
Qed.

(** X30.  One attempt on an event item, from [attemptPublishOne] through
    [publishAgoraEvent] to the socket, with a clock that advances by at
    least 150 ms per sleep.  The item is 'published' only if exactly one
    ["EVENT", ev] frame was handed to an OPEN socket; at most one frame is
    ever sent; when the relay wait times out the item stays 'queued' with
    the connectivity backoff and [lastError] "No relay connection
    available"; and with no stored key and no extension nothing touches the
    router and the item stays 'queued' for 300 seconds. *)
Theorem event_attempt_end_to_end (s : Signers) (clock : nat → Z)
    (env : nat → Conn.State → Conn.State) (key : string) (st : Router.State)
    (aenv : Outbox.AttemptEnv) (th : Outbox.Throttle) (item : Outbox.OutboxItem) :
  (∀ k, clock k + 150 ≤ clock (S k)) →
  Outbox.outcome aenv = (publishAgoraEvent s clock env key st).2 →
  let r := publishAgoraEvent s clock env key st in
  let a := (Outbox.attemptPublishOne aenv th item).1 in
  (Outbox.status a = Outbox.published →
   ∃ ev, Router.sent r.1 = Router.sent st ++ [[Router.Str "EVENT"; ev]] ∧
         Conn.ws_open (Router.conn r.1) = true) ∧
  (Router.sent r.1 = Router.sent st ∨
   ∃ ev, Router.sent r.1 = Router.sent st ++ [[Router.Str "EVENT"; ev]]) ∧
  (r.2 = Outbox.Threw "No relay connection available" →
   Outbox.status a = Outbox.queued ∧
   Outbox.lastError a = Some "No relay connection available" ∧
   Outbox.nextAttemptAt a
     = Js.nowSec (Outbox.clock_ret aenv)
       + Outbox.computeBackoffSeconds (Outbox.attempts item + 1)) ∧
  (key = "" → extension s = None →
   r.1 = st ∧ Outbox.status a = Outbox.queued ∧
   Outbox.nextAttemptAt a = Js.nowSec (Outbox.clock_ret aenv) + 300).
Proof.
  intros Hs Hout. cbn zeta.
  assert (Hcases :
    (∃ m, publishAgoraEvent s clock env key st = (st, Outbox.Threw m)) ∨
    (∃ sg, publishAgoraEvent s clock env key st = publish_signed clock env sg st)).
  { unfold publishAgoraEvent.
    destruct key as [|c k].
    - destruct (extension s) as [[sg|m]|]; [right; by exists sg|left; by eexists..].
    - destruct (signEvent s (String c k)) as [sg|m]; [right; by exists sg|left; by eexists]. }
  split; [|split; [|split]].
  - intros Hpub. destruct Hcases as [(m & E)|(sg & E)].
    + exfalso. rewrite E in Hout. cbn [snd] in Hout.
      unfold Outbox.attemptPublishOne in Hpub. rewrite Hout in Hpub.
      unfold Outbox.classify_failure in Hpub.
      destruct (Outbox.isNoKey _); [done|]. by destruct (Outbox.isConnection _).
    + rewrite E in *.
      destruct (publish_signed_cases clock env sg st Hs) as [(E2 & Hsent & Ho)|(E2 & Hsent & Ho)];
        cbn zeta in *.
      * by exists (wire sg).
      * exfalso. rewrite E2 in Hout.
        unfold Outbox.attemptPublishOne in Hpub. rewrite Hout in Hpub.
        revert Hpub. vm_compute. done.
  - destruct Hcases as [(m & E)|(sg & E)]; rewrite E; [by left|].
    destruct (publish_signed_cases clock env sg st Hs) as [(_ & Hsent & _)|(_ & Hsent & _)];
      cbn zeta in *; [right; by exists (wire sg)|by left].
  - intros E. rewrite E in Hout.
    unfold Outbox.attemptPublishOne. rewrite Hout.
    unfold Outbox.classify_failure.
    change (Outbox.isNoKey (Js.toLowerCase "No relay connection available")) with false.
    change (Outbox.isConnection (Js.toLowerCase "No relay connection available")) with true.
    done.
  - intros -> Hext. unfold publishAgoraEvent in *. rewrite Hext in *. cbn [fst snd] in *.
    split; [done|].
    unfold Outbox.attemptPublishOne. rewrite Hout.
    unfold Outbox.classify_failure.
    change (Outbox.isNoKey (Js.toLowerCase "No private key available for local signing"))
      with true.
    done.
Qed.

(** X30, witness: a stored key, a local signer, and a relay that never
    answers. *)
Lemma event_attempt_end_to_end_witness :
  let r := publishAgoraEvent local_only Router.clock150 Router.env_silent
             Keys.sample_hex Router.initial in
  let a := (Outbox.attemptPublishOne
              (Outbox.attempt_at_5 (Outbox.Threw "No relay connection available"))
              Outbox.throttle0 Outbox.potluck).1 in
  (Outbox.status a = Outbox.published →
   ∃ ev, Router.sent r.1 = Router.sent Router.initial ++ [[Router.Str "EVENT"; ev]] ∧
         Conn.ws_open (Router.conn r.1) = true) ∧
  (Router.sent r.1 = Router.sent Router.initial ∨
   ∃ ev, Router.sent r.1 = Router.sent Router.initial ++ [[Router.Str "EVENT"; ev]]) ∧
  (r.2 = Outbox.Threw "No relay connection available" →
   Outbox.status a = Outbox.queued ∧
   Outbox.lastError a = Some "No relay connection available" ∧
   Outbox.nextAttemptAt a
     = Js.nowSec (Outbox.clock_ret
                    (Outbox.attempt_at_5 (Outbox.Threw "No relay connection available")))
       + Outbox.computeBackoffSeconds (Outbox.attempts Outbox.potluck + 1)) ∧
  (Keys.sample_hex = "" → extension local_only = None →
   r.1 = Router.initial ∧ Outbox.status a = Outbox.queued ∧
   Outbox.nextAttemptAt a
     = Js.nowSec (Outbox.clock_ret
                    (Outbox.attempt_at_5 (Outbox.Threw "No relay connection available")))
       + 300).
Proof.
  apply (event_attempt_end_to_end local_only Router.clock150 Router.env_silent
           Keys.sample_hex Router.initial
           (Outbox.attempt_at_5 (Outbox.Threw "No relay connection available"))
           Outbox.throttle0 Outbox.potluck).
  - intros k. unfold Router.clock150. lia.
  - vm_compute. reflexivity.
Defined.

End PublishFacts.
